(** * A shallow embedding of [Vector/vector.h]

    [RawMemory<T>] owns a block of raw storage; [Vector<T>] owns one
    [RawMemory<T>] and a count of live elements.  The embedding keeps the two
    classes as records, every [size_t] as a 64-bit [Z] whose wrap-around is
    written out, every iterator as its offset from [begin()], and the block
    of storage as a list of slots, each slot holding a live object or
    nothing.  A container holds its block by value: the source never lets
    two containers share one.

    What the element type does is a parameter: which value a constructor
    builds, what a moved-from object holds, the two traits [CopyOrMoveData]
    branches on, and when a call into the element type (or into
    [operator new]) throws.  A copy or a move builds the value of its
    source; a constructor or assignment that throws leaves its operands as
    they were; destructors do not throw; the arguments handed to [Emplace]
    and [EmplaceBack] are not elements of the container itself.
    [Allocate n] asks [operator new] for [n * sizeof(T)] bytes, the product
    taken in [size_t] as the source takes it, and the block it gets has room
    for as many objects as these bytes hold.  The move constructor of
    [RawMemory] is not embedded: [Vector] never calls it.

    A call ends in one of four ways: it returns, it leaves by an exception,
    an [assert] of the source fails, or it reads an object that is not there
    or builds one outside its block (undefined behaviour with no value to go
    on with). *)

From Stdlib Require Import ZArith Lia Bool.
From stdpp Require Import base list.

Local Open Scope Z_scope.

(** ** Machine integers *)

Definition SIZE_MAX : Z := 2 ^ 64 - 1.

(** [PTRDIFF_MAX], the most bytes an object can have: the bound on the
    block of a container in the class invariant. *)
Definition PTRDIFF_MAX : Z := 2 ^ 63 - 1.

(** Arithmetic on [size_t] is modulo [2 ^ 64]. *)
Definition wrap (z : Z) : Z := z mod 2 ^ 64.

(** ** How a call ends *)

Inductive outcome (R S : Type) : Type :=
| Normal (r : R) (s : S)
| Thrown (s : S)
| AssertFail
| Undefined.

Arguments Normal {R S} r s.
Arguments Thrown {R S} s.
Arguments AssertFail {R S}.
Arguments Undefined {R S}.

(** [andthen o unwind k]: run [k] after [o] returned; when [o] left by an
    exception the frame is unwound by [unwind] and the exception goes on. *)
Definition andthen {R S R' S'} (o : outcome R S) (unwind : S -> S')
    (k : R -> S -> outcome R' S') : outcome R' S' :=
  match o with
  | Normal r s => k r s
  | Thrown s => Thrown (unwind s)
  | AssertFail => AssertFail
  | Undefined => Undefined
  end.

(** ** The element type *)

(** The calls whose failure the container has to survive. *)
Inductive call (T Args : Type) : Type :=
| OperatorNew (bytes : Z)
| Construct (a : Args)
| ValueInit
| CopyCtor (x : T)
| MoveCtor (x : T)
| CopyAssign (dst src : T)
| MoveAssign (dst src : T).

Arguments OperatorNew {T Args} bytes.
Arguments Construct {T Args} a.
Arguments ValueInit {T Args}.
Arguments CopyCtor {T Args} x.
Arguments MoveCtor {T Args} x.
Arguments CopyAssign {T Args} dst src.
Arguments MoveAssign {T Args} dst src.

Class Element (T Args Env : Type) : Type := {
  (** [sizeof(T)] *)
  sizeof : Z;
  sizeof_range : 1 <= sizeof <= PTRDIFF_MAX;
  (** the value [T(args...)] builds *)
  make : Args -> T;
  (** the value [T()] builds *)
  value_init : T;
  (** what is left in an object that was moved from *)
  moved_from : T -> T;
  (** [std::is_nothrow_move_constructible_v<T>] *)
  nothrow_move_constructible : bool;
  (** [std::is_copy_constructible_v<T>] *)
  copy_constructible : bool;
  (** whether a call throws in the ambient state, and the state after it *)
  throws : call T Args -> Env -> bool;
  next : call T Args -> Env -> Env;
  nothrow_move_sound :
    nothrow_move_constructible = true ->
    forall x e, throws (MoveCtor x) e = false
}.

Section Container.

Context {T Args Env : Type} `{Elt : !Element T Args Env}.

(** The part of the program state outside the container: the ambient state
    that decides failures, and the objects that were lost without their
    destructor having run. *)
Record world : Type := { env : Env; leaked : list T }.

Definition ask (c : call T Args) (w : world) : bool * world :=
  (throws c (env w), {| env := next c (env w); leaked := leaked w |}).

Definition leak (xs : list T) (w : world) : world :=
  {| env := env w; leaked := leaked w ++ xs |}.

(** No call ever throws. *)
Definition quiet : Prop :=
  forall (c : call T Args) (e : Env), throws c e = false.

(** ** Raw storage *)

Abbreviation slot := (option T).
Abbreviation buffer := (list (option T)).

(** The object in slot [i], if the slot is inside the block and holds one. *)
Definition at_ (b : buffer) (i : Z) : slot :=
  if 0 <=? i then default None (b !! Z.to_nat i) else None.

(** Slot [i] set to [s]; a slot outside the block is not part of it. *)
Definition store (b : buffer) (i : Z) (s : slot) : buffer :=
  if 0 <=? i then <[Z.to_nat i := s]> b else b.

Definition inside (b : buffer) (i : Z) : bool :=
  (0 <=? i) && (i <? Z.of_nat (length b)).

Definition live (b : buffer) : list T := omap id b.

(** Placement [new] of a ready value into slot [i].  An object that was
    still in the slot is lost. *)
Definition place (b : buffer) (i : Z) (x : T) (w : world)
  : outcome unit (buffer * world) :=
  if inside b i
  then Normal tt (store b i (Some x), leak (option_list (at_ b i)) w)
  else Undefined.

(** [new (p + i) T(args...)] *)
Definition construct_at (b : buffer) (i : Z) (a : Args) (w : world)
  : outcome unit (buffer * world) :=
  let (t, w1) := ask (Construct a) w in
  if t then Thrown (b, w1) else place b i (make a) w1.

(** [std::destroy_n(p + first, n)].  Destroying where the block has no
    object is undefined in C++; the block itself is as it was. *)
Fixpoint destroy_n (b : buffer) (first : Z) (n : nat) : buffer :=
  match n with
  | O => b
  | S k => destroy_n (store b first None) (first + 1) k
  end.

(** [std::uninitialized_copy_n] ([mv = false]) and
    [std::uninitialized_move_n] ([mv = true]) from one block into another:
    [n] objects from [src + first] are built at [dst + d_first]; when a
    constructor throws, the objects built so far are destroyed and the
    exception goes on. *)
Fixpoint uninitialized_transfer (mv : bool) (src : buffer) (first : Z)
    (n : nat) (dst : buffer) (d_first : Z) (w : world)
  : outcome unit (buffer * buffer * world) :=
  match n with
  | O => Normal tt (src, dst, w)
  | S k =>
      match at_ src first with
      | None => Undefined
      | Some x =>
          let (t, w1) := ask (if mv then MoveCtor x else CopyCtor x) w in
          if t then Thrown (src, dst, w1) else
          match place dst d_first x w1 with
          | Normal _ (dst1, w2) =>
              let src1 :=
                if mv then store src first (Some (moved_from x)) else src in
              match uninitialized_transfer mv src1 (first + 1) k
                      dst1 (d_first + 1) w2 with
              | Thrown (src2, dst2, w3) =>
                  Thrown (src2, store dst2 d_first None, w3)
              | o => o
              end
          | Thrown s => Thrown (src, fst s, snd s)
          | AssertFail => AssertFail
          | Undefined => Undefined
          end
      end
  end.

Definition uninitialized_copy_n := uninitialized_transfer false.
Definition uninitialized_move_n := uninitialized_transfer true.

(** [std::uninitialized_copy(first, last, d)] and
    [std::uninitialized_move(first, last, d)] *)
Definition uninitialized_copy (src : buffer) (first last : Z) :=
  uninitialized_transfer false src first (Z.to_nat (last - first)).
Definition uninitialized_move (src : buffer) (first last : Z) :=
  uninitialized_transfer true src first (Z.to_nat (last - first)).

(** [std::uninitialized_move_n] inside one block *)
Fixpoint uninitialized_move_n_within (b : buffer) (first : Z) (n : nat)
    (d_first : Z) (w : world) : outcome unit (buffer * world) :=
  match n with
  | O => Normal tt (b, w)
  | S k =>
      match at_ b first with
      | None => Undefined
      | Some x =>
          let (t, w1) := ask (MoveCtor x) w in
          if t then Thrown (b, w1) else
          match place (store b first (Some (moved_from x))) d_first x w1 with
          | Normal _ (b1, w2) =>
              match uninitialized_move_n_within b1 (first + 1) k
                      (d_first + 1) w2 with
              | Thrown (b2, w3) => Thrown (store b2 d_first None, w3)
              | o => o
              end
          | o => o
          end
      end
  end.

(** [std::uninitialized_value_construct_n(p + first, n)] *)
Fixpoint uninitialized_value_construct_n (b : buffer) (first : Z) (n : nat)
    (w : world) : outcome unit (buffer * world) :=
  match n with
  | O => Normal tt (b, w)
  | S k =>
      let (t, w1) := ask ValueInit w in
      if t then Thrown (b, w1) else
      match place b first value_init w1 with
      | Normal _ (b1, w2) =>
          match uninitialized_value_construct_n b1 (first + 1) k w2 with
          | Thrown (b2, w3) => Thrown (store b2 first None, w3)
          | o => o
          end
      | o => o
      end
  end.

(** [std::copy_n(src + first, n, dst + d_first)]: copy assignment, front to
    back, onto live objects.  Nothing is undone when an assignment throws. *)
Fixpoint copy_n (src : buffer) (first : Z) (n : nat) (dst : buffer)
    (d_first : Z) (w : world) : outcome unit (buffer * world) :=
  match n with
  | O => Normal tt (dst, w)
  | S k =>
      match at_ src first, at_ dst d_first with
      | Some x, Some y =>
          let (t, w1) := ask (CopyAssign y x) w in
          if t then Thrown (dst, w1)
          else copy_n src (first + 1) k (store dst d_first (Some x))
                 (d_first + 1) w1
      | _, _ => Undefined
      end
  end.

(** [std::move(p + first, p + last, p + d_first)]: move assignment, front
    to back, [last - first] times (none when [last] is not after
    [first]). *)
Fixpoint move_n (b : buffer) (first : Z) (n : nat) (d_first : Z) (w : world)
  : outcome unit (buffer * world) :=
  match n with
  | O => Normal tt (b, w)
  | S k =>
      match at_ b first, at_ b d_first with
      | Some x, Some y =>
          let (t, w1) := ask (MoveAssign y x) w in
          if t then Thrown (b, w1)
          else move_n
                 (store (store b first (Some (moved_from x))) d_first (Some x))
                 (first + 1) k (d_first + 1) w1
      | _, _ => Undefined
      end
  end.

Definition std_move (b : buffer) (first last d_first : Z) :=
  move_n b first (Z.to_nat (last - first)) d_first.

(** [std::move_backward(p + first, p + last, p + d_last)]: move assignment,
    back to front. *)
Fixpoint move_backward_n (b : buffer) (last : Z) (n : nat) (d_last : Z)
    (w : world) : outcome unit (buffer * world) :=
  match n with
  | O => Normal tt (b, w)
  | S k =>
      match at_ b (last - 1), at_ b (d_last - 1) with
      | Some x, Some y =>
          let (t, w1) := ask (MoveAssign y x) w in
          if t then Thrown (b, w1)
          else move_backward_n
                 (store (store b (last - 1) (Some (moved_from x)))
                    (d_last - 1) (Some x))
                 (last - 1) k (d_last - 1) w1
      | _, _ => Undefined
      end
  end.

Definition move_backward (b : buffer) (first last d_last : Z) :=
  move_backward_n b last (Z.to_nat (last - first)) d_last.

(** ** [class RawMemory] *)

Record RawMemory : Type := { buffer_ : buffer; capacity_ : Z }.

(** [RawMemory() = default]: [buffer_ = nullptr], [capacity_ = 0] *)
Definition RawMemory_default : RawMemory :=
  {| buffer_ := []; capacity_ := 0 |}.

Definition set_raw (m : RawMemory) (b : buffer) : RawMemory :=
  {| buffer_ := b; capacity_ := capacity_ m |}.

(** [Allocate(n)]: [n != 0 ? operator new(n * sizeof(T)) : nullptr].  The
    product is taken in [size_t]; the block [operator new] returns has the
    bytes it was asked for, room for [bytes / sizeof(T)] objects. *)
Definition Allocate (n : Z) (w : world) : outcome buffer world :=
  if n =? 0 then Normal [] w
  else
    let bytes := wrap (n * sizeof) in
    let (t, w1) := ask (OperatorNew bytes) w in
    if t then Thrown w1
    else Normal (replicate (Z.to_nat (bytes / sizeof)) None) w1.

(** [Deallocate(buf)]: the block is given back as it is; objects still in
    it never see their destructor. *)
Definition Deallocate (buf : buffer) (w : world) : world :=
  leak (live buf) w.

(** [explicit RawMemory(size_t capacity)] *)
Definition RawMemory_new (capacity : Z) (w : world)
  : outcome RawMemory world :=
  andthen (Allocate capacity w) id
    (fun b w1 => Normal {| buffer_ := b; capacity_ := capacity |} w1).

(** [~RawMemory()] *)
Definition RawMemory_destroy (m : RawMemory) (w : world) : world :=
  Deallocate (buffer_ m) w.

(** [operator=(RawMemory&& rhs)] on two distinct objects: both fields are
    exchanged out of [rhs]; the block [this] held before is not given
    back. *)
Definition RawMemory_move_assign (this rhs : RawMemory) (w : world)
  : RawMemory * RawMemory * world :=
  ({| buffer_ := buffer_ rhs; capacity_ := capacity_ rhs |},
   {| buffer_ := []; capacity_ := 0 |},
   leak (live (buffer_ this)) w).

(** [operator+(size_t offset)] *)
Definition RawMemory_plus (m : RawMemory) (offset : Z) : outcome Z unit :=
  if offset <=? capacity_ m then Normal offset tt else AssertFail.

(** [operator[](size_t index)]; the reference is the slot's index *)
Definition RawMemory_index (m : RawMemory) (index : Z) : outcome Z unit :=
  if index <? capacity_ m then Normal index tt else AssertFail.

Definition RawMemory_Swap (this other : RawMemory) : RawMemory * RawMemory :=
  ({| buffer_ := buffer_ other; capacity_ := capacity_ other |},
   {| buffer_ := buffer_ this; capacity_ := capacity_ this |}).

(** ** [class Vector] *)

Record Vector : Type := { data_ : RawMemory; size_ : Z }.

Definition set_buffer (v : Vector) (b : buffer) : Vector :=
  {| data_ := set_raw (data_ v) b; size_ := size_ v |}.

Definition set_size (v : Vector) (n : Z) : Vector :=
  {| data_ := data_ v; size_ := n |}.

Definition Size (v : Vector) : Z := size_ v.
Definition Capacity (v : Vector) : Z := capacity_ (data_ v).

(** Iterators are offsets from [data_.GetAddress()]. *)
Definition begin_ (v : Vector) : Z := 0.
Definition end_ (v : Vector) : Z := 0 + size_ v.

(** [Vector() = default] *)
Definition Vector_default : Vector :=
  {| data_ := RawMemory_default; size_ := 0 |}.

(** [explicit Vector(size_t size)] *)
Definition Vector_sized (size : Z) (w : world) : outcome Vector world :=
  andthen (RawMemory_new size w) id (fun d w1 =>
  andthen (uninitialized_value_construct_n (buffer_ d) 0 (Z.to_nat size) w1)
    (fun s => RawMemory_destroy (set_raw d s.1) s.2)
    (fun _ s => Normal {| data_ := set_raw d s.1; size_ := size |} s.2)).

(** [Vector(const Vector& other)] *)
Definition Vector_copy (other : Vector) (w : world) : outcome Vector world :=
  andthen (RawMemory_new (size_ other) w) id (fun d w1 =>
  andthen (uninitialized_copy_n (buffer_ (data_ other)) 0
             (Z.to_nat (size_ other)) (buffer_ d) 0 w1)
    (fun '(_, dst, w2) => RawMemory_destroy (set_raw d dst) w2)
    (fun _ '(_, dst, w2) =>
       Normal {| data_ := set_raw d dst; size_ := size_ other |} w2)).

(** [Vector(Vector&& other) noexcept]: the new object and what is left of
    [other] *)
Definition Vector_move (other : Vector) (w : world)
  : Vector * Vector * world :=
  let '(d, od, w1) := RawMemory_move_assign RawMemory_default (data_ other) w in
  ({| data_ := d; size_ := size_ other |}, {| data_ := od; size_ := 0 |}, w1).

(** [~Vector()], followed by the destructor of the member [data_] *)
Definition Vector_destroy (v : Vector) (w : world) : world :=
  RawMemory_destroy
    (set_raw (data_ v)
       (destroy_n (buffer_ (data_ v)) 0 (Z.to_nat (size_ v)))) w.

(** [Swap(Vector& other) noexcept] *)
Definition Swap (v other : Vector) : Vector * Vector :=
  let (d, od) := RawMemory_Swap (data_ v) (data_ other) in
  ({| data_ := d; size_ := size_ other |}, {| data_ := od; size_ := size_ v |}).

(** [operator[](size_t index)] *)
Definition Vector_index (v : Vector) (index : Z) : outcome Z unit :=
  if index <? size_ v then RawMemory_index (data_ v) index else AssertFail.

(** [return &data_[i]] at the end of a member function *)
Definition return_slot (v : Vector) (i : Z) (w : world)
  : outcome Z (Vector * world) :=
  andthen (RawMemory_index (data_ v) i) (fun _ => (v, w))
    (fun r _ => Normal r (v, w)).

(** [is_nothrow_move_constructible_v<T> || !is_copy_constructible_v<T>] *)
Definition moves_elements : bool :=
  nothrow_move_constructible || negb copy_constructible.

(** [CopyOrMoveData(RawMemory&& new_data)]; [new_data] is the caller's
    object and comes back with the state. *)
Definition CopyOrMoveData (new_data : RawMemory) (v : Vector) (w : world)
  : outcome unit (Vector * RawMemory * world) :=
  andthen
    ((if moves_elements then uninitialized_move_n else uninitialized_copy_n)
       (buffer_ (data_ v)) 0 (Z.to_nat (size_ v)) (buffer_ new_data) 0 w)
    (fun '(src, dst, w1) => (set_buffer v src, set_raw new_data dst, w1))
    (fun _ '(src, dst, w1) =>
       let (d, nd) :=
         RawMemory_Swap (set_raw (data_ v) src) (set_raw new_data dst) in
       Normal tt
         ({| data_ := d; size_ := size_ v |},
          set_raw nd (destroy_n (buffer_ nd) 0 (Z.to_nat (size_ v))),
          w1)).

(** [CopyOrMovePartData(RawMemory&& new_data, iterator pos)] *)
Definition CopyOrMovePartData (new_data : RawMemory) (pos : Z) (v : Vector)
    (w : world) : outcome unit (Vector * RawMemory * world) :=
  andthen
    ((if moves_elements then uninitialized_move else uninitialized_copy)
       (buffer_ (data_ v)) (begin_ v) pos (buffer_ new_data) 0 w)
    (fun '(src, dst, w1) => (set_buffer v src, set_raw new_data dst, w1))
    (fun _ '(src, dst, w1) =>
  andthen
    ((if moves_elements then uninitialized_move else uninitialized_copy)
       src pos (end_ v) dst (0 + (pos - begin_ v) + 1) w1)
    (fun '(src, dst, w2) => (set_buffer v src, set_raw new_data dst, w2))
    (fun _ '(src, dst, w2) =>
       let (d, nd) :=
         RawMemory_Swap (set_raw (data_ v) src) (set_raw new_data dst) in
       Normal tt
         ({| data_ := d; size_ := size_ v |},
          set_raw nd (destroy_n (buffer_ nd) 0 (Z.to_nat (size_ v))),
          w2))).

(** [Reserve(size_t new_capacity)]; the local [new_data] is destroyed on
    both ways out. *)
Definition Reserve (new_capacity : Z) (v : Vector) (w : world)
  : outcome unit (Vector * world) :=
  if new_capacity <=? capacity_ (data_ v) then Normal tt (v, w)
  else
    andthen (RawMemory_new new_capacity w) (fun w1 => (v, w1))
      (fun new_data w1 =>
    andthen (CopyOrMoveData new_data v w1)
      (fun '(v1, nd, w2) => (v1, RawMemory_destroy nd w2))
      (fun _ '(v1, nd, w2) => Normal tt (v1, RawMemory_destroy nd w2))).

(** [Resize(size_t new_size)] *)
Definition Resize (new_size : Z) (v : Vector) (w : world)
  : outcome unit (Vector * world) :=
  if new_size =? size_ v then Normal tt (v, w)
  else if new_size <? size_ v then
    Normal tt
      (set_size
         (set_buffer v
            (destroy_n (buffer_ (data_ v)) new_size
               (Z.to_nat (wrap (size_ v - new_size)))))
         new_size, w)
  else
    andthen (Reserve new_size v w) id (fun _ '(v1, w1) =>
    andthen
      (uninitialized_value_construct_n (buffer_ (data_ v1)) (size_ v1)
         (Z.to_nat (wrap (new_size - size_ v1))) w1)
      (fun s => (set_buffer v1 s.1, s.2))
      (fun _ s => Normal tt (set_size (set_buffer v1 s.1) new_size, s.2))).

(** [EmplaceBack(Args&&... args)] *)
Definition EmplaceBack (args : Args) (v : Vector) (w : world)
  : outcome Z (Vector * world) :=
  andthen
    (if size_ v =? Capacity v then
       andthen
         (RawMemory_new (if size_ v =? 0 then 1 else wrap (size_ v * 2)) w)
         (fun w1 => (v, w1)) (fun new_data w1 =>
       andthen (construct_at (buffer_ new_data) (size_ v) args w1)
         (fun s => (v, RawMemory_destroy (set_raw new_data s.1) s.2))
         (fun _ s =>
       andthen (CopyOrMoveData (set_raw new_data s.1) v s.2)
         (fun '(v1, nd, w3) => (v1, RawMemory_destroy nd w3))
         (fun _ '(v1, nd, w3) =>
            Normal tt
              (set_size v1 (wrap (size_ v1 + 1)), RawMemory_destroy nd w3))))
     else if size_ v <? Capacity v then
       andthen (construct_at (buffer_ (data_ v)) (size_ v) args w)
         (fun s => (set_buffer v s.1, s.2))
         (fun _ s =>
            Normal tt
              (set_size (set_buffer v s.1) (wrap (size_ v + 1)), s.2))
     else Normal tt (v, w))
    id
    (fun _ '(v1, w1) => return_slot v1 (wrap (size_ v1 - 1)) w1).

(** [PushBack(S&& value)] *)
Definition PushBack (value : Args) (v : Vector) (w : world)
  : outcome unit (Vector * world) :=
  andthen (EmplaceBack value v w) id (fun _ s => Normal tt s).

(** [PopBack() noexcept] *)
Definition PopBack (v : Vector) (w : world) : outcome unit (Vector * world) :=
  if 0 <? size_ v then
    Normal tt
      (set_size
         (set_buffer v (destroy_n (buffer_ (data_ v)) (wrap (size_ v - 1)) 1))
         (wrap (size_ v - 1)), w)
  else AssertFail.

(** [Emplace(const_iterator pos, Args&&... args)] *)
Definition Emplace (pos : Z) (args : Args) (v : Vector) (w : world)
  : outcome Z (Vector * world) :=
  if negb ((begin_ v <=? pos) && (pos <=? end_ v)) then AssertFail else
  let shift_pos := pos - begin_ v in
  if size_ v =? Capacity v then
    andthen
      (RawMemory_new (if size_ v =? 0 then 1 else wrap (size_ v * 2)) w)
      (fun w1 => (v, w1)) (fun new_data w1 =>
    andthen (construct_at (buffer_ new_data) shift_pos args w1)
      (fun s => (v, RawMemory_destroy (set_raw new_data s.1) s.2))
      (fun _ s =>
    andthen (CopyOrMovePartData (set_raw new_data s.1) pos v s.2)
      (fun '(v1, nd, w3) => (v1, RawMemory_destroy nd w3))
      (fun _ '(v1, nd, w3) =>
         return_slot (set_size v1 (wrap (size_ v1 + 1))) shift_pos
           (RawMemory_destroy nd w3))))
  else if size_ v <? Capacity v then
    if pos =? end_ v then
      andthen (construct_at (buffer_ (data_ v)) (size_ v) args w)
        (fun s => (set_buffer v s.1, s.2))
        (fun _ s =>
           return_slot (set_size (set_buffer v s.1) (wrap (size_ v + 1)))
             shift_pos s.2)
    else
      (* T temp(std::forward<Args>(args)...) *)
      let (t, w1) := ask (Construct args) w in
      if t then Thrown (v, w1) else
      let temp := make args in
      andthen
        (uninitialized_move_n_within (buffer_ (data_ v)) (end_ v - 1) 1
           (end_ v) w1)
        (fun s => (set_buffer v s.1, s.2)) (fun _ s =>
      andthen (move_backward s.1 pos (end_ v - 1) (end_ v) s.2)
        (fun s => (set_buffer v s.1, s.2)) (fun _ s =>
      (* *pos = std::move(temp) *)
      match at_ s.1 pos with
      | None => Undefined
      | Some y =>
          let (t, w4) := ask (MoveAssign y temp) s.2 in
          if t then Thrown (set_buffer v s.1, w4)
          else
            return_slot
              (set_size (set_buffer v (store s.1 pos (Some temp)))
                 (wrap (size_ v + 1)))
              shift_pos w4
      end))
  else return_slot v shift_pos w.

(** [Insert(const_iterator pos, S&& value)] *)
Definition Insert (pos : Z) (value : Args) (v : Vector) (w : world)
  : outcome Z (Vector * world) :=
  Emplace pos value v w.

(** [Erase(const_iterator pos)] *)
Definition Erase (pos : Z) (v : Vector) (w : world)
  : outcome Z (Vector * world) :=
  andthen (std_move (buffer_ (data_ v)) (pos + 1) (end_ v) pos w)
    (fun s => (set_buffer v s.1, s.2))
    (fun _ s =>
       let v1 :=
         set_size (set_buffer v (destroy_n s.1 (0 + size_ v - 1) 1))
           (wrap (size_ v - 1)) in
       if size_ v1 =? 0 then Normal (end_ v1) (v1, s.2)
       else Normal pos (v1, s.2)).

(** [operator=(const Vector& rhs)] with [this != &rhs] *)
Definition copy_assign (rhs : Vector) (v : Vector) (w : world)
  : outcome unit (Vector * world) :=
  if Capacity v <? size_ rhs then
    andthen (Vector_copy rhs w) (fun w1 => (v, w1)) (fun rhs_copy w1 =>
      let (v1, rhs_copy1) := Swap v rhs_copy in
      Normal tt (v1, Vector_destroy rhs_copy1 w1))
  else
    andthen
      (if Size rhs <? size_ v then
         andthen
           (copy_n (buffer_ (data_ rhs)) 0 (Z.to_nat (Size rhs))
              (buffer_ (data_ v)) 0 w)
           id
           (fun _ s =>
              Normal tt
                (destroy_n s.1 (0 + Size rhs)
                   (Z.to_nat (wrap (size_ v - Size rhs))), s.2))
       else
         andthen
           (copy_n (buffer_ (data_ rhs)) 0 (Z.to_nat (size_ v))
              (buffer_ (data_ v)) 0 w)
           id
           (fun _ s =>
         andthen
           (uninitialized_copy_n (buffer_ (data_ rhs)) (0 + size_ v)
              (Z.to_nat (wrap (Size rhs - size_ v))) s.1 (0 + size_ v) s.2)
           (fun '(_, dst, w2) => (dst, w2))
           (fun _ '(_, dst, w2) => Normal tt (dst, w2))))
      (fun s => (set_buffer v s.1, s.2))
      (fun _ s => Normal tt (set_size (set_buffer v s.1) (Size rhs), s.2)).

(** [operator=(const Vector& rhs)] with [this == &rhs] *)
Definition copy_assign_self (v : Vector) (w : world)
  : outcome unit (Vector * world) :=
  Normal tt (v, w).

(** [operator=(Vector&& rhs) noexcept] on two distinct objects: [*this]
    and what is left of [rhs] *)
Definition move_assign (rhs : Vector) (v : Vector) (w : world)
  : Vector * Vector * world :=
  let '(d, rd, w1) := RawMemory_move_assign (data_ v) (data_ rhs) w in
  ({| data_ := d; size_ := size_ rhs |}, {| data_ := rd; size_ := 0 |}, w1).

(** [operator=(Vector&& rhs) noexcept] with [&rhs == this]: each
    [std::exchange] writes the reset value and the assignment puts the old
    one back. *)
Definition move_assign_self (v : Vector) (w : world) : Vector * world :=
  (v, w).

(** ** What an observer sees *)

(** what is in slot [i] of the container's block *)
Definition element (v : Vector) (i : Z) : slot := at_ (buffer_ (data_ v)) i.

(** the live range as a sequence of slots *)
Definition elements (v : Vector) : list slot :=
  take (Z.to_nat (size_ v)) (buffer_ (data_ v)).

(** the values in the live range *)
Definition contents (v : Vector) : list T := live (elements v).

(** The shape of a container: [size_] elements fit the capacity, the
    block has [capacity_] slots, [capacity_] is a [size_t], and every slot
    below [size_] holds an object. *)
Definition well_formed (v : Vector) : Prop :=
  0 <= size_ v <= Capacity v /\
  Capacity v = Z.of_nat (length (buffer_ (data_ v))) /\
  Capacity v <= SIZE_MAX /\
  forall i, 0 <= i < size_ v -> is_Some (at_ (buffer_ (data_ v)) i).

(** The class invariant: the container is well formed and its block is one
    that can exist, [capacity_ * sizeof(T)] bytes being no more than an
    object can have. *)
Definition valid (v : Vector) : Prop :=
  well_formed v /\ Capacity v * sizeof <= PTRDIFF_MAX.

(** the slots past the live range hold nothing *)
Definition tight (v : Vector) : Prop :=
  forall i, size_ v <= i -> at_ (buffer_ (data_ v)) i = None.

(** [0 <= size <= capacity] *)
Definition size_within_capacity (v : Vector) : Prop :=
  0 <= Size v <= Capacity v.

(** ** The public operations, one by one

    [perform op v w] runs [op] on the container [v] (for a constructor, [v]
    is the container it is built from) and lists the containers that exist
    afterwards. *)
Inductive operation : Type :=
| OpDefault
| OpSized (size : Z)
| OpCopy
| OpMove
| OpCopyAssign (rhs : Vector)
| OpCopyAssignSelf
| OpMoveAssign (rhs : Vector)
| OpMoveAssignSelf
| OpSwap (other : Vector)
| OpReserve (new_capacity : Z)
| OpResize (new_size : Z)
| OpPushBack (value : Args)
| OpEmplaceBack (args : Args)
| OpPopBack
| OpInsert (pos : Z) (value : Args)
| OpEmplace (pos : Z) (args : Args)
| OpErase (pos : Z).

Definition only_this {R} (o : outcome R (Vector * world))
  : outcome unit (list Vector * world) :=
  andthen o (fun s => ([s.1], s.2)) (fun _ s => Normal tt ([s.1], s.2)).

Definition perform (op : operation) (v : Vector) (w : world)
  : outcome unit (list Vector * world) :=
  match op with
  | OpDefault => Normal tt ([Vector_default; v], w)
  | OpSized size =>
      andthen (Vector_sized size w) (fun w1 => ([v], w1))
        (fun v1 w1 => Normal tt ([v1; v], w1))
  | OpCopy =>
      andthen (Vector_copy v w) (fun w1 => ([v], w1))
        (fun v1 w1 => Normal tt ([v1; v], w1))
  | OpMove =>
      let '(v1, other, w1) := Vector_move v w in Normal tt ([v1; other], w1)
  | OpCopyAssign rhs =>
      andthen (copy_assign rhs v w) (fun s => ([s.1; rhs], s.2))
        (fun _ s => Normal tt ([s.1; rhs], s.2))
  | OpCopyAssignSelf => only_this (copy_assign_self v w)
  | OpMoveAssign rhs =>
      let '(v1, rhs1, w1) := move_assign rhs v w in Normal tt ([v1; rhs1], w1)
  | OpMoveAssignSelf =>
      let (v1, w1) := move_assign_self v w in Normal tt ([v1], w1)
  | OpSwap other =>
      let (v1, other1) := Swap v other in Normal tt ([v1; other1], w)
  | OpReserve new_capacity => only_this (Reserve new_capacity v w)
  | OpResize new_size => only_this (Resize new_size v w)
  | OpPushBack value => only_this (PushBack value v w)
  | OpEmplaceBack args => only_this (EmplaceBack args v w)
  | OpPopBack => only_this (PopBack v w)
  | OpInsert pos value => only_this (Insert pos value v w)
  | OpEmplace pos args => only_this (Emplace pos args v w)
  | OpErase pos => only_this (Erase pos v w)
  end.

(** every container the call leaves behind is within the invariant *)
Definition kept (o : outcome unit (list Vector * world)) : Prop :=
  match o with
  | Normal _ (vs, _) | Thrown (vs, _) => Forall size_within_capacity vs
  | AssertFail | Undefined => True
  end.

Definition kept1 {R} (o : outcome R (Vector * world)) : Prop :=
  match o with
  | Normal _ (v', _) | Thrown (v', _) => size_within_capacity v'
  | AssertFail | Undefined => True
  end.

Definition same_fields (v' v : Vector) : Prop :=
  Size v' = Size v /\ Capacity v' = Capacity v.

(** The arguments an operation is handed are [size_t] values, and a
    container it is handed is within the invariant. *)
Definition operands_fit (op : operation) : Prop :=
  match op with
  | OpSized n | OpReserve n | OpResize n => 0 <= n <= SIZE_MAX
  | OpCopyAssign other | OpMoveAssign other | OpSwap other =>
      size_within_capacity other /\ Capacity other <= SIZE_MAX
  | _ => True
  end.

(** The operands for which the class invariant is to be kept: requests
    for a block that can exist, valid containers. *)
Definition operands_valid (op : operation) : Prop :=
  match op with
  | OpSized n | OpReserve n | OpResize n =>
      0 <= n /\ n * sizeof <= PTRDIFF_MAX
  | OpCopyAssign other | OpMoveAssign other | OpSwap other => valid other
  | _ => True
  end.

(** [Erase] alone has a contract that no [assert] of the source checks:
    the position has to be that of an element. *)
Definition in_contract (op : operation) (v : Vector) : Prop :=
  match op with
  | OpErase pos => 0 <= pos < Size v
  | _ => True
  end.

(** every container the call leaves behind is valid, and the call did not
    run into undefined behaviour *)
Definition sound (o : outcome unit (list Vector * world)) : Prop :=
  match o with
  | Normal _ (vs, _) | Thrown (vs, _) => Forall valid vs
  | AssertFail => True
  | Undefined => False
  end.

Definition sound1 {R} (o : outcome R (Vector * world)) : Prop :=
  match o with
  | Normal _ (v', _) | Thrown (v', _) => valid v'
  | AssertFail => True
  | Undefined => False
  end.

End Container.

(** ** Two element types to run the container on *)

Definition four_bytes : 1 <= 4 <= PTRDIFF_MAX :=
  conj (fun H => eq_ind Lt (fun c => if c is Lt then True else False) I Gt H)
       (fun H => eq_ind Lt (fun c => if c is Lt then True else False) I Gt H).

(** [int]: four bytes, nothing throws, a moved-from [int] keeps its
    value. *)
#[export] Instance int_element : Element Z Z unit := {|
  sizeof := 4;
  sizeof_range := four_bytes;
  make := fun a => a;
  value_init := 0;
  moved_from := fun x => x;
  nothrow_move_constructible := true;
  copy_constructible := true;
  throws := fun _ _ => false;
  next := fun _ e => e;
  nothrow_move_sound := fun _ _ _ => eq_refl
|}.

(** A class around an [int] whose copy constructor throws once the budget
    of copies in the ambient state is used up, and whose move constructor
    is not [noexcept]; nothing else throws. *)
Definition budget_throws (c : call Z Z) (budget : nat) : bool :=
  match c, budget with
  | CopyCtor _, O => true
  | _, _ => false
  end.

Definition budget_next (c : call Z Z) (budget : nat) : nat :=
  match c with
  | CopyCtor _ => Nat.pred budget
  | _ => budget
  end.

Definition budget_nothrow_move (H : false = true) (x : Z) (e : nat)
  : budget_throws (MoveCtor x) e = false :=
  eq_refl.

Definition budgeted_element : Element Z Z nat := {|
  sizeof := 4;
  sizeof_range := four_bytes;
  make := fun a => a;
  value_init := 0;
  moved_from := fun x => x;
  nothrow_move_constructible := false;
  copy_constructible := true;
  throws := budget_throws;
  next := budget_next;
  nothrow_move_sound := budget_nothrow_move
|}.

(** a container that holds exactly [xs], with no spare capacity *)
Definition filled (xs : list Z) : @Vector Z :=
  {| data_ := {| buffer_ := Some <$> xs; capacity_ := Z.of_nat (length xs) |};
     size_ := Z.of_nat (length xs) |}.

(** one element and two spare slots *)
Definition roomy : @Vector Z :=
  {| data_ := {| buffer_ := [Some 4; None; None]; capacity_ := 3 |};
     size_ := 1 |}.

Definition calm : @world Z unit := {| env := tt; leaked := [] |}.

(** ** Callers *)

Section Callers.

Context {T Args Env : Type} `{Elt : !Element T Args Env}.

(** [for (const auto& value : values) v.PushBack(value);] *)
Fixpoint push_all (values : list Args) (v : @Vector T) (w : @world T Env)
  : outcome unit (@Vector T * @world T Env) :=
  match values with
  | [] => Normal tt (v, w)
  | value :: rest =>
      andthen (PushBack value v w) id (fun _ s => push_all rest s.1 s.2)
  end.

(** a container an operation is handed has nothing past its live range *)
Definition operands_tight (op : @operation T Args) : Prop :=
  match op with
  | OpCopyAssign other | OpMoveAssign other | OpSwap other => tight other
  | _ => True
  end.

(** the operations that build a new element from arguments *)
Definition builds_element (op : @operation T Args) : bool :=
  match op with
  | OpPushBack _ | OpEmplaceBack _ | OpInsert _ _ | OpEmplace _ _ => true
  | _ => false
  end.

(** Move assignment gives up the block of its target without a look at
    what is in it; it is used as meant on a target that holds nothing. *)
Definition target_empty (op : @operation T Args) (v : @Vector T) : Prop :=
  match op with
  | OpMoveAssign _ => Size v = 0
  | _ => True
  end.

End Callers.

(** A class around an [int] with a [noexcept] move constructor, in a
    program where [operator new], value initialisation and move assignment
    throw once the budget in the ambient state is used up; nothing else
    throws. *)
Definition countdown_throws (c : call Z Z) (budget : nat) : bool :=
  match c, budget with
  | OperatorNew _, O => true
  | ValueInit, O => true
  | MoveAssign _ _, O => true
  | _, _ => false
  end.

Definition countdown_next (c : call Z Z) (budget : nat) : nat :=
  match c with
  | OperatorNew _ => Nat.pred budget
  | ValueInit => Nat.pred budget
  | MoveAssign _ _ => Nat.pred budget
  | _ => budget
  end.

Definition countdown_nothrow_move (H : true = true) (x : Z) (e : nat)
  : countdown_throws (MoveCtor x) e = false :=
  eq_refl.

Definition countdown_element : Element Z Z nat := {|
  sizeof := 4;
  sizeof_range := four_bytes;
  make := fun a => a;
  value_init := 0;
  moved_from := fun x => x;
  nothrow_move_constructible := true;
  copy_constructible := true;
  throws := countdown_throws;
  next := countdown_next;
  nothrow_move_sound := countdown_nothrow_move
|}.

(** two elements and one spare slot *)
Definition snug : @Vector Z :=
  {| data_ := {| buffer_ := [Some 4; Some 5; None]; capacity_ := 3 |};
     size_ := 2 |}.

(** * Proofs *)

(** ** Slots of a block *)

(** Case analysis on every comparison in the goal. *)
Ltac zcases :=
  repeat match goal with
  | |- context [?a <=? ?b] => destruct (Z.leb_spec a b)
  | |- context [?a <? ?b] => destruct (Z.ltb_spec a b)
  | |- context [?a =? ?b] => destruct (Z.eqb_spec a b)
  end; simpl andb; cbv iota.

(** The same, giving up a branch as soon as its comparisons contradict
    each other. *)
Ltac zprune :=
  repeat match goal with
  | |- context [?a <=? ?b] => destruct (Z.leb_spec a b); try lia
  | |- context [?a <? ?b] => destruct (Z.ltb_spec a b); try lia
  | |- context [?a =? ?b] => destruct (Z.eqb_spec a b); try lia
  end; simpl andb; cbv iota;
  rewrite ?andb_false_r, ?andb_true_r; cbv iota;
  try done; try (f_equal; lia).

Ltac zdone :=
  zcases; rewrite ?andb_false_r, ?andb_true_r; cbv iota;
  try lia; try done; try (f_equal; lia).

(** Rewrite with a known slot content, up to arithmetic on the index. *)
Ltac use_at H :=
  match type of H with
  | at_ ?b ?i = _ =>
      match goal with
      | |- context [at_ b ?k] => replace k with i by lia; rewrite H
      end
  end.

Section BufferFacts.

Context {T : Type}.
Implicit Types (b : list (option T)) (i j : Z) (s : option T).

Lemma inside_true b i : inside b i = true <-> 0 <= i < Z.of_nat (length b).
Proof. unfold inside. rewrite andb_true_iff, Z.leb_le, Z.ltb_lt. tauto. Qed.

Lemma inside_false b i :
  inside b i = false <-> i < 0 \/ Z.of_nat (length b) <= i.
Proof.
  unfold inside. rewrite andb_false_iff, Z.leb_gt, Z.ltb_ge. tauto.
Qed.

Lemma length_store b i s : length (store b i s) = length b.
Proof. unfold store. destruct (0 <=? i); [apply length_insert | done]. Qed.

Lemma inside_store b i j s : inside (store b i s) j = inside b j.
Proof. unfold inside. by rewrite length_store. Qed.

Lemma at_outside b i : inside b i = false -> at_ b i = None.
Proof.
  rewrite inside_false. unfold at_. intros Hi.
  destruct (Z.leb_spec 0 i); [|done].
  rewrite lookup_ge_None_2; [done | lia].
Qed.

Lemma at_neg b i : i < 0 -> at_ b i = None.
Proof. intros Hi. apply at_outside, inside_false. lia. Qed.

Lemma at_is_Some_inside b i : is_Some (at_ b i) -> 0 <= i < Z.of_nat (length b).
Proof.
  intros [x Hx]. apply inside_true.
  destruct (inside b i) eqn:E; [done|]. rewrite at_outside in Hx; done.
Qed.

Lemma at_store_eq b i s : inside b i = true -> at_ (store b i s) i = s.
Proof.
  rewrite inside_true. intros Hi. unfold at_, store.
  destruct (Z.leb_spec 0 i); [|lia].
  rewrite list_lookup_insert_eq; [done | lia].
Qed.

Lemma at_store_ne b i j s : i <> j -> at_ (store b i s) j = at_ b j.
Proof.
  intros Hne. unfold at_, store.
  destruct (Z.leb_spec 0 j); [|done].
  destruct (Z.leb_spec 0 i); [|done].
  rewrite list_lookup_insert_ne; [done | lia].
Qed.

Lemma at_store b i j s :
  at_ (store b i s) j = if (i =? j) && inside b i then s else at_ b j.
Proof.
  destruct (Z.eqb_spec i j) as [->|Hne]; simpl.
  - destruct (inside b j) eqn:E; [by apply at_store_eq|].
    rewrite (at_outside b j E). apply at_outside.
    rewrite inside_false in *. by rewrite length_store.
  - by apply at_store_ne.
Qed.

Lemma buffer_eq b b' :
  length b = length b' ->
  (forall i, 0 <= i < Z.of_nat (length b) -> at_ b i = at_ b' i) ->
  b = b'.
Proof.
  intros Hlen Hat. apply list_eq. intros n.
  destruct (decide (n < length b)%nat) as [Hn|Hn].
  - specialize (Hat (Z.of_nat n) ltac:(lia)). unfold at_ in Hat.
    destruct (Z.leb_spec 0 (Z.of_nat n)); [|lia].
    rewrite Nat2Z.id in Hat.
    destruct (lookup_lt_is_Some_2 b n Hn) as [x Hx].
    destruct (lookup_lt_is_Some_2 b' n ltac:(lia)) as [y Hy].
    rewrite Hx, Hy in *. simpl in Hat. by subst.
  - rewrite !lookup_ge_None_2; [done | lia | lia].
Qed.

Lemma at_replicate_None (n : nat) i : at_ (replicate n (@None T)) i = None.
Proof.
  unfold at_. destruct (0 <=? i); [|done].
  destruct (replicate n None !! Z.to_nat i) eqn:E; [|done].
  apply lookup_replicate_1 in E as [-> _]. done.
Qed.

Lemma length_destroy_n b first n : length (destroy_n b first n) = length b.
Proof.
  revert b first. induction n as [|n IH]; intros b first; simpl; [done|].
  by rewrite IH, length_store.
Qed.

Lemma at_destroy_n b first n j :
  at_ (destroy_n b first n) j =
  if (first <=? j) && (j <? first + Z.of_nat n) then None else at_ b j.
Proof.
  revert b first. induction n as [|n IH]; intros b first; simpl destroy_n.
  - zcases; (done || lia).
  - rewrite IH, at_store. zcases; try done; try lia.
    destruct (inside b first) eqn:E; [done|]. subst. by rewrite at_outside.
Qed.

End BufferFacts.

(** ** The library algorithms *)

Section AlgorithmFacts.

Context {T Args Env : Type} `{Elt : !Element T Args Env}.
Implicit Types (b src dst : list (option T)) (i j : Z) (w : @world T Env).

Lemma store_store_None dst d x :
  at_ dst d = None -> store (store dst d (Some x)) d None = dst.
Proof.
  intros Hd. apply buffer_eq; [by rewrite !length_store|].
  intros i _. rewrite !at_store, inside_store. zcases; [|done]. subst.
  destruct (inside dst i); simpl; congruence.
Qed.

Lemma place_inside b i x w :
  0 <= i < Z.of_nat (length b) ->
  place b i x w = Normal tt (store b i (Some x), leak (option_list (at_ b i)) w).
Proof. intros Hi. unfold place. by rewrite (proj2 (inside_true b i) Hi). Qed.

Lemma transfer_spec mv n : forall src first dst d w,
  (forall i, 0 <= i < Z.of_nat n -> is_Some (at_ src (first + i))) ->
  0 <= d -> d + Z.of_nat n <= Z.of_nat (length dst) ->
  match uninitialized_transfer mv src first n dst d w with
  | Normal _ (src', dst', w') =>
      length src' = length src /\ length dst' = length dst /\
      (forall j, at_ dst' j =
         if (d <=? j) && (j <? d + Z.of_nat n)
         then at_ src (first + (j - d)) else at_ dst j) /\
      (forall j, at_ src' j =
         if mv && ((first <=? j) && (j <? first + Z.of_nat n))
         then moved_from <$> at_ src j else at_ src j) /\
      ((forall j, d <= j < d + Z.of_nat n -> at_ dst j = None) ->
       leaked w' = leaked w)
  | Thrown (src', dst', w') =>
      ~ quiet /\
      length src' = length src /\ length dst' = length dst /\
      (forall j, ~ (d <= j < d + Z.of_nat n) -> at_ dst' j = at_ dst j) /\
      (forall j, is_Some (at_ src' j) <-> is_Some (at_ src j)) /\
      (mv = false -> src' = src) /\
      (mv = true -> nothrow_move_constructible = false) /\
      ((forall j, d <= j < d + Z.of_nat n -> at_ dst j = None) ->
       dst' = dst /\ leaked w' = leaked w)
  | AssertFail | Undefined => False
  end.
Proof.
  induction n as [|n IH]; intros src first dst d w Hsrc Hd Hlen.
  - simpl. repeat split; try done.
    + intros j. zcases; (done || lia).
    + intros j. destruct mv; simpl; [|done]. zcases; (done || lia).
  - cbn [uninitialized_transfer].
    destruct (Hsrc 0 ltac:(lia)) as [x Hx]. rewrite Z.add_0_r in Hx. rewrite Hx.
    unfold ask. set (c := if mv then MoveCtor x else CopyCtor x).
    destruct (throws c (env w)) eqn:Et.
    { repeat split; try done.
      - intros Hq. by rewrite Hq in Et.
      - intros ->. destruct nothrow_move_constructible eqn:En; [|done].
        subst c. by rewrite nothrow_move_sound in Et. }
    rewrite place_inside by lia.
    set (src1 := if mv then store src first (Some (moved_from x)) else src).
    set (dst1 := store dst d (Some x)).
    set (w2 := leak _ _).
    assert (Hsrc1 : forall j, at_ src1 j =
              if mv && (first =? j) then Some (moved_from x) else at_ src j).
    { intros j. subst src1. destruct mv; simpl; [|done].
      rewrite at_store. destruct (Z.eqb_spec first j) as [->|]; simpl; [|done].
      destruct (inside src j) eqn:E; [done|]. rewrite at_outside in Hx; done. }
    assert (Hlen1 : length src1 = length src).
    { subst src1. destruct mv; [apply length_store | done]. }
    assert (Hpre : forall i, 0 <= i < Z.of_nat n ->
                    is_Some (at_ src1 (first + 1 + i))).
    { intros i Hi. rewrite Hsrc1.
      replace (first + 1 + i) with (first + (i + 1)) by lia.
      destruct mv; simpl; [|apply Hsrc; lia]. zcases; [lia|apply Hsrc; lia]. }
    assert (Hfit : d + 1 + Z.of_nat n <= Z.of_nat (length dst1))
      by (subst dst1; rewrite length_store; lia).
    assert (IH' := IH src1 (first + 1) dst1 (d + 1) w2 Hpre ltac:(lia) Hfit).
    clear IH.
    destruct (uninitialized_transfer mv src1 (first + 1) n dst1 (d + 1) w2)
      as [[] [[src' dst'] w'] | [[src' dst'] w'] | |]; try done.
    + destruct IH' as (L1 & L2 & Hdst & Hsrc' & Hleak).
      split; [congruence|]. split; [subst dst1; rewrite length_store in L2; done|].
      split; [|split].
      * intros j. rewrite Hdst. subst dst1. rewrite at_store, Hsrc1.
        rewrite (proj2 (inside_true dst d)) by lia.
        zdone. subst. rewrite <- Hx. f_equal. lia.
      * intros j. rewrite Hsrc', Hsrc1. destruct mv; simpl; [|done].
        zdone. subst. by rewrite Hx.
      * intros Hnone. rewrite Hleak.
        -- subst w2. rewrite Hnone by lia. simpl. apply app_nil_r.
        -- intros j Hj. subst dst1. rewrite at_store_ne by lia. apply Hnone. lia.
    + destruct IH' as (Hq & L1 & L2 & Hdst & Hsome & Hcopy & Hmove & Hsame).
      split; [done|]. split; [congruence|].
      split; [subst dst1; rewrite length_store in *; done|].
      split; [|split; [|split; [|split]]].
      * intros j Hj. rewrite at_store_ne by lia. rewrite Hdst by lia.
        subst dst1. apply at_store_ne. lia.
      * intros j. rewrite Hsome, Hsrc1. destruct mv; simpl; [|done].
        zcases; [|done]. subst. rewrite Hx. split; eauto.
      * intros ->. rewrite (Hcopy eq_refl). done.
      * done.
      * intros Hnone. destruct Hsame as [-> ->].
        { intros j Hj. subst dst1. rewrite at_store_ne by lia. apply Hnone. lia. }
        subst dst1 w2. rewrite store_store_None by (apply Hnone; lia).
        rewrite Hnone by lia. simpl. by rewrite app_nil_r.
Qed.


(** What an exception out of the transfer leaves, whatever the size of
    the destination block. *)
Lemma transfer_thrown mv n : forall src first dst d w,
  match uninitialized_transfer mv src first n dst d w with
  | Thrown (src', dst', w') =>
      ~ quiet /\ length src' = length src /\
      (forall j, is_Some (at_ src' j) <-> is_Some (at_ src j)) /\
      (mv = false -> src' = src) /\
      (mv = true -> nothrow_move_constructible = false) /\
      ((forall j, d <= j < d + Z.of_nat n -> at_ dst j = None) ->
       dst' = dst /\ leaked w' = leaked w)
  | _ => True
  end.
Proof.
  induction n as [|n IH]; intros src first dst d w; [done|].
  cbn [uninitialized_transfer].
  destruct (at_ src first) as [x|] eqn:Hx; [|done].
  unfold ask. set (c := if mv then MoveCtor x else CopyCtor x).
  destruct (throws c (env w)) eqn:Et.
  { repeat split; try done.
    - intros Hq. by rewrite Hq in Et.
    - intros ->. destruct nothrow_move_constructible eqn:En; [|done].
      subst c. by rewrite nothrow_move_sound in Et. }
  unfold place. destruct (inside dst d) eqn:Hin; [|done].
  apply inside_true in Hin.
  set (src1 := if mv then store src first (Some (moved_from x)) else src).
  set (dst1 := store dst d (Some x)).
  set (w2 := leak _ _).
  assert (Hsrc1 : forall j, at_ src1 j =
            if mv && (first =? j) then Some (moved_from x) else at_ src j).
  { intros j. subst src1. destruct mv; simpl; [|done].
    rewrite at_store. destruct (Z.eqb_spec first j) as [->|]; simpl; [|done].
    destruct (inside src j) eqn:E; [done|]. rewrite at_outside in Hx; done. }
  assert (Hlen1 : length src1 = length src).
  { subst src1. destruct mv; [apply length_store | done]. }
  assert (IH' := IH src1 (first + 1) dst1 (d + 1) w2). clear IH.
  destruct (uninitialized_transfer mv src1 (first + 1) n dst1 (d + 1) w2)
    as [[] [[src' dst'] w'] | [[src' dst'] w'] | |]; try done.
  destruct IH' as (Hq & L1 & Hsome & Hcopy & Hmove & Hsame).
  split; [done|]. split; [congruence|].
  split; [|split; [|split; [|]]].
  - intros j. rewrite Hsome, Hsrc1. destruct mv; simpl; [|done].
    zcases; [|done]. subst. rewrite Hx. split; eauto.
  - intros ->. rewrite (Hcopy eq_refl). done.
  - done.
  - intros Hnone. destruct Hsame as [-> ->].
    { intros j Hj. subst dst1. rewrite at_store_ne by lia. apply Hnone. lia. }
    subst dst1 w2. rewrite store_store_None by (apply Hnone; lia).
    rewrite Hnone by lia. simpl. by rewrite app_nil_r.
Qed.

Lemma value_construct_spec n : forall b first w,
  0 <= first -> first + Z.of_nat n <= Z.of_nat (length b) ->
  match uninitialized_value_construct_n b first n w with
  | Normal _ (b', w') =>
      length b' = length b /\
      (forall j, at_ b' j =
         if (first <=? j) && (j <? first + Z.of_nat n)
         then Some value_init else at_ b j) /\
      ((forall j, first <= j < first + Z.of_nat n -> at_ b j = None) ->
       leaked w' = leaked w)
  | Thrown (b', w') =>
      ~ quiet /\ length b' = length b /\
      (forall j, ~ (first <= j < first + Z.of_nat n) -> at_ b' j = at_ b j) /\
      ((forall j, first <= j < first + Z.of_nat n -> at_ b j = None) ->
       b' = b /\ leaked w' = leaked w)
  | AssertFail | Undefined => False
  end.
Proof.
  induction n as [|n IH]; intros b first w Hf Hlen.
  - simpl. repeat split; try done. intros j. zdone.
  - cbn [uninitialized_value_construct_n]. unfold ask.
    destruct (throws ValueInit (env w)) eqn:Et.
    { repeat split; try done. intros Hq. by rewrite Hq in Et. }
    rewrite place_inside by lia.
    set (b1 := store b first (Some value_init)). set (w2 := leak _ _).
    assert (IH' := IH b1 (first + 1) w2 ltac:(lia)
                     ltac:(subst b1; rewrite length_store; lia)).
    clear IH.
    destruct (uninitialized_value_construct_n b1 (first + 1) n w2)
      as [[] [b' w'] | [b' w'] | |]; try done.
    + destruct IH' as (L & Hat & Hleak).
      split; [subst b1; by rewrite length_store in L|]. split.
      * intros j. rewrite Hat. subst b1. rewrite at_store.
        rewrite (proj2 (inside_true b first)) by lia. zdone.
      * intros Hnone. rewrite Hleak.
        -- subst w2. rewrite Hnone by lia. simpl. apply app_nil_r.
        -- intros j Hj. subst b1. rewrite at_store_ne by lia. apply Hnone. lia.
    + destruct IH' as (Hq & L & Hat & Hsame).
      split; [done|]. split; [subst b1; by rewrite !length_store in *|]. split.
      * intros j Hj. rewrite at_store_ne by lia. rewrite Hat by lia.
        subst b1. apply at_store_ne. lia.
      * intros Hnone. destruct Hsame as [-> ->].
        { intros j Hj. subst b1. rewrite at_store_ne by lia. apply Hnone. lia. }
        subst b1 w2. rewrite store_store_None by (apply Hnone; lia).
        rewrite Hnone by lia. simpl. by rewrite app_nil_r.
Qed.

(** [std::move] of [n] objects one slot to the left *)
Lemma move_n_left_spec n : forall b first w,
  (forall j, first - 1 <= j < first + Z.of_nat n -> is_Some (at_ b j)) ->
  match move_n b first n (first - 1) w with
  | Normal _ (b', w') =>
      length b' = length b /\ leaked w' = leaked w /\
      (forall j, at_ b' j =
         if (first - 1 <=? j) && (j <? first - 1 + Z.of_nat n)
         then at_ b (j + 1)
         else if (j =? first - 1 + Z.of_nat n) && (0 <? Z.of_nat n)
              then moved_from <$> at_ b j else at_ b j)
  | Thrown (b', w') =>
      ~ quiet /\ length b' = length b /\ leaked w' = leaked w /\
      (forall j, is_Some (at_ b' j) <-> is_Some (at_ b j))
  | AssertFail | Undefined => False
  end.
Proof.
  induction n as [|n IH]; intros b first w Hlive.
  - simpl. repeat split; try done. intros j. zdone.
  - cbn [move_n].
    destruct (Hlive first ltac:(lia)) as [x Hx].
    destruct (Hlive (first - 1) ltac:(lia)) as [y Hy].
    rewrite Hx, Hy. unfold ask.
    destruct (throws (MoveAssign y x) (env w)) eqn:Et.
    { repeat split; try done. intros Hq. by rewrite Hq in Et. }
    set (b1 := store (store b first (Some (moved_from x))) (first - 1) (Some x)).
    set (w1 := Build_world _ _).
    assert (Hin1 : inside b first = true)
      by (apply inside_true, at_is_Some_inside; eauto).
    assert (Hin2 : inside b (first - 1) = true)
      by (apply inside_true, at_is_Some_inside; eauto).
    assert (Hb1 : forall j, at_ b1 j =
              if j =? first - 1 then Some x
              else if j =? first then Some (moved_from x) else at_ b j).
    { intros j. subst b1. rewrite !at_store, inside_store, Hin1, Hin2. zdone. }
    assert (IH' := IH b1 (first + 1) w1). clear IH.
    replace (first + 1 - 1) with first in IH' by lia.
    assert (Hpre : forall j, first <= j < first + 1 + Z.of_nat n ->
                    is_Some (at_ b1 j)).
    { intros j Hj. rewrite Hb1. zcases; eauto. apply Hlive. lia. }
    specialize (IH' Hpre).
    replace (first - 1 + 1) with first by lia.
    destruct (move_n b1 (first + 1) n first w1)
      as [[] [b' w'] | [b' w'] | |]; try done.
    + destruct IH' as (L & Hleak & Hat).
      split; [subst b1; by rewrite !length_store in L|]. split; [done|].
      intros j. rewrite Hat, !Hb1. zprune; by use_at Hx.
    + destruct IH' as (Hq & L & Hleak & Hat).
      split; [done|]. split; [subst b1; by rewrite !length_store in L|].
      split; [done|]. intros j. rewrite Hat, Hb1. zcases; subst; [| |done].
      * rewrite Hy. split; eauto.
      * rewrite Hx. split; eauto.
Qed.

(** [std::move_backward] of [n] objects one slot to the right *)
Lemma move_backward_right_spec n : forall b last w,
  (forall j, last - Z.of_nat n <= j <= last -> is_Some (at_ b j)) ->
  match move_backward_n b last n (last + 1) w with
  | Normal _ (b', w') =>
      length b' = length b /\ leaked w' = leaked w /\
      (forall j, at_ b' j =
         if (last - Z.of_nat n <? j) && (j <=? last)
         then at_ b (j - 1)
         else if (j =? last - Z.of_nat n) && (0 <? Z.of_nat n)
              then moved_from <$> at_ b j else at_ b j)
  | Thrown (b', w') =>
      ~ quiet /\ length b' = length b /\ leaked w' = leaked w /\
      (forall j, is_Some (at_ b' j) <-> is_Some (at_ b j))
  | AssertFail | Undefined => False
  end.
Proof.
  induction n as [|n IH]; intros b last w Hlive.
  - simpl. repeat split; try done. intros j. zdone.
  - cbn [move_backward_n].
    replace (last + 1 - 1) with last by lia.
    destruct (Hlive (last - 1) ltac:(lia)) as [x Hx].
    destruct (Hlive last ltac:(lia)) as [y Hy].
    rewrite Hx, Hy. unfold ask.
    destruct (throws (MoveAssign y x) (env w)) eqn:Et.
    { repeat split; try done. intros Hq. by rewrite Hq in Et. }
    set (b1 := store (store b (last - 1) (Some (moved_from x))) last (Some x)).
    set (w1 := Build_world _ _).
    assert (Hin1 : inside b (last - 1) = true)
      by (apply inside_true, at_is_Some_inside; eauto).
    assert (Hin2 : inside b last = true)
      by (apply inside_true, at_is_Some_inside; eauto).
    assert (Hb1 : forall j, at_ b1 j =
              if j =? last then Some x
              else if j =? last - 1 then Some (moved_from x) else at_ b j).
    { intros j. subst b1. rewrite !at_store, inside_store, Hin1, Hin2. zdone. }
    assert (IH' := IH b1 (last - 1) w1). clear IH.
    replace (last - 1 + 1) with last in IH' by lia.
    assert (Hpre : forall j, last - 1 - Z.of_nat n <= j <= last - 1 ->
                    is_Some (at_ b1 j)).
    { intros j Hj. rewrite Hb1. zcases; eauto. apply Hlive. lia. }
    specialize (IH' Hpre).
    destruct (move_backward_n b1 (last - 1) n last w1)
      as [[] [b' w'] | [b' w'] | |]; try done.
    + destruct IH' as (L & Hleak & Hat).
      split; [subst b1; by rewrite !length_store in L|]. split; [done|].
      intros j. rewrite Hat, !Hb1. zprune; by use_at Hx.
    + destruct IH' as (Hq & L & Hleak & Hat).
      split; [done|]. split; [subst b1; by rewrite !length_store in L|].
      split; [done|]. intros j. rewrite Hat, Hb1. zcases; subst; [| |done].
      * rewrite Hy. split; eauto.
      * rewrite Hx. split; eauto.
Qed.

Lemma transfer_n_choice (mv : bool) src (first : Z) (n : nat) dst (d : Z) w :
  (if mv then uninitialized_move_n else uninitialized_copy_n)
    src first n dst d w =
  uninitialized_transfer mv src first n dst d w.
Proof. by destruct mv. Qed.

Lemma transfer_range_choice (mv : bool) src (first last : Z) dst (d : Z) w :
  (if mv then uninitialized_move else uninitialized_copy)
    src first last dst d w =
  uninitialized_transfer mv src first (Z.to_nat (last - first)) dst d w.
Proof. by destruct mv. Qed.

End AlgorithmFacts.

(** ** Growth and removal *)

Section OperationFacts.

Context {T Args Env : Type} `{Elt : !Element T Args Env}.
Implicit Types (b src dst : list (option T)) (i j : Z) (w : @world T Env)
  (v : @Vector T) (m : @RawMemory T).

Lemma wrap_small z : 0 <= z <= SIZE_MAX -> wrap z = z.
Proof. unfold wrap, SIZE_MAX. intros Hz. apply Z.mod_small. lia. Qed.

Lemma set_buffer_same v : set_buffer v (buffer_ (data_ v)) = v.
Proof. by destruct v as [[] ?]. Qed.

Lemma set_raw_same m : set_raw m (buffer_ m) = m.
Proof. by destruct m. Qed.

Lemma live_None b : (forall j, at_ b j = None) -> live b = [].
Proof.
  intros Hb. assert (Heq : b = replicate (length b) None).
  { apply buffer_eq; [by rewrite length_replicate|].
    intros i _. by rewrite Hb, at_replicate_None. }
  rewrite Heq. clear. induction (length b); [done|]. done.
Qed.

Lemma sizeof_pos : 0 < sizeof.
Proof. pose proof sizeof_range. lia. Qed.

(** a count of objects is no more than the bytes they take *)
Lemma count_le_bytes n bound : 0 <= n -> n * sizeof <= bound -> n <= bound.
Proof. pose proof sizeof_pos. nia. Qed.

Lemma bytes_mono n k bound :
  0 <= n <= k -> k * sizeof <= bound -> n * sizeof <= bound.
Proof. pose proof sizeof_pos. nia. Qed.

(** twice the bytes of a block that exists are within [size_t] *)
Lemma doubling_fits c :
  0 <= c -> c * sizeof <= PTRDIFF_MAX ->
  Z.max 1 (c * 2) * sizeof <= SIZE_MAX.
Proof.
  pose proof sizeof_range. unfold PTRDIFF_MAX, SIZE_MAX in *. intros Hc Hb.
  destruct (Z.max_spec 1 (c * 2)) as [[_ ->]|[_ ->]]; nia.
Qed.

(** the block of a valid container can be doubled within [size_t] *)
Lemma valid_doubling v :
  valid v -> Z.max 1 (Capacity v * 2) * sizeof <= SIZE_MAX.
Proof.
  intros [(Hs & _) Hb]. apply doubling_fits; [lia | done].
Qed.

Lemma valid_size_bytes v : valid v -> size_ v * sizeof <= PTRDIFF_MAX.
Proof.
  intros [(Hs & _) Hb]. apply (bytes_mono _ (Capacity v)); [lia | done].
Qed.

Lemma PTRDIFF_MAX_le_SIZE_MAX : PTRDIFF_MAX <= SIZE_MAX.
Proof. unfold PTRDIFF_MAX, SIZE_MAX. lia. Qed.

Lemma valid_intro v :
  well_formed v -> Capacity v * sizeof <= PTRDIFF_MAX -> valid v.
Proof. by split. Qed.

Lemma valid_capacity v v' :
  valid v -> well_formed v' -> Capacity v' = Capacity v -> valid v'.
Proof. intros [_ Hb] Hv' Hc. split; [done|]. by rewrite Hc. Qed.

Lemma valid_capacity_size v v' :
  valid v -> well_formed v' -> Capacity v' = Size v -> valid v'.
Proof.
  intros Hv Hv' Hc. split; [done|]. rewrite Hc. by apply valid_size_bytes.
Qed.

(** a doubled block that can exist *)
Lemma grown_bytes c :
  0 <= c -> c * 2 * sizeof <= PTRDIFF_MAX ->
  Z.max 1 (c * 2) * sizeof <= PTRDIFF_MAX.
Proof.
  pose proof sizeof_range. intros Hc Hb.
  destruct (Z.max_spec 1 (c * 2)) as [[_ ->]|[_ ->]]; lia.
Qed.

(** a container grown as [EmplaceBack] and [Emplace] grow it is valid when
    the doubled block is one that can exist *)
Lemma valid_grown v v' :
  valid v -> well_formed v' -> Size v * 2 * sizeof <= PTRDIFF_MAX ->
  Capacity v' =
    (if Size v <? Capacity v then Capacity v
     else Z.max 1 (Capacity v * 2)) ->
  valid v'.
Proof.
  intros [Hv Hb] Hv' Hd Hc. apply valid_intro; [done|]. rewrite Hc.
  destruct Hv as (Hs & _). unfold Size in *.
  destruct (Z.ltb_spec (size_ v) (Capacity v)); [done|].
  replace (Capacity v) with (size_ v) by lia. apply grown_bytes; [lia|done].
Qed.

(** [Allocate] where the product needs no reduction: a block of [n]
    slots. *)
Lemma Allocate_spec n w :
  0 <= n -> n * sizeof <= SIZE_MAX ->
  match Allocate n w with
  | Normal b w' => b = replicate (Z.to_nat n) None /\ leaked w' = leaked w
  | Thrown w' => ~ quiet /\ leaked w' = leaked w
  | AssertFail | Undefined => False
  end.
Proof.
  intros Hn Hb. unfold Allocate. destruct (Z.eqb_spec n 0) as [->|]; [done|].
  pose proof sizeof_pos.
  rewrite wrap_small by nia. rewrite Z.div_mul by lia.
  unfold ask. destruct (throws _ _) eqn:Et; [|done].
  split; [|done]. intros Hq. by rewrite Hq in Et.
Qed.

(** [Allocate] whatever the product: a block that holds no object. *)
Lemma Allocate_any n w :
  match Allocate n w with
  | Normal b w' => (forall j, at_ b j = None) /\ leaked w' = leaked w
  | Thrown w' => ~ quiet /\ leaked w' = leaked w
  | AssertFail | Undefined => False
  end.
Proof.
  unfold Allocate. destruct (Z.eqb_spec n 0) as [->|].
  { split; [|done]. intros j. apply (at_replicate_None 0). }
  unfold ask. destruct (throws _ _) eqn:Et.
  - split; [|done]. intros Hq. by rewrite Hq in Et.
  - split; [|done]. intros j. apply at_replicate_None.
Qed.

Lemma well_formed_live v i :
  well_formed v -> 0 <= i < size_ v -> is_Some (at_ (buffer_ (data_ v)) i).
Proof. intros (_ & _ & _ & H). apply H. Qed.

Lemma well_formed_set_buffer v b :
  well_formed v -> length b = length (buffer_ (data_ v)) ->
  (forall j, 0 <= j < size_ v -> is_Some (at_ b j)) ->
  well_formed (set_buffer v b).
Proof.
  intros (Hs & Hc & Hm & Hl) Hlen Hb. unfold well_formed, Capacity in *. simpl.
  split_and!; try done; try lia; by rewrite Hlen.
Qed.

Lemma CopyOrMoveData_spec new_data v w :
  well_formed v -> size_ v <= Z.of_nat (length (buffer_ new_data)) ->
  match CopyOrMoveData new_data v w with
  | Normal _ (v', nd, w') =>
      size_ v' = size_ v /\ Capacity v' = capacity_ new_data /\
      length (buffer_ (data_ v')) = length (buffer_ new_data) /\
      (forall j, at_ (buffer_ (data_ v')) j =
         if (0 <=? j) && (j <? size_ v)
         then at_ (buffer_ (data_ v)) j else at_ (buffer_ new_data) j) /\
      (forall j, at_ (buffer_ nd) j =
         if (0 <=? j) && (j <? size_ v)
         then None else at_ (buffer_ (data_ v)) j) /\
      ((forall j, 0 <= j < size_ v -> at_ (buffer_ new_data) j = None) ->
       leaked w' = leaked w)
  | Thrown (v', nd, w') =>
      ~ quiet /\ well_formed v' /\ size_ v' = size_ v /\ Capacity v' = Capacity v /\
      (copy_constructible = true -> v' = v) /\
      ((forall j, 0 <= j < size_ v -> at_ (buffer_ new_data) j = None) ->
       nd = new_data /\ leaked w' = leaked w)
  | AssertFail | Undefined => False
  end.
Proof.
  intros Hv Hfit. unfold CopyOrMoveData. rewrite transfer_n_choice.
  assert (Hs : 0 <= size_ v) by (destruct Hv as ((? & ?) & _); lia).
  pose proof (transfer_spec moves_elements (Z.to_nat (size_ v))
                (buffer_ (data_ v)) 0 (buffer_ new_data) 0 w) as H.
  rewrite Z2Nat.id in H by done.
  specialize (H (fun i Hi => well_formed_live v (0 + i) Hv ltac:(lia)) ltac:(lia) ltac:(lia)).
  destruct (uninitialized_transfer _ _ _ _ _ _ _)
    as [[] [[src dst] w'] | [[src dst] w'] | |]; simpl; try done.
  - destruct H as (L1 & L2 & Hdst & Hsrc & Hleak). unfold Capacity. simpl.
    repeat split; try done.
    + intros j. rewrite Hdst. zdone.
    + intros j. rewrite at_destroy_n, Z2Nat.id by done. simpl.
      rewrite Hsrc. zdone.
  - destruct H as (Hq & L1 & L2 & Hdst & Hsome & Hcopy & Hmove & Hsame).
    split_and!; try done.
    + apply well_formed_set_buffer; [done..|].
      intros j Hj. apply Hsome. by apply well_formed_live.
    + intros Hc. unfold moves_elements in *. rewrite Hc in *.
      destruct nothrow_move_constructible eqn:En; simpl in *.
      * by specialize (Hmove eq_refl).
      * rewrite (Hcopy eq_refl). apply set_buffer_same.
    + intros Hnone. destruct (Hsame Hnone) as [-> ->].
      split; [apply set_raw_same | done].
Qed.

Lemma leaked_destroy_None m w :
  (forall j, at_ (buffer_ m) j = None) ->
  leaked (RawMemory_destroy m w) = leaked w.
Proof.
  intros Hb. unfold RawMemory_destroy, Deallocate, leak. simpl.
  by rewrite (live_None _ Hb), app_nil_r.
Qed.

Lemma Reserve_grow new_capacity v w :
  well_formed v -> Capacity v < new_capacity ->
  new_capacity * sizeof <= SIZE_MAX ->
  match Reserve new_capacity v w with
  | Normal _ (v', w') =>
      well_formed v' /\ tight v' /\
      Capacity v' = new_capacity /\ Size v' = Size v /\
      (forall i, 0 <= i < Size v ->
         at_ (buffer_ (data_ v')) i = at_ (buffer_ (data_ v)) i) /\
      (tight v -> leaked w' = leaked w)
  | Thrown (v', w') =>
      ~ quiet /\ well_formed v' /\ Size v' = Size v /\ Capacity v' = Capacity v /\
      (copy_constructible = true -> v' = v) /\ leaked w' = leaked w
  | AssertFail | Undefined => False
  end.
Proof.
  intros Hv Hn Hb. unfold Reserve, Size.
  assert (Hv' := Hv). destruct Hv' as (Hs & Hc & Hm & Hl).
  assert (Hmax : new_capacity <= SIZE_MAX)
    by (apply count_le_bytes; [lia | done]).
  unfold Capacity in *. destruct (Z.leb_spec new_capacity (capacity_ (data_ v))); [lia|].
  unfold RawMemory_new.
  pose proof (Allocate_spec new_capacity w ltac:(lia) Hb) as HA.
  destruct (Allocate new_capacity w) as [b w1 | w1 | |];
    cbn [andthen id]; try done.
  2:{ destruct HA as [Hq HA]. by split_and!. }
  destruct HA as [-> HA].
  set (nd := {| buffer_ := _; capacity_ := new_capacity |}).
  pose proof (CopyOrMoveData_spec nd v w1 Hv) as HC.
  assert (Hnd : forall j, at_ (buffer_ nd) j = None)
    by (intros j; apply at_replicate_None).
  specialize (HC ltac:(simpl; rewrite length_replicate; lia)).
  destruct (CopyOrMoveData nd v w1)
    as [[] [[v' nd'] w'] | [[v' nd'] w'] | |]; cbn [andthen]; try done.
  - destruct HC as (Hsz & Hcap & Hlen & Hat & Hold & Hleak).
    simpl in Hcap, Hlen. rewrite length_replicate in Hlen.
    split_and!; try done.
    + unfold well_formed, Capacity in *. rewrite Hsz, Hlen.
      split_and!; try lia.
      intros i Hi. rewrite Hat. zdone. by apply Hl.
    + intros i Hi. rewrite Hsz in Hi. rewrite Hat, Hnd. zdone.
    + intros i Hi. rewrite Hat. zdone.
    + intros Ht. rewrite leaked_destroy_None; [rewrite Hleak; [done | auto]|].
      intros j. rewrite Hold. zdone; first [by apply at_neg | apply Ht; lia].
  - destruct HC as (Hq & Hv1 & Hsz & Hcap & Hcopy & Hsame).
    destruct (Hsame (fun j _ => Hnd j)) as [-> Hleak].
    split_and!; try done.
    rewrite leaked_destroy_None; [congruence | done].
Qed.

(** What an exception out of [CopyOrMoveData] leaves, whatever the size
    of the new block. *)
Lemma CopyOrMoveData_thrown new_data v w :
  well_formed v ->
  match CopyOrMoveData new_data v w with
  | Thrown (v', nd, w') =>
      ~ quiet /\ well_formed v' /\
      size_ v' = size_ v /\ Capacity v' = Capacity v /\
      (copy_constructible = true -> v' = v) /\
      nothrow_move_constructible = false /\
      ((forall j, 0 <= j < size_ v -> at_ (buffer_ new_data) j = None) ->
       nd = new_data /\ leaked w' = leaked w)
  | _ => True
  end.
Proof.
  intros Hv. unfold CopyOrMoveData. rewrite transfer_n_choice.
  assert (Hs : 0 <= size_ v) by (destruct Hv as ((? & ?) & _); lia).
  pose proof (transfer_thrown moves_elements (Z.to_nat (size_ v))
                (buffer_ (data_ v)) 0 (buffer_ new_data) 0 w) as H.
  rewrite Z2Nat.id in H by done.
  destruct (uninitialized_transfer _ _ _ _ _ _ _)
    as [[] [[src dst] w'] | [[src dst] w'] | |]; simpl; try done.
  destruct H as (Hq & L1 & Hsome & Hcopy & Hmove & Hsame).
  split_and!; try done.
  - apply well_formed_set_buffer; [done..|].
    intros j Hj. apply Hsome. by apply well_formed_live.
  - intros Hc. unfold moves_elements in *. rewrite Hc in *.
    destruct nothrow_move_constructible eqn:En; simpl in *.
    + by specialize (Hmove eq_refl).
    + rewrite (Hcopy eq_refl). apply set_buffer_same.
  - unfold moves_elements in *.
    destruct nothrow_move_constructible eqn:En; simpl in *; [|done].
    by specialize (Hmove eq_refl).
  - intros Hnone. destruct (Hsame Hnone) as [-> ->].
    split; [apply set_raw_same | done].
Qed.

(** What an exception out of [Reserve] leaves, whatever [new_capacity]. *)
Lemma Reserve_thrown new_capacity v w :
  well_formed v ->
  match Reserve new_capacity v w with
  | Thrown (v', w') =>
      ~ quiet /\ well_formed v' /\
      Size v' = Size v /\ Capacity v' = Capacity v /\
      (copy_constructible = true -> v' = v) /\
      (nothrow_move_constructible = true -> v' = v) /\
      leaked w' = leaked w
  | _ => True
  end.
Proof.
  intros Hv. unfold Reserve, Size.
  destruct (new_capacity <=? capacity_ (data_ v)); [done|].
  unfold RawMemory_new.
  pose proof (Allocate_any new_capacity w) as HA.
  destruct (Allocate new_capacity w) as [b w1 | w1 | |];
    cbn [andthen id]; try done.
  2:{ destruct HA as [Hq HA]. by split_and!. }
  destruct HA as [Hnd HA].
  set (nd := {| buffer_ := b; capacity_ := new_capacity |}).
  pose proof (CopyOrMoveData_thrown nd v w1 Hv) as HC.
  destruct (CopyOrMoveData nd v w1)
    as [[] [[v' nd'] w'] | [[v' nd'] w'] | |]; cbn [andthen]; try done.
  destruct HC as (Hq & Hv1 & Hsz & Hcap & Hcopy & Hno & Hsame).
  destruct (Hsame (fun j _ => Hnd j)) as [-> Hleak].
  split_and!; try done.
  - intros Hn. congruence.
  - rewrite leaked_destroy_None; [congruence | done].
Qed.


Lemma live_single (n k : nat) (x : T) :
  (k < n)%nat -> live (<[k := Some x]> (replicate n None)) = [x].
Proof.
  revert k. induction n as [|n IH]; intros k Hk; [lia|].
  destruct k as [|k]; simpl.
  - f_equal. clear. unfold live. induction n; [done|]. done.
  - apply IH. lia.
Qed.

Lemma doubled_capacity v :
  well_formed v -> size_ v = Capacity v ->
  Z.max 1 (Capacity v * 2) * sizeof <= SIZE_MAX ->
  (if size_ v =? 0 then 1 else wrap (size_ v * 2)) = Z.max 1 (Capacity v * 2).
Proof.
  intros (Hs & _) He Hd. rewrite He in *.
  apply count_le_bytes in Hd; [|lia]. zcases; [lia|].
  rewrite wrap_small; lia.
Qed.

Lemma EmplaceBack_full args v w :
  well_formed v -> size_ v = Capacity v ->
  Z.max 1 (Capacity v * 2) * sizeof <= SIZE_MAX ->
  match EmplaceBack args v w with
  | Normal r (v', w') =>
      well_formed v' /\ tight v' /\
      Capacity v' = Z.max 1 (Capacity v * 2) /\ Size v' = Size v + 1 /\
      r = Size v /\
      at_ (buffer_ (data_ v')) r = Some (make args) /\
      (forall i, 0 <= i < Size v ->
         at_ (buffer_ (data_ v')) i = at_ (buffer_ (data_ v)) i) /\
      (tight v -> leaked w' = leaked w)
  | Thrown (v', w') =>
      ~ quiet /\ well_formed v' /\ Size v' = Size v /\ Capacity v' = Capacity v /\
      (copy_constructible = true -> v' = v) /\
      (leaked w' = leaked w \/ leaked w' = leaked w ++ [make args])
  | AssertFail | Undefined => False
  end.
Proof.
  intros Hv He Hd. unfold EmplaceBack, Size.
  assert (Hv' := Hv). destruct Hv' as (Hs & Hc & Hm & Hl).
  rewrite doubled_capacity by done.
  set (N := Z.max 1 (Capacity v * 2)) in *.
  assert (HN : size_ v < N <= SIZE_MAX).
  { split; [lia|]. apply count_le_bytes; [lia | done]. }
  rewrite He, Z.eqb_refl, <- He.
  unfold RawMemory_new.
  pose proof (Allocate_spec N w ltac:(lia) Hd) as HA.
  destruct (Allocate N w) as [b w1 | w1 | |]; cbn [andthen id]; try done.
  2:{ destruct HA as [Hq HA]. split_and!; try done. by left. }
  destruct HA as [-> HA].
  set (nd := {| buffer_ := _; capacity_ := N |}).
  unfold construct_at, ask.
  destruct (throws (Construct args) (env w1)) eqn:Et; cbn [andthen fst snd].
  { split_and!; try done.
    - intros Hq. by rewrite Hq in Et.
    - left. rewrite leaked_destroy_None; [done|].
      intros j. apply at_replicate_None. }
  set (w2 := Build_world _ _).
  assert (Hlen : Z.of_nat (length (buffer_ nd)) = N)
    by (simpl; rewrite length_replicate; lia).
  assert (Hnd : forall j, at_ (buffer_ nd) j = None)
    by (intros j; apply at_replicate_None).
  rewrite place_inside by lia. cbn [andthen fst snd].
  rewrite Hnd. simpl option_list.
  set (b1 := store (buffer_ nd) (size_ v) (Some (make args))).
  assert (Hb1 : forall j, at_ b1 j =
            if j =? size_ v then Some (make args) else None).
  { intros j. subst b1. rewrite at_store, (proj2 (inside_true _ _)) by lia.
    simpl andb. rewrite Hnd. zdone. }
  pose proof (CopyOrMoveData_spec (set_raw nd b1) v (leak [] w2) Hv) as HC.
  specialize (HC ltac:(simpl; subst b1; rewrite length_store; lia)).
  destruct (CopyOrMoveData (set_raw nd b1) v (leak [] w2))
    as [[] [[v' nd'] w'] | [[v' nd'] w'] | |]; cbn [andthen]; try done.
  - destruct HC as (Hsz & Hcap & Hlen' & Hat & Hold & Hleak).
    simpl in Hcap, Hlen', Hat. unfold b1 in Hlen'. rewrite length_store in Hlen'.
    unfold return_slot, RawMemory_index. cbn [set_size size_ data_].
    rewrite Hsz. rewrite (wrap_small (size_ v + 1)) by lia.
    replace (size_ v + 1 - 1) with (size_ v) by lia.
    rewrite (wrap_small (size_ v)) by lia.
    unfold Capacity in Hcap. rewrite Hcap.
    destruct (Z.ltb_spec (size_ v) N); [|lia]. cbn [andthen].
    unfold well_formed, tight, Capacity.
    cbn [size_ data_ set_size set_buffer set_raw buffer_ capacity_].
    split_and!; try done; try lia.
    + intros i Hi. rewrite Hat, Hb1. zdone. by apply Hl.
    + intros i Hi. rewrite Hat, Hb1. zdone.
    + rewrite Hat, Hb1. zdone.
    + intros i Hi. rewrite Hat. zdone.
    + intros Ht. rewrite leaked_destroy_None.
      * rewrite Hleak; [simpl; rewrite app_nil_r; done|].
        intros j Hj. rewrite Hb1. zdone.
      * intros j. rewrite Hold. zdone; first [by apply at_neg | apply Ht; lia].
  - destruct HC as (Hq & Hv1 & Hsz & Hcap & Hcopy & Hsame).
    destruct Hsame as [-> Hleak].
    { intros j Hj. simpl. rewrite Hb1. zdone. }
    unfold id. split_and!; try done; try congruence. right.
    unfold RawMemory_destroy, Deallocate, leak. simpl.
    rewrite Hleak. simpl. rewrite app_nil_r. f_equal; [done|].
    subst b1. unfold store. destruct (Z.leb_spec 0 (size_ v)); [|lia].
    apply live_single. lia.
Qed.

Lemma Erase_spec pos v w :
  well_formed v -> 0 <= pos < size_ v ->
  match Erase pos v w with
  | Normal r (v', w') =>
      well_formed v' /\ Size v' = Size v - 1 /\ Capacity v' = Capacity v /\
      r = pos /\ leaked w' = leaked w /\
      (forall i, at_ (buffer_ (data_ v')) i =
         if (pos <=? i) && (i <? size_ v - 1)
         then at_ (buffer_ (data_ v)) (i + 1)
         else if i =? size_ v - 1 then None
              else at_ (buffer_ (data_ v)) i)
  | Thrown (v', w') =>
      ~ quiet /\ well_formed v' /\ Size v' = Size v /\ Capacity v' = Capacity v /\
      leaked w' = leaked w
  | AssertFail | Undefined => False
  end.
Proof.
  intros Hv Hp. unfold Erase, Size, std_move, end_.
  assert (Hv' := Hv). destruct Hv' as (Hs & Hc & Hm & Hl).
  set (n := Z.to_nat (0 + size_ v - (pos + 1))).
  pose proof (move_n_left_spec n (buffer_ (data_ v)) (pos + 1) w) as H.
  replace (pos + 1 - 1) with pos in H by lia.
  specialize (H ltac:(intros j Hj; apply Hl; lia)).
  destruct (move_n (buffer_ (data_ v)) (pos + 1) n pos w)
    as [[] [b' w'] | [b' w'] | |]; cbn [andthen fst snd]; try done.
  - destruct H as (L & Hleak & Hat).
    rewrite (wrap_small (size_ v - 1)) by lia.
    assert (Hres : forall i,
      at_ (destroy_n b' (0 + size_ v - 1) 1) i =
      if (pos <=? i) && (i <? size_ v - 1)
      then at_ (buffer_ (data_ v)) (i + 1)
      else if i =? size_ v - 1 then None else at_ (buffer_ (data_ v)) i).
    { intros i. rewrite at_destroy_n, Hat. zdone. }
    assert (Hval : well_formed (set_size (set_buffer v (destroy_n b' (0 + size_ v - 1) 1))
                            (size_ v - 1))).
    { unfold well_formed, Capacity in *.
      cbn [size_ data_ set_size set_buffer set_raw buffer_ capacity_].
      rewrite length_destroy_n, L. split_and!; try done; try lia.
      intros i Hi. rewrite Hres. zdone; apply Hl; lia. }
    cbn [size_ set_size].
    destruct (Z.eqb_spec (size_ v - 1) 0) as [E|E]; unfold end_;
      cbn [size_ data_ set_size set_buffer set_raw buffer_ capacity_];
      split_and!; try done; lia.
  - destruct H as (Hq & L & Hleak & Hsome).
    split_and!; try done. apply well_formed_set_buffer; [done..|].
    intros j Hj. apply Hsome. by apply Hl.
Qed.

(** Claim C7.  [Erase(pos)] at a position inside the live range of a
    non-empty container: the element at every index [i] after [pos] ends at
    index [i - 1], the elements before [pos] stay, the last slot of the old
    live range holds no object any more, the size drops by one, and the
    returned iterator is [pos]: it refers to the element that followed the
    erased one, and is [end()] when the erased element was the last.  The
    only other way out is an exception thrown by a move assignment. *)
Theorem Erase_contract pos v w :
  valid v -> 0 <= pos < Size v ->
  match Erase pos v w with
  | Normal r (v', w') =>
      (forall i, pos < i < Size v -> element v' (i - 1) = element v i) /\
      (forall i, 0 <= i < pos -> element v' i = element v i) /\
      element v' (Size v - 1) = None /\
      Size v' = Size v - 1 /\
      r = pos /\
      (pos < Size v - 1 -> element v' r = element v (pos + 1)) /\
      (pos = Size v - 1 -> r = end_ v')
  | Thrown (v', w') => ~ quiet
  | AssertFail | Undefined => False
  end.
Proof.
  intros [Hv _] Hp. unfold element.
  pose proof (Erase_spec pos v w Hv Hp) as H.
  destruct (Erase pos v w) as [r [v' w'] | [v' w'] | |]; try done.
  - destruct H as (Hv' & Hsz & Hcap & -> & Hleak & Hat).
    unfold Size, end_ in *. split_and!; try done; try lia.
    + intros i Hi. rewrite Hat. zdone.
    + intros i Hi. rewrite Hat. zdone.
    + rewrite Hat. zdone.
    + intros Hi. rewrite Hat. zdone.
  - by destruct H.
Qed.

Lemma CopyOrMovePartData_spec new_data pos v w :
  well_formed v -> 0 <= pos <= size_ v ->
  size_ v + 1 <= Z.of_nat (length (buffer_ new_data)) ->
  match CopyOrMovePartData new_data pos v w with
  | Normal _ (v', nd, w') =>
      size_ v' = size_ v /\ Capacity v' = capacity_ new_data /\
      length (buffer_ (data_ v')) = length (buffer_ new_data) /\
      (forall j, at_ (buffer_ (data_ v')) j =
         if (0 <=? j) && (j <? pos) then at_ (buffer_ (data_ v)) j
         else if (pos + 1 <=? j) && (j <? size_ v + 1)
              then at_ (buffer_ (data_ v)) (j - 1)
              else at_ (buffer_ new_data) j) /\
      (forall j, at_ (buffer_ nd) j =
         if (0 <=? j) && (j <? size_ v)
         then None else at_ (buffer_ (data_ v)) j) /\
      ((forall j, 0 <= j < size_ v + 1 -> j <> pos ->
          at_ (buffer_ new_data) j = None) ->
       leaked w' = leaked w)
  | Thrown (v', nd, w') =>
      ~ quiet /\ well_formed v' /\ size_ v' = size_ v /\ Capacity v' = Capacity v /\
      (copy_constructible = true -> v' = v)
  | AssertFail | Undefined => False
  end.
Proof.
  intros Hv Hp Hfit. unfold CopyOrMovePartData.
  rewrite transfer_range_choice. unfold begin_, end_.
  assert (Hv' := Hv). destruct Hv' as (Hs & Hc & Hm & Hl).
  replace (0 + (pos - 0) + 1) with (pos + 1) by lia.
  set (n1 := Z.to_nat (pos - 0)). set (n2 := Z.to_nat (0 + size_ v - pos)).
  pose proof (transfer_spec moves_elements n1
                (buffer_ (data_ v)) 0 (buffer_ new_data) 0 w) as H1.
  specialize (H1 ltac:(intros i Hi; apply Hl; lia) ltac:(lia) ltac:(lia)).
  assert (Hcopyable : copy_constructible = true -> moves_elements = true ->
                      nothrow_move_constructible = false -> False).
  { unfold moves_elements. intros Hc' Hm' Hn'. by rewrite Hc', Hn' in Hm'. }
  destruct (uninitialized_transfer moves_elements _ 0 n1 _ 0 w)
    as [[] [[src1 dst1] w1] | [[src1 dst1] w1] | |]; cbn [andthen]; try done.
  2:{ destruct H1 as (Hq & L1 & L2 & Hdst & Hsome & Hcopy & Hmove & Hsame).
      split_and!; try done.
      - apply well_formed_set_buffer; [done..|]. intros j Hj. apply Hsome. by apply Hl.
      - intros Hc'. destruct moves_elements eqn:Em.
        + exfalso. eauto.
        + rewrite (Hcopy eq_refl). apply set_buffer_same. }
  destruct H1 as (L1 & L2 & Hdst1 & Hsrc1 & Hleak1).
  pose proof (transfer_spec moves_elements n2 src1 pos dst1 (pos + 1) w1) as H2.
  assert (Hsome1 : forall j, is_Some (at_ (buffer_ (data_ v)) j) ->
                             is_Some (at_ src1 j)).
  { intros j [x Hx]. rewrite Hsrc1, Hx. destruct (_ && _); simpl; eauto. }
  specialize (H2 ltac:(intros i Hi; apply Hsome1, Hl; lia) ltac:(lia) ltac:(lia)).
  rewrite transfer_range_choice. fold n2.
  destruct (uninitialized_transfer moves_elements src1 pos n2 dst1 (pos + 1) w1)
    as [[] [[src2 dst2] w2] | [[src2 dst2] w2] | |]; cbn [andthen]; try done.
  - destruct H2 as (L3 & L4 & Hdst2 & Hsrc2 & Hleak2).
    unfold Capacity. simpl. split_and!; try done; try congruence.
    + intros j. rewrite Hdst2, Hdst1, Hsrc1. zdone;
        destruct moves_elements; simpl; zdone.
    + intros j. rewrite at_destroy_n, Hsrc2, Hsrc1. zdone;
        destruct moves_elements; simpl; zdone.
    + intros Hnone. rewrite Hleak2, Hleak1; [done| |].
      * intros j Hj. apply Hnone; lia.
      * intros j Hj. rewrite Hdst1. zdone. apply Hnone; lia.
  - destruct H2 as (Hq & L3 & L4 & Hdst & Hsome & Hcopy & Hmove & Hsame).
    split_and!; try done.
    + apply well_formed_set_buffer; [done|congruence|].
      intros j Hj. apply Hsome, Hsome1. by apply Hl.
    + intros Hc'. destruct moves_elements eqn:Em.
      * exfalso. eauto.
      * rewrite (Hcopy eq_refl).
        replace src1 with (buffer_ (data_ v)); [apply set_buffer_same|].
        symmetry. apply buffer_eq; [done|]. intros i _. by rewrite Hsrc1.
Qed.

End OperationFacts.

(** ** Insertion *)

Section InsertFacts.

Context {T Args Env : Type} `{Elt : !Element T Args Env}.
Implicit Types (b src dst : list (option T)) (i j : Z) (w : @world T Env)
  (v : @Vector T) (m : @RawMemory T).

Lemma Emplace_asserts_position pos v :
  0 <= pos <= size_ v ->
  negb ((begin_ v <=? pos) && (pos <=? end_ v)) = false.
Proof. intros Hp. unfold begin_, end_. zdone. Qed.

Lemma Emplace_grow pos args v w :
  well_formed v -> 0 <= pos <= size_ v -> size_ v = Capacity v ->
  Z.max 1 (Capacity v * 2) * sizeof <= SIZE_MAX ->
  match Emplace pos args v w with
  | Normal r (v', w') =>
      well_formed v' /\ Size v' = Size v + 1 /\ r = pos /\
      Capacity v' = Z.max 1 (Capacity v * 2) /\
      (forall j, 0 <= j < size_ v + 1 ->
         at_ (buffer_ (data_ v')) j =
         if j <? pos then at_ (buffer_ (data_ v)) j
         else if j =? pos then Some (make args)
              else at_ (buffer_ (data_ v)) (j - 1))
  | Thrown (v', w') =>
      ~ quiet /\ well_formed v' /\ Size v' = Size v /\ Capacity v' = Capacity v /\
      (copy_constructible = true -> v' = v)
  | AssertFail | Undefined => False
  end.
Proof.
  intros Hv Hp He Hd. unfold Emplace, Size.
  rewrite Emplace_asserts_position by done. cbv iota.
  assert (Hv' := Hv). destruct Hv' as (Hs & Hc & Hm & Hl).
  rewrite doubled_capacity by done.
  set (N := Z.max 1 (Capacity v * 2)) in *.
  assert (HN : size_ v < N <= SIZE_MAX).
  { split; [lia|]. apply count_le_bytes; [lia | done]. }
  destruct (Z.eqb_spec (size_ v) (Capacity v)); [|lia].
  unfold begin_. replace (pos - 0) with pos by lia.
  unfold RawMemory_new.
  pose proof (Allocate_spec N w ltac:(lia) Hd) as HA.
  destruct (Allocate N w) as [b w1 | w1 | |]; cbn [andthen id]; try done.
  2:{ destruct HA as [Hq HA]. by split_and!. }
  destruct HA as [-> HA].
  set (nd := {| buffer_ := _; capacity_ := N |}).
  unfold construct_at, ask.
  destruct (throws (Construct args) (env w1)) eqn:Et; cbn [andthen fst snd].
  { split_and!; try done. intros Hq. by rewrite Hq in Et. }
  set (w2 := Build_world _ _).
  assert (Hlen : Z.of_nat (length (buffer_ nd)) = N)
    by (simpl; rewrite length_replicate; lia).
  assert (Hnd : forall j, at_ (buffer_ nd) j = None)
    by (intros j; apply at_replicate_None).
  rewrite place_inside by lia. cbn [andthen fst snd].
  set (b1 := store (buffer_ nd) pos (Some (make args))).
  assert (Hb1 : forall j, at_ b1 j =
            if j =? pos then Some (make args) else None).
  { intros j. subst b1. rewrite at_store, (proj2 (inside_true _ _)) by lia.
    simpl andb. rewrite Hnd. zdone. }
  set (w3 := leak _ w2).
  pose proof (CopyOrMovePartData_spec (set_raw nd b1) pos v w3 Hv Hp) as HC.
  specialize (HC ltac:(simpl; unfold b1; rewrite length_store; lia)).
  destruct (CopyOrMovePartData (set_raw nd b1) pos v w3)
    as [[] [[v' nd'] w'] | [[v' nd'] w'] | |]; cbn [andthen]; try done.
  destruct HC as (Hsz & Hcap & Hlen' & Hat & Hold & Hleak).
  simpl in Hcap, Hlen', Hat. unfold b1 in Hlen'. rewrite length_store in Hlen'.
  unfold return_slot, RawMemory_index. cbn [set_size size_ data_].
    rewrite Hsz. rewrite (wrap_small (size_ v + 1)) by lia.
    unfold Capacity in Hcap. rewrite Hcap.
    destruct (Z.ltb_spec pos N); [|lia]. cbn [andthen].
    unfold well_formed, Capacity.
    cbn [size_ data_ set_size set_buffer set_raw buffer_ capacity_].
    split_and!; try done; try lia.
    + intros i Hi. rewrite Hat, Hb1. zdone; apply Hl; lia.
    + intros i Hi. rewrite Hat, Hb1. zdone.
Qed.

Lemma Emplace_room pos args v w :
  well_formed v -> 0 <= pos <= size_ v -> size_ v < Capacity v ->
  match Emplace pos args v w with
  | Normal r (v', w') =>
      well_formed v' /\ Size v' = Size v + 1 /\ r = pos /\
      Capacity v' = Capacity v /\
      (forall j, 0 <= j < size_ v + 1 ->
         at_ (buffer_ (data_ v')) j =
         if j <? pos then at_ (buffer_ (data_ v)) j
         else if j =? pos then Some (make args)
              else at_ (buffer_ (data_ v)) (j - 1))
  | Thrown (v', w') =>
      ~ quiet /\ well_formed v' /\ Size v' = Size v /\ Capacity v' = Capacity v
  | AssertFail | Undefined => False
  end.
Proof.
  intros Hv Hp Hlt. unfold Emplace, Size.
  rewrite Emplace_asserts_position by done. cbv iota.
  assert (Hv' := Hv). destruct Hv' as (Hs & Hc & Hm & Hl).
  destruct (Z.eqb_spec (size_ v) (Capacity v)); [lia|].
  destruct (Z.ltb_spec (size_ v) (Capacity v)); [|lia].
  unfold begin_, end_. replace (pos - 0) with pos by lia.
  rewrite !Z.add_0_l.
  assert (Hret : forall b w',
    length b = length (buffer_ (data_ v)) ->
    return_slot (set_size (set_buffer v b) (wrap (size_ v + 1))) pos w' =
    Normal pos (set_size (set_buffer v b) (size_ v + 1), w')).
  { intros b w' Hb. unfold return_slot, RawMemory_index.
    rewrite wrap_small by lia. cbn [set_size set_buffer set_raw data_ capacity_].
    unfold Capacity in *. by destruct (Z.ltb_spec pos (capacity_ (data_ v))); [|lia]. }
  destruct (Z.eqb_spec pos (size_ v)) as [->|Hne].
  - (* at the end *)
    unfold construct_at, ask.
    destruct (throws (Construct args) (env w)) eqn:Et; cbn [andthen fst snd].
    { rewrite set_buffer_same. split_and!; try done.
      intros Hq. by rewrite Hq in Et. }
    rewrite place_inside by lia. cbn [andthen fst snd].
    rewrite Hret by apply length_store. 
    unfold well_formed, Capacity in *.
    cbn [size_ data_ set_size set_buffer set_raw buffer_ capacity_].
    rewrite length_store.
    assert (Hb1 : forall j, at_ (store (buffer_ (data_ v)) (size_ v) (Some (make args))) j =
              if j =? size_ v then Some (make args) else at_ (buffer_ (data_ v)) j).
    { intros j. rewrite at_store, (proj2 (inside_true _ _)) by lia. zdone. }
    split_and!; try done; try lia.
    + intros i Hi. rewrite Hb1. zdone. apply Hl. lia.
    + intros i Hi. rewrite Hb1. zdone.
  - (* in the middle *)
    unfold ask at 1.
    destruct (throws (Construct args) (env w)) eqn:Et.
    { split_and!; try done. intros Hq. by rewrite Hq in Et. }
    set (w1 := Build_world _ _).
    destruct (Hl (size_ v - 1) ltac:(lia)) as [x Hx].
    cbn [uninitialized_move_n_within]. rewrite Hx. unfold ask at 1.
    destruct (throws (MoveCtor x) (env w1)) eqn:Et1; cbn [andthen fst snd].
    { rewrite set_buffer_same. split_and!; try done.
      intros Hq. by rewrite Hq in Et1. }
    rewrite place_inside by (rewrite length_store; lia).
    cbn [andthen fst snd].
    set (b1 := store (store (buffer_ (data_ v)) (size_ v - 1)
                        (Some (moved_from x))) (size_ v) (Some x)).
    assert (Hb1 : forall j, at_ b1 j =
              if j =? size_ v then Some x
              else if j =? size_ v - 1 then Some (moved_from x)
                   else at_ (buffer_ (data_ v)) j).
    { intros j. subst b1.
      rewrite !at_store, inside_store, !(proj2 (inside_true _ _)) by lia. zdone. }
    assert (Lb1 : length b1 = length (buffer_ (data_ v)))
      by (subst b1; by rewrite !length_store).
    set (w2 := leak _ _).
    unfold move_backward.
    set (k := Z.to_nat (size_ v - 1 - pos)).
    pose proof (move_backward_right_spec k b1 (size_ v - 1) w2) as HB.
    replace (size_ v - 1 + 1) with (size_ v) in HB by lia.
    specialize (HB ltac:(intros j Hj; rewrite Hb1; zcases; eauto; apply Hl; lia)).
    destruct (move_backward_n b1 (size_ v - 1) k (size_ v) w2)
      as [[] [b2 w3] | [b2 w3] | |]; cbn [andthen fst snd]; try done.
    2:{ destruct HB as (Hq & L & Hleak & Hsome).
        split_and!; try done. apply well_formed_set_buffer; [done|congruence|].
        intros j Hj. apply Hsome. rewrite Hb1. zcases; eauto. }
    destruct HB as (L2 & Hleak2 & Hb2).
    assert (Hpos : is_Some (at_ b2 pos)).
    { rewrite Hb2, !Hb1.
      zcases; rewrite ?fmap_is_Some; eauto; try lia; apply Hl; lia. }
    destruct Hpos as [y Hy]. rewrite Hy. unfold ask.
    destruct (throws (MoveAssign y (make args)) (env w3)) eqn:Et3.
    { split_and!; try done.
      - intros Hq. by rewrite Hq in Et3.
      - apply well_formed_set_buffer; [done|congruence|].
        intros j Hj. rewrite Hb2, !Hb1.
        zcases; rewrite ?fmap_is_Some; eauto; try lia; apply Hl; lia. }
    rewrite Hret by (rewrite length_store; congruence).
    assert (Hb3 : forall j, at_ (store b2 pos (Some (make args))) j =
              if j =? pos then Some (make args) else at_ b2 j).
    { intros j. rewrite at_store, (proj2 (inside_true _ _)) by lia. zdone. }
    unfold well_formed, Capacity in *.
    cbn [size_ data_ set_size set_buffer set_raw buffer_ capacity_].
    rewrite length_store, L2, Lb1.
    split_and!; try done; try lia.
    + intros i Hi. rewrite Hb3, Hb2, !Hb1.
      zcases; rewrite ?fmap_is_Some; eauto; try lia; apply Hl; lia.
    + intros j Hj. rewrite Hb3, Hb2, !Hb1. zdone; by use_at Hx.
Qed.

Lemma Emplace_spec pos args v w :
  well_formed v -> 0 <= pos <= size_ v ->
  Z.max 1 (Capacity v * 2) * sizeof <= SIZE_MAX ->
  match Emplace pos args v w with
  | Normal r (v', w') =>
      well_formed v' /\ Size v' = Size v + 1 /\ r = pos /\
      (forall j, 0 <= j < size_ v + 1 ->
         at_ (buffer_ (data_ v')) j =
         if j <? pos then at_ (buffer_ (data_ v)) j
         else if j =? pos then Some (make args)
              else at_ (buffer_ (data_ v)) (j - 1))
  | Thrown (v', w') =>
      ~ quiet /\ well_formed v' /\ Size v' = Size v /\ Capacity v' = Capacity v
  | AssertFail | Undefined => False
  end.
Proof.
  intros Hv Hp Hd.
  destruct (Z.eq_dec (size_ v) (Capacity v)) as [He|Hne].
  - pose proof (Emplace_grow pos args v w Hv Hp He Hd) as H.
    destruct (Emplace pos args v w) as [r [v' w'] | [v' w'] | |]; try done.
    + by destruct H as (? & ? & ? & _ & ?).
    + by destruct H as (? & ? & ? & ? & _).
  - assert (Hlt : size_ v < Capacity v) by (destruct Hv as ((? & ?) & _); lia).
    pose proof (Emplace_room pos args v w Hv Hp Hlt) as H.
    destruct (Emplace pos args v w) as [r [v' w'] | [v' w'] | |]; try done.
    by destruct H as (? & ? & ? & _ & ?).
Qed.

Lemma Emplace_capacity pos args v w :
  well_formed v -> 0 <= pos <= size_ v ->
  Z.max 1 (Capacity v * 2) * sizeof <= SIZE_MAX ->
  match Emplace pos args v w with
  | Normal _ (v', _) =>
      Capacity v' =
        (if Size v <? Capacity v then Capacity v
         else Z.max 1 (Capacity v * 2))
  | _ => True
  end.
Proof.
  intros Hv Hp Hd. unfold Size.
  destruct (Z.ltb_spec (size_ v) (Capacity v)) as [Hlt|Hge].
  - pose proof (Emplace_room pos args v w Hv Hp Hlt) as H.
    destruct (Emplace pos args v w) as [r [v' w'] | [v' w'] | |]; try done.
    by destruct H as (_ & _ & _ & ? & _).
  - assert (He : size_ v = Capacity v) by (destruct Hv as ((? & ?) & _); lia).
    pose proof (Emplace_grow pos args v w Hv Hp He Hd) as H.
    destruct (Emplace pos args v w) as [r [v' w'] | [v' w'] | |]; try done.
    by destruct H as (_ & _ & _ & ? & _).
Qed.

Lemma at_take b (n : nat) i :
  0 <= i < Z.of_nat n -> at_ (take n b) i = at_ b i.
Proof.
  intros Hi. unfold at_. destruct (Z.leb_spec 0 i); [|lia].
  rewrite lookup_take_lt; [done | lia].
Qed.

Lemma elements_eq v v' :
  well_formed v -> well_formed v' -> size_ v' = size_ v ->
  (forall i, 0 <= i < size_ v ->
     at_ (buffer_ (data_ v')) i = at_ (buffer_ (data_ v)) i) ->
  elements v' = elements v.
Proof.
  intros (Hs & Hc & _) (Hs' & Hc' & _) Hsz Hat. unfold elements, Capacity in *.
  rewrite Hsz. apply buffer_eq.
  - rewrite !length_take_le; [done | lia | lia].
  - intros i Hi. rewrite length_take_le in Hi by lia.
    rewrite !at_take by lia. apply Hat. lia.
Qed.


End InsertFacts.

(** ** Resize *)

Section ResizeFacts.

Context {T Args Env : Type} `{Elt : !Element T Args Env}.
Implicit Types (b src dst : list (option T)) (i j : Z) (w : @world T Env)
  (v : @Vector T) (m : @RawMemory T).

Lemma Resize_same v w : Resize (size_ v) v w = Normal tt (v, w).
Proof. unfold Resize. by rewrite Z.eqb_refl. Qed.

Lemma Resize_shrink new_size v w :
  well_formed v -> 0 <= new_size < size_ v ->
  exists v',
    Resize new_size v w = Normal tt (v', w) /\
    well_formed v' /\ Size v' = new_size /\ Capacity v' = Capacity v /\
    forall i, at_ (buffer_ (data_ v')) i =
      if (new_size <=? i) && (i <? size_ v) then None
      else at_ (buffer_ (data_ v)) i.
Proof.
  intros Hv Hn. assert (Hv' := Hv). destruct Hv' as (Hs & Hc & Hm & Hl).
  unfold Resize.
  destruct (Z.eqb_spec new_size (size_ v)); [lia|].
  destruct (Z.ltb_spec new_size (size_ v)); [|lia].
  eexists. split; [done|].
  rewrite wrap_small by lia.
  assert (Hat : forall i,
    at_ (destroy_n (buffer_ (data_ v)) new_size (Z.to_nat (size_ v - new_size))) i =
    if (new_size <=? i) && (i <? size_ v) then None else at_ (buffer_ (data_ v)) i).
  { intros i. rewrite at_destroy_n. zdone. }
  unfold well_formed, Size, Capacity in *.
  cbn [size_ data_ set_size set_buffer set_raw buffer_ capacity_].
  rewrite length_destroy_n. split_and!; try done; try lia.
  intros i Hi. rewrite Hat. zdone. apply Hl. lia.
Qed.

Lemma Resize_grow new_size v w :
  well_formed v -> size_ v < new_size -> new_size * sizeof <= SIZE_MAX ->
  match Resize new_size v w with
  | Normal _ (v', w') =>
      well_formed v' /\ Size v' = new_size /\ new_size <= Capacity v' /\
      Capacity v' = Z.max new_size (Capacity v) /\
      (forall i, 0 <= i < new_size ->
         at_ (buffer_ (data_ v')) i =
         if i <? size_ v then at_ (buffer_ (data_ v)) i else Some value_init)
  | Thrown (v', w') =>
      ~ quiet /\ well_formed v' /\ Size v' = Size v /\
      Capacity v' <= Z.max new_size (Capacity v)
  | AssertFail | Undefined => False
  end.
Proof.
  intros Hv Hn Hb. assert (Hv' := Hv). destruct Hv' as (Hs & Hc & Hm & Hl).
  assert (Hmax : new_size <= SIZE_MAX)
    by (apply count_le_bytes; [lia | done]).
  unfold Resize.
  destruct (Z.eqb_spec new_size (size_ v)); [lia|].
  destruct (Z.ltb_spec new_size (size_ v)); [lia|].
  assert (HR : match Reserve new_size v w with
    | Normal _ (v1, w1) =>
        well_formed v1 /\ Size v1 = Size v /\ new_size <= Capacity v1 /\
        Capacity v1 = Z.max new_size (Capacity v) /\
        (forall i, 0 <= i < Size v ->
           at_ (buffer_ (data_ v1)) i = at_ (buffer_ (data_ v)) i)
    | Thrown (v1, w1) =>
        ~ quiet /\ well_formed v1 /\ Size v1 = Size v /\
        Capacity v1 = Capacity v
    | AssertFail | Undefined => False
    end).
  { destruct (Z.le_gt_cases new_size (Capacity v)) as [Hle|Hgt].
    - unfold Reserve. fold (Capacity v).
      destruct (Z.leb_spec new_size (Capacity v)); [|lia].
      split_and!; try done; lia.
    - pose proof (Reserve_grow new_size v w Hv ltac:(lia) Hb) as HG.
      destruct (Reserve new_size v w) as [[] [v1 w1] | [v1 w1] | |]; try done.
      + destruct HG as (? & _ & ? & ? & ? & _). split_and!; try done; lia.
      + by destruct HG as (? & ? & ? & ? & _). }
  destruct (Reserve new_size v w) as [[] [v1 w1] | [v1 w1] | |];
    cbn [andthen id]; try done.
  2:{ destruct HR as (? & ? & ? & ?). split_and!; try done. lia. }
  destruct HR as (Hv1 & Hsz1 & Hfit & Hcap1 & Hat1). unfold Size in *.
  assert (Hv1' := Hv1). destruct Hv1' as (Hs1 & Hc1 & Hm1 & Hl1).
  rewrite Hsz1. rewrite wrap_small by lia.
  set (k := Z.to_nat (new_size - size_ v)).
  pose proof (value_construct_spec k (buffer_ (data_ v1)) (size_ v) w1) as HV.
  specialize (HV ltac:(lia) ltac:(lia)).
  destruct (uninitialized_value_construct_n _ _ k w1)
    as [[] [b' w'] | [b' w'] | |]; cbn [andthen fst snd]; try done.
  - destruct HV as (L & Hat & _).
    unfold well_formed, Capacity in *.
    cbn [size_ data_ set_size set_buffer set_raw buffer_ capacity_].
    rewrite L. split_and!; try done; try lia.
    + intros i Hi. rewrite Hat. zcases; eauto; apply Hl1; lia.
    + intros i Hi. rewrite Hat. zdone; apply Hat1; lia.
  - destruct HV as (Hq & L & Hat & _).
    split_and!; try done.
    + apply well_formed_set_buffer; [done..|].
      intros j Hj. rewrite Hat by lia. apply Hl1. lia.
    + unfold Capacity in *. cbn [data_ set_buffer set_raw capacity_]. lia.
Qed.

End ResizeFacts.

(** ** Construction, append, and what shrinking leaves alone *)

Section ConstructionFacts.

Context {T Args Env : Type} `{Elt : !Element T Args Env}.
Implicit Types (b src dst : list (option T)) (i j : Z) (w : @world T Env)
  (v other : @Vector T) (m : @RawMemory T).

Lemma Vector_copy_spec other w :
  well_formed other -> Size other * sizeof <= SIZE_MAX ->
  match Vector_copy other w with
  | Normal v' w' =>
      well_formed v' /\ tight v' /\
      Capacity v' = Size other /\ Size v' = Size other /\
      (forall i, 0 <= i < Size other ->
         at_ (buffer_ (data_ v')) i = at_ (buffer_ (data_ other)) i) /\
      leaked w' = leaked w
  | Thrown w' => ~ quiet /\ leaked w' = leaked w
  | AssertFail | Undefined => False
  end.
Proof.
  intros Hv Hb. assert (Hv' := Hv). destruct Hv' as (Hs & Hc & Hm & Hl).
  assert (Hmax : size_ other <= SIZE_MAX)
    by (apply count_le_bytes; [lia | done]).
  unfold Vector_copy, RawMemory_new, Size in *.
  pose proof (Allocate_spec (size_ other) w ltac:(lia) Hb) as HA.
  destruct (Allocate (size_ other) w) as [b w1 | w1 | |];
    cbn [andthen id]; try done.
  destruct HA as [-> HA].
  set (d := {| buffer_ := _; capacity_ := size_ other |}).
  assert (Hd : forall j, at_ (buffer_ d) j = None)
    by (intros j; apply at_replicate_None).
  assert (Ld : Z.of_nat (length (buffer_ d)) = size_ other)
    by (simpl; rewrite length_replicate; lia).
  unfold uninitialized_copy_n.
  pose proof (transfer_spec false (Z.to_nat (size_ other))
                (buffer_ (data_ other)) 0 (buffer_ d) 0 w1) as H.
  rewrite Z2Nat.id in H by lia.
  specialize (H ltac:(intros i Hi; apply Hl; lia) ltac:(lia) ltac:(lia)).
  destruct (uninitialized_transfer false _ 0 _ _ 0 w1)
    as [[] [[src dst] w'] | [[src dst] w'] | |]; cbn [andthen]; try done.
  - destruct H as (L1 & L2 & Hdst & _ & Hleak).
    unfold well_formed, tight, Capacity in *.
    cbn [size_ data_ set_raw buffer_ capacity_]. rewrite L2.
    split_and!; try done; try lia; try (simpl; lia).
    + intros i Hi. rewrite Hdst. zdone. apply Hl. lia.
    + intros i Hi. rewrite Hdst, Hd. zdone.
    + intros i Hi. rewrite Hdst. zdone.
    + rewrite Hleak; auto.
  - destruct H as (Hq & _ & _ & _ & _ & _ & _ & Hsame).
    destruct (Hsame (fun j _ => Hd j)) as [-> Hleak].
    split; [done|]. rewrite leaked_destroy_None; [congruence | done].
Qed.

(** Claim C9.  The copy constructor allocates for [other.size_] elements,
    not for [other.Capacity()]: the copy is a valid container whose block
    has exactly [other.Size()] slots, with
    [Capacity() == Size() == other.Size()], spare capacity of the source or
    not, and it holds the values of the source.  The only other way out is
    an exception that some call threw. *)
Theorem Vector_copy_capacity other w :
  valid other ->
  match Vector_copy other w with
  | Normal v' w' =>
      valid v' /\
      Z.of_nat (length (buffer_ (data_ v'))) = Size other /\
      Capacity v' = Size other /\ Size v' = Size other /\
      Capacity v' = Size v' /\
      contents v' = contents other
  | Thrown w' => ~ quiet
  | AssertFail | Undefined => False
  end.
Proof.
  intros Hval. assert (Hb := valid_size_bytes other Hval).
  assert (Hv := proj1 Hval). pose proof PTRDIFF_MAX_le_SIZE_MAX as HM.
  pose proof (Vector_copy_spec other w Hv ltac:(unfold Size; lia)) as H.
  destruct (Vector_copy other w) as [v' w' | w' | |]; try done.
  - destruct H as (Hv' & _ & Hc & Hs & Hat & _).
    assert (Hlen := proj1 (proj2 Hv')). unfold Size in *.
    split_and!; try congruence.
    + split; [done|]. by rewrite Hc.
    + unfold contents. f_equal. by apply elements_eq.
  - by destruct H.
Qed.

(** Claim C8.  The move constructor hands the source's block, size and
    capacity to the new container and leaves the source with size 0,
    capacity 0 and no block. *)
Theorem Vector_move_contract other w :
  let '(v', moved, w') := Vector_move other w in
  v' = other /\
  elements v' = elements other /\
  Size v' = Size other /\ Capacity v' = Capacity other /\
  Size moved = 0 /\ Capacity moved = 0 /\ buffer_ (data_ moved) = [] /\
  leaked w' = leaked w.
Proof.
  destruct other as [[b c] s]. unfold Vector_move, RawMemory_move_assign.
  cbn. split_and!; try done. apply app_nil_r.
Qed.

(** Claim C3.  On a full container ([Size() == Capacity()], the doubling
    [size_ * 2] inside [size_t]) [EmplaceBack(args...)] returns with
    capacity [max(1, 2 * old capacity)], the size one larger, the new
    element at index old [Size()], every earlier value at its index, and a
    reference to the slot of the new element; [PushBack] ends in the same
    state.  The only other way out is an exception that some call threw. *)
Theorem EmplaceBack_when_full args v w :
  valid v -> Size v = Capacity v -> Size v * 2 <= SIZE_MAX ->
  match EmplaceBack args v w with
  | Normal r (v', w') =>
      Capacity v' = Z.max 1 (Capacity v * 2) /\
      Size v' = Size v + 1 /\
      element v' (Size v) = Some (make args) /\
      (forall i, 0 <= i < Size v -> element v' i = element v i) /\
      r = Size v /\
      PushBack args v w = Normal tt (v', w')
  | Thrown s => ~ quiet /\ PushBack args v w = Thrown s
  | AssertFail | Undefined => False
  end.
Proof.
  intros Hval He _. unfold element, Size in *.
  pose proof (EmplaceBack_full args v w (proj1 Hval) He
                (valid_doubling v Hval)) as H.
  unfold PushBack.
  destruct (EmplaceBack args v w) as [r [v' w'] | [v' w'] | |]; try done.
  - destruct H as (_ & _ & ? & ? & -> & ? & ? & _). by split_and!.
  - by destruct H as (? & _).
Qed.

(** Claim C10.  [PopBack], [Erase] and [Resize] to a smaller size leave
    [Capacity()] as it was, in every state the call can end in (a failed
    assertion leaves no state). *)
Theorem shrinking_keeps_capacity v w :
  match PopBack v w with
  | Normal _ (v', _) | Thrown (v', _) => Capacity v' = Capacity v
  | AssertFail | Undefined => True
  end /\
  (forall pos,
     match Erase pos v w with
     | Normal _ (v', _) | Thrown (v', _) => Capacity v' = Capacity v
     | AssertFail | Undefined => True
     end) /\
  (forall new_size, new_size < Size v ->
     match Resize new_size v w with
     | Normal _ (v', _) | Thrown (v', _) => Capacity v' = Capacity v
     | AssertFail | Undefined => True
     end).
Proof.
  split_and!.
  - unfold PopBack. by destruct (0 <? size_ v).
  - intros pos. unfold Erase.
    destruct (std_move _ _ _ _ _) as [[] [b' w'] | [b' w'] | |];
      cbn [andthen fst snd]; try done.
    by destruct (_ =? 0).
  - intros new_size Hn. unfold Resize, Size in *.
    destruct (Z.eqb_spec new_size (size_ v)); [lia|].
    by destruct (Z.ltb_spec new_size (size_ v)); [|lia].
Qed.

End ConstructionFacts.

(** ** [0 <= size <= capacity], operation by operation *)

(** One step through a member function: case analysis on the call it makes
    next, whatever that call does to the blocks. *)
Ltac step_call :=
  match goal with
  | |- context [andthen ?o _ _] =>
      lazymatch o with
      | context [andthen] => fail
      | context [if _ then _ else _] => fail
      | _ => destruct o as [? ? | ? | |]; cbn [andthen id RawMemory_Swap Swap]
      end
  | |- context [match ?s with (_, _) => _ end] => is_var s; destruct s
  | |- context [match at_ ?b ?i with Some _ => _ | None => _ end] =>
      destruct (at_ b i)
  | |- context [ask ?c ?w] => unfold ask
  | |- context [if ?b then _ else _] =>
      lazymatch b with
      | ?x <=? ?y => destruct (Z.leb_spec x y)
      | ?x <? ?y => destruct (Z.ltb_spec x y)
      | ?x =? ?y => destruct (Z.eqb_spec x y)
      | _ => destruct b
      end
  end.

Ltac fields :=
  unfold size_within_capacity, Size, Capacity in *;
  cbn [size_ data_ set_size set_buffer set_raw buffer_ capacity_ fst snd] in *.

Section InvariantFacts.

Context {T Args Env : Type} `{Elt : !Element T Args Env}.
Implicit Types (b src dst : list (option T)) (i j : Z) (w : @world T Env)
  (v other rhs : @Vector T) (m : @RawMemory T).

Lemma CopyOrMoveData_fields new_data v w :
  match CopyOrMoveData new_data v w with
  | Normal _ (v', _, _) =>
      Size v' = Size v /\ Capacity v' = capacity_ new_data
  | Thrown (v', _, _) => same_fields v' v
  | AssertFail | Undefined => True
  end.
Proof.
  unfold CopyOrMoveData, same_fields. repeat step_call; by fields.
Qed.

Lemma CopyOrMovePartData_fields new_data pos v w :
  match CopyOrMovePartData new_data pos v w with
  | Normal _ (v', _, _) =>
      Size v' = Size v /\ Capacity v' = capacity_ new_data
  | Thrown (v', _, _) => same_fields v' v
  | AssertFail | Undefined => True
  end.
Proof.
  unfold CopyOrMovePartData, same_fields. repeat step_call; by fields.
Qed.

Lemma RawMemory_new_fields n w :
  match RawMemory_new n w with
  | Normal m _ => capacity_ m = n
  | _ => True
  end.
Proof. unfold RawMemory_new. by repeat step_call. Qed.

Lemma Reserve_fields n v w :
  match Reserve n v w with
  | Normal _ (v', _) =>
      Size v' = Size v /\
      Capacity v' = if n <=? Capacity v then Capacity v else n
  | Thrown (v', _) => same_fields v' v
  | AssertFail | Undefined => True
  end.
Proof.
  unfold Reserve, same_fields. fold (Capacity v).
  destruct (n <=? Capacity v); [done|].
  pose proof (RawMemory_new_fields n w) as HN.
  destruct (RawMemory_new n w) as [nd w1 | w1 | |]; cbn [andthen]; try done.
  pose proof (CopyOrMoveData_fields nd v w1) as HC.
  destruct (CopyOrMoveData nd v w1) as [[] [[v' nd'] w'] | [[v' nd'] w'] | |];
    cbn [andthen]; try done.
  destruct HC. split; congruence.
Qed.

Lemma kept_only_this {R} (o : outcome R (@Vector T * @world T Env)) :
  kept1 o -> kept (only_this o).
Proof.
  unfold kept1, kept, only_this.
  destruct o as [r [v' w'] | [v' w'] | |]; simpl; auto.
Qed.

Lemma grown_capacity v :
  size_within_capacity v -> size_ v = Capacity v -> size_ v * 2 <= SIZE_MAX ->
  size_ v + 1 <= (if size_ v =? 0 then 1 else wrap (size_ v * 2)) /\
  wrap (size_ v + 1) = size_ v + 1.
Proof.
  intros Hs He Hd. fields. unfold SIZE_MAX in *.
  rewrite (wrap_small (size_ v + 1)) by (unfold SIZE_MAX; lia).
  zcases; [lia|]. rewrite wrap_small by (unfold SIZE_MAX; lia). lia.
Qed.

Lemma return_slot_kept v i w :
  size_within_capacity v -> kept1 (return_slot v i w).
Proof.
  intros Hv. unfold return_slot, RawMemory_index, kept1.
  by destruct (i <? capacity_ (data_ v)).
Qed.

Ltac step_fields :=
  match goal with
  | |- context [andthen (CopyOrMoveData ?nd ?v ?w) _ _] =>
      let H := fresh "HC" in
      pose proof (CopyOrMoveData_fields nd v w) as H; unfold same_fields in H;
      destruct (CopyOrMoveData nd v w)
        as [[] [[? ?] ?] | [[? ?] ?] | |]; cbn [andthen]
  | |- context [andthen (CopyOrMovePartData ?nd ?p ?v ?w) _ _] =>
      let H := fresh "HC" in
      pose proof (CopyOrMovePartData_fields nd p v w) as H;
      unfold same_fields in H;
      destruct (CopyOrMovePartData nd p v w)
        as [[] [[? ?] ?] | [[? ?] ?] | |]; cbn [andthen]
  | |- context [andthen (RawMemory_new ?n ?w) _ _] =>
      let H := fresh "HN" in
      pose proof (RawMemory_new_fields n w) as H;
      destruct (RawMemory_new n w) as [? ? | ? | |]; cbn [andthen id]
  | |- context [andthen (Reserve ?n ?v ?w) _ _] =>
      let H := fresh "HR" in
      pose proof (Reserve_fields n v w) as H; unfold same_fields in H;
      destruct (Reserve n v w) as [[] [? ?] | [? ?] | |]; cbn [andthen id]
  | |- context [return_slot ?v ?i ?w] =>
      unfold return_slot, RawMemory_index
  | _ => step_call
  end.

Ltac unwrap :=
  repeat match goal with
  | |- context [wrap ?e] =>
      rewrite (wrap_small e) by (unfold SIZE_MAX in *; lia)
  end.

Ltac close_fields :=
  cbn [andthen]; unfold id, kept1, kept; fields;
  repeat rewrite Forall_cons; rewrite ?Forall_nil;
  destruct_and?; fields; try done; unwrap;
  repeat match goal with
  | H : context [if ?x <=? ?y then _ else _] |- _ => destruct (Z.leb_spec x y)
  end;
  try lia.

Lemma EmplaceBack_kept args v w :
  size_within_capacity v -> Capacity v <= SIZE_MAX ->
  size_ v * 2 <= SIZE_MAX ->
  kept1 (EmplaceBack args v w).
Proof.
  intros Hv Hm Hd. unfold EmplaceBack.
  destruct (Z.eqb_spec (size_ v) (Capacity v)) as [He|Hne].
  - destruct (grown_capacity v Hv He Hd) as [Hfit Hw].
    set (N := if size_ v =? 0 then 1 else wrap (size_ v * 2)) in *.
    unfold construct_at, place.
    repeat step_fields; close_fields.
  - destruct (Z.ltb_spec (size_ v) (Capacity v)); [|fields; lia].
    unfold construct_at, place. repeat step_fields; close_fields.
Qed.

Lemma Emplace_kept pos args v w :
  size_within_capacity v -> Capacity v <= SIZE_MAX ->
  size_ v * 2 <= SIZE_MAX ->
  kept1 (Emplace pos args v w).
Proof.
  intros Hv Hm Hd. unfold Emplace.
  destruct (negb _); [done|].
  destruct (Z.eqb_spec (size_ v) (Capacity v)) as [He|Hne].
  - destruct (grown_capacity v Hv He Hd) as [Hfit Hw].
    set (N := if size_ v =? 0 then 1 else wrap (size_ v * 2)) in *.
    unfold construct_at, place.
    repeat step_fields; close_fields.
  - destruct (Z.ltb_spec (size_ v) (Capacity v)); [|fields; lia].
    destruct (pos =? end_ v).
    + unfold construct_at, place. repeat step_fields; close_fields.
    + unfold ask at 1. destruct (throws _ _); [done|].
      repeat step_fields; close_fields.
Qed.

Lemma Erase_kept pos v w :
  size_within_capacity v -> Capacity v <= SIZE_MAX -> 0 < size_ v ->
  kept1 (Erase pos v w).
Proof.
  intros Hv Hm Hpos. unfold Erase.
  repeat step_fields; close_fields.
Qed.

Lemma PopBack_kept v w :
  size_within_capacity v -> Capacity v <= SIZE_MAX -> kept1 (PopBack v w).
Proof.
  intros Hv Hm. unfold PopBack. repeat step_fields; close_fields.
Qed.

Lemma Reserve_kept n v w :
  size_within_capacity v -> kept1 (Reserve n v w).
Proof.
  intros Hv. pose proof (Reserve_fields n v w) as H. unfold same_fields in H.
  destruct (Reserve n v w) as [[] [v' w'] | [v' w'] | |]; close_fields.
Qed.

Lemma Resize_kept n v w :
  size_within_capacity v -> 0 <= n <= SIZE_MAX -> kept1 (Resize n v w).
Proof.
  intros Hv Hn. unfold Resize.
  destruct (Z.eqb_spec n (size_ v)); [done|].
  destruct (Z.ltb_spec n (size_ v)); [close_fields|].
  repeat step_fields; close_fields.
Qed.

Lemma Vector_copy_fields other w :
  match Vector_copy other w with
  | Normal v' _ => Size v' = Size other /\ Capacity v' = Size other
  | _ => True
  end.
Proof.
  unfold Vector_copy, uninitialized_copy_n.
  repeat step_fields; close_fields.
Qed.

Lemma copy_assign_kept rhs v w :
  size_within_capacity v -> size_within_capacity rhs ->
  kept1 (copy_assign rhs v w).
Proof.
  intros Hv Hr. unfold copy_assign.
  destruct (Z.ltb_spec (Capacity v) (size_ rhs)).
  - pose proof (Vector_copy_fields rhs w) as HC.
    destruct (Vector_copy rhs w) as [v' w' | w' | |];
      cbn [andthen Swap RawMemory_Swap]; close_fields.
  - unfold uninitialized_copy_n. repeat step_fields; close_fields.
Qed.

Lemma Vector_sized_fields n w :
  match Vector_sized n w with
  | Normal v' _ => Size v' = n /\ Capacity v' = n
  | _ => True
  end.
Proof.
  unfold Vector_sized. repeat step_fields; close_fields.
Qed.

(** Started inside the invariant, with the doubling [size_ * 2] inside
    [size_t], every operation but [Erase] on an empty container ends inside
    it, on the way out by an exception too. *)
Theorem invariant_kept op v w :
  size_within_capacity v -> Capacity v <= SIZE_MAX ->
  Size v * 2 <= SIZE_MAX ->
  operands_fit op ->
  (forall pos, op = OpErase pos -> 0 < Size v) ->
  kept (perform op v w).
Proof.
  intros Hv Hm Hd Hop Hne.
  destruct op; cbn [perform operands_fit] in *.
  - close_fields.
  - pose proof (Vector_sized_fields size w) as H.
    destruct (Vector_sized size w) as [v' w' | w' | |]; close_fields.
  - pose proof (Vector_copy_fields v w) as H.
    destruct (Vector_copy v w) as [v' w' | w' | |]; close_fields.
  - unfold Vector_move, RawMemory_move_assign. close_fields.
  - destruct Hop as [Hr _].
    pose proof (copy_assign_kept rhs v w Hv Hr) as H.
    destruct (copy_assign rhs v w) as [[] [v' w'] | [v' w'] | |]; close_fields.
  - apply kept_only_this. by unfold copy_assign_self, kept1.
  - unfold move_assign, RawMemory_move_assign. close_fields.
  - unfold move_assign_self. close_fields.
  - unfold Swap, RawMemory_Swap. close_fields.
  - apply kept_only_this. by apply Reserve_kept.
  - apply kept_only_this. by apply Resize_kept.
  - apply kept_only_this. unfold PushBack.
    pose proof (EmplaceBack_kept value v w Hv Hm Hd) as H.
    by destruct (EmplaceBack value v w) as [r [v' w'] | [v' w'] | |].
  - apply kept_only_this. by apply EmplaceBack_kept.
  - apply kept_only_this. by apply PopBack_kept.
  - apply kept_only_this. by apply Emplace_kept.
  - apply kept_only_this. by apply Emplace_kept.
  - apply kept_only_this. apply Erase_kept; eauto.
Qed.

End InvariantFacts.

(** ** The class invariant, operation by operation *)

Section ClassInvariant.

Context {T Args Env : Type} `{Elt : !Element T Args Env}.
Implicit Types (b src dst : list (option T)) (i j : Z) (w : @world T Env)
  (v other rhs : @Vector T) (m : @RawMemory T).

Lemma copy_n_spec (n : nat) : forall src (first : Z) dst (d : Z) w,
  (forall i, 0 <= i < Z.of_nat n -> is_Some (at_ src (first + i))) ->
  (forall i, 0 <= i < Z.of_nat n -> is_Some (at_ dst (d + i))) ->
  match copy_n src first n dst d w with
  | Normal _ (dst', w') =>
      length dst' = length dst /\ leaked w' = leaked w /\
      (forall j, at_ dst' j =
         if (d <=? j) && (j <? d + Z.of_nat n)
         then at_ src (first + (j - d)) else at_ dst j)
  | Thrown (dst', w') =>
      ~ quiet /\ length dst' = length dst /\ leaked w' = leaked w /\
      (forall j, is_Some (at_ dst' j) <-> is_Some (at_ dst j))
  | AssertFail | Undefined => False
  end.
Proof.
  induction n as [|n IH]; intros src first dst d w Hsrc Hdst.
  - simpl. repeat split; try done. intros j. zdone.
  - cbn [copy_n].
    destruct (Hsrc 0 ltac:(lia)) as [x Hx]. rewrite Z.add_0_r in Hx.
    destruct (Hdst 0 ltac:(lia)) as [y Hy]. rewrite Z.add_0_r in Hy.
    rewrite Hx, Hy. unfold ask.
    destruct (throws (CopyAssign y x) (env w)) eqn:Et.
    { repeat split; try done. intros Hq. by rewrite Hq in Et. }
    set (dst1 := store dst d (Some x)). set (w1 := Build_world _ _).
    assert (Hin : inside dst d = true)
      by (apply inside_true, at_is_Some_inside; eauto).
    assert (Hd1 : forall j, at_ dst1 j = if j =? d then Some x else at_ dst j).
    { intros j. subst dst1. rewrite at_store, Hin. zdone. }
    assert (IH' := IH src (first + 1) dst1 (d + 1) w1). clear IH.
    assert (Hp1 : forall i, 0 <= i < Z.of_nat n ->
                   is_Some (at_ src (first + 1 + i))).
    { intros i Hi. replace (first + 1 + i) with (first + (i + 1)) by lia.
      apply Hsrc. lia. }
    assert (Hp2 : forall i, 0 <= i < Z.of_nat n ->
                   is_Some (at_ dst1 (d + 1 + i))).
    { intros i Hi. rewrite Hd1. zcases; [lia|].
      replace (d + 1 + i) with (d + (i + 1)) by lia. apply Hdst. lia. }
    specialize (IH' Hp1 Hp2).
    destruct (copy_n src (first + 1) n dst1 (d + 1) w1)
      as [[] [dst' w'] | [dst' w'] | |]; try done.
    + destruct IH' as (L & Hleak & Hat).
      split; [subst dst1; by rewrite length_store in L|]. split; [done|].
      intros j. rewrite Hat, Hd1. zdone; by use_at Hx.
    + destruct IH' as (Hq & L & Hleak & Hat).
      split; [done|]. split; [subst dst1; by rewrite length_store in L|].
      split; [done|]. intros j. rewrite Hat, Hd1. zcases; [|done].
      subst. rewrite Hy. split; eauto.
Qed.

Lemma well_formed_empty : well_formed (@Vector_default T).
Proof.
  unfold well_formed, Vector_default, RawMemory_default, Capacity, SIZE_MAX.
  simpl. split_and!; try lia.
Qed.

Lemma valid_empty : valid (@Vector_default T).
Proof.
  split; [apply well_formed_empty|].
  unfold Capacity, PTRDIFF_MAX. simpl. lia.
Qed.

Lemma valid_moved_from :
  valid {| data_ := {| buffer_ := @nil (option T); capacity_ := 0 |};
           size_ := 0 |}.
Proof. apply valid_empty. Qed.

Lemma valid_eta v :
  valid v ->
  valid {| data_ := {| buffer_ := buffer_ (data_ v);
                       capacity_ := capacity_ (data_ v) |};
           size_ := size_ v |}.
Proof. by destruct v as [[] ?]. Qed.

Lemma well_formed_moved_from :
  well_formed {| data_ := {| buffer_ := @nil (option T); capacity_ := 0 |};
           size_ := 0 |}.
Proof. apply well_formed_empty. Qed.

Lemma well_formed_eta v :
  well_formed v ->
  well_formed {| data_ := {| buffer_ := buffer_ (data_ v);
                       capacity_ := capacity_ (data_ v) |};
           size_ := size_ v |}.
Proof. by destruct v as [[] ?]. Qed.

Lemma Vector_sized_spec (n : Z) w :
  0 <= n -> n * sizeof <= SIZE_MAX ->
  match Vector_sized n w with
  | Normal v' w' =>
      well_formed v' /\ tight v' /\ Size v' = n /\ Capacity v' = n /\
      (forall i, 0 <= i < n -> element v' i = Some value_init)
  | Thrown w' => ~ quiet /\ leaked w' = leaked w
  | AssertFail | Undefined => False
  end.
Proof.
  intros Hn Hb. unfold Vector_sized, RawMemory_new, element.
  assert (Hmax : n <= SIZE_MAX) by (by apply count_le_bytes).
  pose proof (Allocate_spec n w Hn Hb) as HA.
  destruct (Allocate n w) as [b w1 | w1 | |]; cbn [andthen id]; try done.
  destruct HA as [-> HA].
  set (d := {| buffer_ := _; capacity_ := n |}).
  assert (Hd : forall j, at_ (buffer_ d) j = None)
    by (intros j; apply at_replicate_None).
  assert (Ld : Z.of_nat (length (buffer_ d)) = n)
    by (simpl; rewrite length_replicate; lia).
  pose proof (value_construct_spec (Z.to_nat n) (buffer_ d) 0 w1) as H.
  rewrite Z2Nat.id in H by lia.
  specialize (H ltac:(lia) ltac:(lia)).
  destruct (uninitialized_value_construct_n _ 0 _ w1)
    as [[] [b' w'] | [b' w'] | |]; cbn [andthen fst snd]; try done.
  - destruct H as (L & Hat & _).
    unfold well_formed, tight, Size, Capacity.
    cbn [size_ data_ set_raw buffer_ capacity_]. rewrite L.
    split_and!; try done; try lia; try (simpl; lia).
    + intros i Hi. rewrite Hat. zcases; eauto; lia.
    + intros i Hi. rewrite Hat, Hd. zdone.
    + intros i Hi. rewrite Hat. zdone.
  - destruct H as (Hq & _ & _ & Hsame).
    destruct (Hsame (fun j _ => Hd j)) as [-> Hleak].
    split; [done|]. rewrite leaked_destroy_None; [congruence | done].
Qed.

Lemma copy_assign_fields rhs v w :
  match copy_assign rhs v w with
  | Normal _ (v', _) =>
      Capacity v' =
        (if Capacity v <? Size rhs then Size rhs else Capacity v)
  | Thrown (v', _) =>
      Size v' = Size v /\ Capacity v' = Capacity v /\
      (Capacity v < Size rhs -> v' = v)
  | AssertFail | Undefined => True
  end.
Proof.
  unfold copy_assign, Size.
  destruct (Z.ltb_spec (Capacity v) (size_ rhs)) as [Hlt|Hge].
  - pose proof (Vector_copy_fields rhs w) as HC.
    destruct (Vector_copy rhs w) as [c w1 | w1 | |];
      cbn [andthen Swap RawMemory_Swap]; try done.
    destruct HC as [_ HC]. by fields.
  - unfold uninitialized_copy_n.
    repeat step_call; fields; split_and?; try done; lia.
Qed.

Lemma copy_assign_spec rhs v w :
  well_formed v -> well_formed rhs -> Size rhs * sizeof <= SIZE_MAX ->
  match copy_assign rhs v w with
  | Normal _ (v', w') =>
      well_formed v' /\ Size v' = Size rhs /\
      (forall i, 0 <= i < Size rhs -> element v' i = element rhs i)
  | Thrown (v', w') => ~ quiet /\ well_formed v'
  | AssertFail | Undefined => False
  end.
Proof.
  intros Hv Hr Hb. unfold copy_assign, element, Size.
  assert (Hv' := Hv). destruct Hv' as (Hs & Hc & Hm & Hl).
  assert (Hr' := Hr). destruct Hr' as (Hsr & Hcr & Hmr & Hlr).
  destruct (Z.ltb_spec (Capacity v) (size_ rhs)) as [Hlt|Hge].
  - (* copy and swap *)
    pose proof (Vector_copy_spec rhs w Hr Hb) as HC.
    destruct (Vector_copy rhs w) as [c w1 | w1 | |]; cbn [andthen]; try done.
    + destruct HC as (Hvc & _ & Hcc & Hsc & Hat & _).
      unfold Swap, RawMemory_Swap, Size in *. cbn.
      split_and!; try done; by apply well_formed_eta.
    + destruct HC as [Hq _]. by split.
  - destruct (Z.ltb_spec (size_ rhs) (size_ v)) as [Hshrink|Hgrow].
    + (* fewer elements than before *)
      pose proof (copy_n_spec (Z.to_nat (size_ rhs)) (buffer_ (data_ rhs)) 0
                    (buffer_ (data_ v)) 0 w) as H.
      rewrite Z2Nat.id in H by lia.
      specialize (H ltac:(intros i Hi; apply Hlr; lia)
                    ltac:(intros i Hi; apply Hl; lia)).
      destruct (copy_n _ 0 _ _ 0 w) as [[] [b' w'] | [b' w'] | |];
        cbn [andthen id fst snd]; try done.
      * destruct H as (L & _ & Hat).
        rewrite wrap_small by lia.
        assert (Hres : forall i,
          at_ (destroy_n b' (0 + size_ rhs)
                 (Z.to_nat (size_ v - size_ rhs))) i =
          if (0 <=? i) && (i <? size_ rhs) then at_ (buffer_ (data_ rhs)) i
          else if (size_ rhs <=? i) && (i <? size_ v) then None
               else at_ (buffer_ (data_ v)) i).
        { intros i. rewrite at_destroy_n, Hat. zdone. }
        unfold well_formed, Capacity in *.
        cbn [size_ data_ set_size set_buffer set_raw buffer_ capacity_].
        rewrite length_destroy_n, L. split_and!; try done; try lia.
        -- intros i Hi. rewrite Hres. zdone. apply Hlr. lia.
        -- intros i Hi. rewrite Hres. zdone.
      * destruct H as (Hq & L & _ & Hsome).
        split; [done|]. apply well_formed_set_buffer; [done..|].
        intros j Hj. apply Hsome. by apply Hl.
    + (* at least as many elements as before *)
      pose proof (copy_n_spec (Z.to_nat (size_ v)) (buffer_ (data_ rhs)) 0
                    (buffer_ (data_ v)) 0 w) as H.
      rewrite Z2Nat.id in H by lia.
      specialize (H ltac:(intros i Hi; apply Hlr; lia)
                    ltac:(intros i Hi; apply Hl; lia)).
      destruct (copy_n _ 0 _ _ 0 w) as [[] [b' w'] | [b' w'] | |];
        cbn [andthen id fst snd]; try done.
      2:{ destruct H as (Hq & L & _ & Hsome).
          split; [done|]. apply well_formed_set_buffer; [done..|].
          intros j Hj. apply Hsome. by apply Hl. }
      destruct H as (L & _ & Hat).
      rewrite wrap_small by lia. unfold uninitialized_copy_n.
      set (k := Z.to_nat (size_ rhs - size_ v)).
      pose proof (transfer_spec false k (buffer_ (data_ rhs)) (0 + size_ v)
                    b' (0 + size_ v) w') as H2.
      unfold Capacity in *.
      specialize (H2 ltac:(intros i Hi; apply Hlr; lia) ltac:(lia) ltac:(lia)).
      destruct (uninitialized_transfer false _ _ k b' _ w')
        as [[] [[src2 dst2] w2] | [[src2 dst2] w2] | |];
        cbn [andthen id fst snd]; try done.
      * destruct H2 as (_ & L2 & Hat2 & _).
        unfold well_formed, Capacity in *.
        cbn [size_ data_ set_size set_buffer set_raw buffer_ capacity_].
        rewrite L2, L. split_and!; try done; try lia.
        -- intros i Hi. rewrite Hat2, Hat. zdone; apply Hlr; lia.
        -- intros i Hi. rewrite Hat2, Hat. zdone.
      * destruct H2 as (Hq & _ & L2 & Hout & _).
        split; [done|]. apply well_formed_set_buffer; [done|congruence|].
        intros j Hj. rewrite Hout by lia. rewrite Hat. zdone; apply Hlr; lia.
Qed.

Lemma EmplaceBack_room args v w :
  well_formed v -> size_ v < Capacity v ->
  match EmplaceBack args v w with
  | Normal r (v', w') =>
      well_formed v' /\ Size v' = Size v + 1 /\ Capacity v' = Capacity v /\
      r = Size v /\ element v' r = Some (make args) /\
      (forall i, 0 <= i < Size v -> element v' i = element v i)
  | Thrown (v', w') => ~ quiet /\ v' = v
  | AssertFail | Undefined => False
  end.
Proof.
  intros Hv Hlt. unfold EmplaceBack, element, Size.
  assert (Hv' := Hv). destruct Hv' as (Hs & Hc & Hm & Hl).
  destruct (Z.eqb_spec (size_ v) (Capacity v)); [lia|].
  destruct (Z.ltb_spec (size_ v) (Capacity v)); [|lia].
  unfold construct_at, ask.
  destruct (throws (Construct args) (env w)) eqn:Et; cbn [andthen fst snd id].
  { rewrite set_buffer_same. split; [|done]. intros Hq. by rewrite Hq in Et. }
  rewrite place_inside by lia. cbn [andthen fst snd id].
  unfold return_slot, RawMemory_index.
  cbn [size_ data_ set_size set_buffer set_raw buffer_ capacity_].
  rewrite (wrap_small (size_ v + 1)) by lia.
  replace (size_ v + 1 - 1) with (size_ v) by lia.
  rewrite (wrap_small (size_ v)) by lia. unfold Capacity in *.
  destruct (Z.ltb_spec (size_ v) (capacity_ (data_ v))); [|lia].
  cbn [andthen].
  assert (Hb1 : forall j,
    at_ (store (buffer_ (data_ v)) (size_ v) (Some (make args))) j =
    if j =? size_ v then Some (make args) else at_ (buffer_ (data_ v)) j).
  { intros j. rewrite at_store, (proj2 (inside_true _ _)) by lia. zdone. }
  unfold well_formed, Capacity.
  cbn [size_ data_ set_size set_buffer set_raw buffer_ capacity_].
  rewrite length_store. split_and!; try done; try lia.
  - intros i Hi. rewrite Hb1. zcases; eauto. apply Hl. lia.
  - rewrite Hb1. zdone.
  - intros i Hi. rewrite Hb1. zdone.
Qed.

Lemma PopBack_spec v w :
  well_formed v -> 0 < size_ v ->
  exists v',
    PopBack v w = Normal tt (v', w) /\
    well_formed v' /\ Size v' = Size v - 1 /\ Capacity v' = Capacity v /\
    element v' (Size v - 1) = None /\
    (forall i, i <> Size v - 1 -> element v' i = element v i).
Proof.
  intros Hv Hpos. unfold PopBack, element, Size.
  assert (Hv' := Hv). destruct Hv' as (Hs & Hc & Hm & Hl).
  destruct (Z.ltb_spec 0 (size_ v)); [|lia].
  rewrite wrap_small by lia. eexists. split; [done|].
  assert (Hat : forall i,
    at_ (destroy_n (buffer_ (data_ v)) (size_ v - 1) 1) i =
    if i =? size_ v - 1 then None else at_ (buffer_ (data_ v)) i).
  { intros i. rewrite at_destroy_n. zdone. }
  unfold well_formed, Capacity in *.
  cbn [size_ data_ set_size set_buffer set_raw buffer_ capacity_].
  rewrite length_destroy_n. split_and!; try done; try lia.
  - intros i Hi. rewrite Hat. zdone. apply Hl. lia.
  - rewrite Hat. zdone.
  - intros i Hi. rewrite Hat. zdone.
Qed.

Lemma Emplace_outside pos args v w :
  ~ 0 <= pos <= size_ v -> Emplace pos args v w = AssertFail.
Proof.
  intros Hp.
  assert (H : negb ((begin_ v <=? pos) && (pos <=? end_ v)) = true)
    by (unfold begin_, end_; zcases; try reflexivity; lia).
  unfold Emplace. rewrite H. reflexivity.
Qed.

Lemma sound_only_this {R} (o : outcome R (@Vector T * @world T Env)) :
  sound1 o -> sound (only_this o).
Proof.
  unfold sound1, sound, only_this.
  destruct o as [r [v' w'] | [v' w'] | |]; simpl; auto.
Qed.

Lemma valid_copy_assign rhs v w :
  valid v -> valid rhs ->
  match copy_assign rhs v w with
  | Normal _ (v', w') =>
      valid v' /\ Size v' = Size rhs /\
      (forall i, 0 <= i < Size rhs -> element v' i = element rhs i)
  | Thrown (v', w') => ~ quiet /\ valid v'
  | AssertFail | Undefined => False
  end.
Proof.
  intros Hv Hr. pose proof PTRDIFF_MAX_le_SIZE_MAX as HM.
  assert (Hb := valid_size_bytes rhs Hr).
  pose proof (copy_assign_spec rhs v w (proj1 Hv) (proj1 Hr)
                (Z.le_trans _ _ _ Hb HM)) as H.
  pose proof (copy_assign_fields rhs v w) as HF.
  destruct (copy_assign rhs v w) as [[] [v' w'] | [v' w'] | |]; try done.
  - destruct H as (Hv' & Hs & Hat). split_and!; try done.
    destruct (Capacity v <? Size rhs).
    + by apply (valid_capacity_size rhs).
    + by apply (valid_capacity v).
  - destruct H as (Hq & Hv'). destruct HF as (_ & Hc & _).
    split; [done|]. by apply (valid_capacity v).
Qed.

Lemma EmplaceBack_sound args v w :
  valid v -> size_ v * 2 * sizeof <= PTRDIFF_MAX ->
  sound1 (EmplaceBack args v w).
Proof.
  intros Hval Hd. assert (Hv := proj1 Hval). unfold sound1.
  assert (H0 : 0 <= size_ v) by (destruct Hv as ((? & ?) & _); lia).
  destruct (Z.eq_dec (size_ v) (Capacity v)) as [He|Hne].
  - pose proof (EmplaceBack_full args v w Hv He (valid_doubling v Hval)) as H.
    destruct (EmplaceBack args v w) as [r [v' w'] | [v' w'] | |]; try done.
    + destruct H as (Hv' & _ & Hc & _). apply valid_intro; [done|].
      rewrite Hc, <- He. by apply grown_bytes.
    + destruct H as (_ & Hv' & _ & Hc & _). by apply (valid_capacity v).
  - assert (Hlt : size_ v < Capacity v) by (destruct Hv as ((? & ?) & _); lia).
    pose proof (EmplaceBack_room args v w Hv Hlt) as H.
    destruct (EmplaceBack args v w) as [r [v' w'] | [v' w'] | |]; try done.
    + destruct H as (Hv' & _ & Hc & _). by apply (valid_capacity v).
    + by destruct H as (_ & ->).
Qed.

Lemma Emplace_sound pos args v w :
  valid v -> size_ v * 2 * sizeof <= PTRDIFF_MAX ->
  sound1 (Emplace pos args v w).
Proof.
  intros Hval Hd. assert (Hv := proj1 Hval). unfold sound1.
  assert (H0 : 0 <= size_ v) by (destruct Hv as ((? & ?) & _); lia).
  destruct (decide (0 <= pos <= size_ v)) as [Hp|Hp].
  - pose proof (Emplace_spec pos args v w Hv Hp (valid_doubling v Hval)) as H.
    pose proof (Emplace_capacity pos args v w Hv Hp (valid_doubling v Hval))
      as HC.
    destruct (Emplace pos args v w) as [r [v' w'] | [v' w'] | |]; try done.
    + destruct H as (Hv' & _). by apply (valid_grown v).
    + destruct H as (_ & Hv' & _ & Hc). by apply (valid_capacity v).
  - by rewrite Emplace_outside.
Qed.

Lemma Reserve_sound n v w :
  valid v -> 0 <= n -> n * sizeof <= PTRDIFF_MAX -> sound1 (Reserve n v w).
Proof.
  intros Hval Hn Hb. assert (Hv := proj1 Hval). unfold sound1.
  pose proof PTRDIFF_MAX_le_SIZE_MAX as HM.
  destruct (Z.le_gt_cases n (Capacity v)) as [Hle|Hgt].
  - unfold Reserve. fold (Capacity v).
    by destruct (Z.leb_spec n (Capacity v)); [|lia].
  - pose proof (Reserve_grow n v w Hv ltac:(lia) (Z.le_trans _ _ _ Hb HM)) as H.
    destruct (Reserve n v w) as [[] [v' w'] | [v' w'] | |]; try done.
    + destruct H as (Hv' & _ & Hc & _). apply valid_intro; [done|].
      by rewrite Hc.
    + destruct H as (_ & Hv' & _ & Hc & _). by apply (valid_capacity v).
Qed.

Lemma Resize_sound n v w :
  valid v -> 0 <= n -> n * sizeof <= PTRDIFF_MAX -> sound1 (Resize n v w).
Proof.
  intros Hval Hn Hb. assert (Hv := proj1 Hval). unfold sound1.
  pose proof PTRDIFF_MAX_le_SIZE_MAX as HM.
  assert (Hmax : Z.max n (Capacity v) * sizeof <= PTRDIFF_MAX).
  { destruct (Z.max_spec n (Capacity v)) as [[_ ->]|[_ ->]];
      [apply Hval | done]. }
  destruct (Z.lt_trichotomy n (size_ v)) as [Hlt|[->|Hgt]].
  - destruct (Resize_shrink n v w Hv ltac:(lia)) as (v' & -> & Hv' & _ & Hc & _).
    by apply (valid_capacity v).
  - by rewrite Resize_same.
  - pose proof (Resize_grow n v w Hv Hgt (Z.le_trans _ _ _ Hb HM)) as H.
    destruct (Resize n v w) as [[] [v' w'] | [v' w'] | |]; try done.
    + destruct H as (Hv' & _ & _ & Hc & _). apply valid_intro; [done|].
      by rewrite Hc.
    + destruct H as (_ & Hv' & _ & Hc). apply valid_intro; [done|].
      apply (bytes_mono _ (Z.max n (Capacity v))); [|done].
      destruct Hv' as ((? & ?) & _). lia.
Qed.

Lemma PopBack_sound v w : valid v -> sound1 (PopBack v w).
Proof.
  intros Hval. unfold sound1.
  destruct (decide (0 < size_ v)) as [Hpos|Hpos].
  - destruct (PopBack_spec v w (proj1 Hval) Hpos) as (v' & -> & ? & _ & ? & _).
    by apply (valid_capacity v).
  - unfold PopBack. by destruct (Z.ltb_spec 0 (size_ v)); [lia|].
Qed.

Lemma Erase_sound pos v w :
  valid v -> 0 <= pos < size_ v -> sound1 (Erase pos v w).
Proof.
  intros Hval Hin. unfold sound1.
  pose proof (Erase_spec pos v w (proj1 Hval) Hin) as H.
  destruct (Erase pos v w) as [r [v' w'] | [v' w'] | |]; try done.
  - destruct H as (? & _ & ? & _). by apply (valid_capacity v).
  - destruct H as (_ & ? & _ & ? & _). by apply (valid_capacity v).
Qed.

Lemma Vector_sized_sound n w :
  0 <= n -> n * sizeof <= PTRDIFF_MAX ->
  match Vector_sized n w with
  | Normal v' _ => valid v'
  | Thrown _ => True
  | AssertFail | Undefined => False
  end.
Proof.
  intros Hn Hb. pose proof PTRDIFF_MAX_le_SIZE_MAX as HM.
  pose proof (Vector_sized_spec n w Hn (Z.le_trans _ _ _ Hb HM)) as H.
  destruct (Vector_sized n w) as [v' w' | w' | |]; try done.
  destruct H as (Hv' & _ & _ & Hc & _). apply valid_intro; [done|].
  by rewrite Hc.
Qed.

Lemma Vector_copy_sound other w :
  valid other ->
  match Vector_copy other w with
  | Normal v' _ => valid v'
  | Thrown _ => True
  | AssertFail | Undefined => False
  end.
Proof.
  intros Hval. pose proof PTRDIFF_MAX_le_SIZE_MAX as HM.
  assert (Hb := valid_size_bytes other Hval).
  pose proof (Vector_copy_spec other w (proj1 Hval)
                (Z.le_trans _ _ _ Hb HM)) as H.
  destruct (Vector_copy other w) as [v' w' | w' | |]; try done.
  destruct H as (Hv' & _ & Hc & _). by apply (valid_capacity_size other).
Qed.

Ltac each_container :=
  unfold sound; cbn [andthen fst snd];
  rewrite ?Forall_cons, ?Forall_nil;
  repeat match goal with
  | |- valid _ /\ _ => split
  | |- True => exact I
  | |- valid _ => assumption
  end.

(** Started on a valid container, with valid operands (a requested size
    or capacity is that of a block that can exist), [Erase] at the position
    of an element and the doubled block, [size_ * 2 * sizeof(T)] bytes,
    one that can exist, every operation leaves valid containers behind or
    stops at an [assert]; none runs into undefined behaviour. *)
Theorem class_invariant_kept op v w :
  valid v -> operands_valid op -> in_contract op v ->
  Size v * 2 * sizeof <= PTRDIFF_MAX ->
  sound (perform op v w).
Proof.
  intros Hv Hop Hin Hd. unfold Size in *.
  destruct op; cbn [perform operands_valid in_contract] in *.
  - each_container. apply valid_empty.
  - destruct Hop as [Hn Hb].
    pose proof (Vector_sized_sound size w Hn Hb) as H.
    destruct (Vector_sized size w) as [v' w' | w' | |]; each_container;
      done.
  - pose proof (Vector_copy_sound v w Hv) as H.
    destruct (Vector_copy v w) as [v' w' | w' | |]; each_container;
      done.
  - unfold Vector_move, RawMemory_move_assign. each_container.
    apply valid_moved_from.
  - pose proof (valid_copy_assign rhs v w Hv Hop) as H.
    destruct (copy_assign rhs v w) as [[] [v' w'] | [v' w'] | |];
      each_container; try done.
    + by destruct H as (Hv' & _).
    + by destruct H as (_ & Hv').
  - apply sound_only_this. by unfold copy_assign_self, sound1.
  - unfold move_assign, RawMemory_move_assign. each_container.
    apply valid_moved_from.
  - unfold move_assign_self. each_container.
  - unfold Swap, RawMemory_Swap. each_container.
  - apply sound_only_this. destruct Hop. by apply Reserve_sound.
  - apply sound_only_this. destruct Hop. by apply Resize_sound.
  - apply sound_only_this. unfold PushBack.
    pose proof (EmplaceBack_sound value v w Hv Hd) as H.
    by destruct (EmplaceBack value v w) as [r [v' w'] | [v' w'] | |].
  - apply sound_only_this. by apply EmplaceBack_sound.
  - apply sound_only_this. by apply PopBack_sound.
  - apply sound_only_this. by apply Emplace_sound.
  - apply sound_only_this. by apply Emplace_sound.
  - apply sound_only_this. by apply Erase_sound.
Qed.

(** Copy assignment between two valid containers: on return the target
    has the size and the values of [rhs]; on an exception it is still
    valid. *)
Theorem copy_assign_contract rhs v w :
  valid v -> valid rhs ->
  match copy_assign rhs v w with
  | Normal _ (v', w') =>
      Size v' = Size rhs /\ contents v' = contents rhs /\ valid v'
  | Thrown (v', w') => ~ quiet /\ valid v'
  | AssertFail | Undefined => False
  end.
Proof.
  intros Hv Hr. pose proof (valid_copy_assign rhs v w Hv Hr) as H.
  destruct (copy_assign rhs v w) as [[] [v' w'] | [v' w'] | |]; try done.
  destruct H as (Hv' & Hs & Hat). split_and!; try done.
  unfold contents. f_equal.
  apply elements_eq; [apply Hr | apply Hv' | done | done].
Qed.

End ClassInvariant.

(** ** Where the code leaves its contract *)

Section FailureFacts.

Context {T Args Env : Type} `{Elt : !Element T Args Env}.
Implicit Types (w : @world T Env) (v : @Vector T).

(** Claim C1, at the input where the code leaves the invariant: [Erase]
    has no [assert] to match that of [PopBack], so on an empty container
    [--size_] wraps to [SIZE_MAX] while the capacity stays 0. *)
Theorem Erase_on_empty_leaves_invariant w :
  size_within_capacity (@Vector_default T) /\
  perform (OpErase 0) Vector_default w =
    Normal tt ([set_size Vector_default SIZE_MAX], w) /\
  ~ size_within_capacity (set_size (@Vector_default T) SIZE_MAX) /\
  perform OpPopBack Vector_default w = AssertFail.
Proof.
  split_and!.
  - unfold size_within_capacity, Size, Capacity. simpl. lia.
  - reflexivity.
  - unfold size_within_capacity, Size, Capacity, SIZE_MAX. simpl. lia.
  - reflexivity.
Qed.

(** What does hold when growth fails: the container is the one from before
    the call. *)
Theorem growth_failure_keeps_container v w :
  valid v -> copy_constructible = true ->
  (forall new_capacity, Capacity v < new_capacity <= SIZE_MAX ->
     match Reserve new_capacity v w with
     | Thrown (v', w') => v' = v /\ leaked w' = leaked w
     | _ => True
     end) /\
  (forall args, Size v = Capacity v -> Size v * 2 <= SIZE_MAX ->
     match EmplaceBack args v w with
     | Thrown (v', _) => v' = v
     | _ => True
     end) /\
  (forall pos args,
     0 <= pos <= Size v -> Size v = Capacity v -> Size v * 2 <= SIZE_MAX ->
     match Emplace pos args v w with
     | Thrown (v', _) => v' = v
     | _ => True
     end).
Proof.
  intros Hval Hc. assert (Hv := proj1 Hval).
  assert (Hd := valid_doubling v Hval). unfold Size. split_and!.
  - intros n _. pose proof (Reserve_thrown n v w Hv) as H.
    destruct (Reserve n v w) as [[] [v' w'] | [v' w'] | |]; try done.
    destruct H as (_ & _ & _ & _ & Hsame & _ & Hleak). auto.
  - intros args He _.
    pose proof (EmplaceBack_full args v w Hv He Hd) as H.
    destruct (EmplaceBack args v w) as [r [v' w'] | [v' w'] | |]; try done.
    destruct H as (_ & _ & _ & _ & Hsame & _). auto.
  - intros pos args Hp He _.
    pose proof (Emplace_grow pos args v w Hv Hp He Hd) as H.
    destruct (Emplace pos args v w) as [r [v' w'] | [v' w'] | |]; try done.
    destruct H as (_ & _ & _ & _ & Hsame). auto.
Qed.

End FailureFacts.

(** Claim C2, at inputs where a copy throws during the transfer: the
    container is left as it was, but the element [EmplaceBack] and [Emplace]
    had already built in the new block is lost without its destructor (in
    [Emplace], with the prefix copied before the failure); [Reserve], which
    builds nothing beforehand, loses nothing. *)
Theorem growth_failure_leaks_new_element :
  EmplaceBack (Elt := budgeted_element) 20 (filled [10])
    {| env := 0%nat; leaked := [] |} =
  Thrown (filled [10], {| env := 0%nat; leaked := [20] |}) /\
  Emplace (Elt := budgeted_element) 1 20 (filled [10; 11])
    {| env := 1%nat; leaked := [] |} =
  Thrown (filled [10; 11], {| env := 0%nat; leaked := [10; 20] |}) /\
  Reserve (Elt := budgeted_element) 2 (filled [10])
    {| env := 0%nat; leaked := [] |} =
  Thrown (filled [10], {| env := 0%nat; leaked := [] |}).
Proof. split_and!; vm_compute; reflexivity. Qed.


(** The scenario of the specification on ints: three appends to an empty
    container, an erase in the middle, an insert at the front. *)
Example push_erase_insert_scenario :
  let v3 := {| data_ := {| buffer_ := [Some 1; Some 2; Some 3; None];
                           capacity_ := 4 |}; size_ := 3 |} in
  let v4 := {| data_ := {| buffer_ := [Some 1; Some 3; None; None];
                           capacity_ := 4 |}; size_ := 2 |} in
  let v5 := {| data_ := {| buffer_ := [Some 0; Some 1; Some 3; None];
                           capacity_ := 4 |}; size_ := 3 |} in
  andthen (PushBack 1 Vector_default calm) id (fun _ '(v, w) =>
  andthen (PushBack 2 v w) id (fun _ '(v, w) => PushBack 3 v w)) =
    Normal tt (v3, calm) /\
  contents v3 = [1; 2; 3] /\ Size v3 = 3 /\ 3 <= Capacity v3 /\
  Erase 1 v3 calm = Normal 1 (v4, calm) /\
  contents v4 = [1; 3] /\ Size v4 = 2 /\
  Insert 0 0 v4 calm = Normal 0 (v5, calm) /\
  contents v5 = [0; 1; 3] /\ Size v5 = 3.
Proof.
  cbv zeta. split_and!; vm_compute; (reflexivity || discriminate).
Qed.

(** ** The live range as a sequence of values *)

Section SequenceFacts.

Context {T Args Env : Type} `{Elt : !Element T Args Env}.
Implicit Types (b src dst : list (option T)) (i j : Z) (w : @world T Env)
  (v other rhs : @Vector T) (m : @RawMemory T) (l c : list T).

Lemma live_Some l : live (Some <$> l) = l.
Proof. unfold live. induction l as [|x l IH]; simpl; [done | f_equal; exact IH]. Qed.

Lemma live_app b b' : live (b ++ b') = live b ++ live b'.
Proof. apply omap_app. Qed.

Lemma live_replicate_None (n : nat) : live (replicate n (@None T)) = [].
Proof. induction n; [done|]. done. Qed.

Lemma at_fmap_Some l i : 0 <= i -> at_ (Some <$> l) i = l !! Z.to_nat i.
Proof.
  intros Hi. unfold at_. destruct (Z.leb_spec 0 i); [|lia].
  rewrite list_lookup_fmap. by destruct (l !! Z.to_nat i).
Qed.

Lemma at_lookup b i : 0 <= i -> at_ b i = mjoin (b !! Z.to_nat i).
Proof.
  intros Hi. unfold at_. destruct (Z.leb_spec 0 i); [|lia].
  by destruct (b !! Z.to_nat i).
Qed.

Lemma at_app b b' i :
  at_ (b ++ b') i =
  if i <? Z.of_nat (length b) then at_ b i
  else at_ b' (i - Z.of_nat (length b)).
Proof.
  unfold at_. destruct (Z.leb_spec 0 i).
  - destruct (Z.ltb_spec i (Z.of_nat (length b))).
    + rewrite lookup_app_l; [done | lia].
    + destruct (Z.leb_spec 0 (i - Z.of_nat (length b))); [|lia].
      rewrite lookup_app_r by lia. do 2 f_equal. lia.
  - destruct (Z.ltb_spec i (Z.of_nat (length b))); [done|lia].
Qed.

Lemma at_drop b (n : nat) i : 0 <= i -> at_ (drop n b) i = at_ b (i + Z.of_nat n).
Proof.
  intros Hi. unfold at_.
  destruct (Z.leb_spec 0 i); [|lia].
  destruct (Z.leb_spec 0 (i + Z.of_nat n)); [|lia].
  rewrite lookup_drop. do 2 f_equal. lia.
Qed.

(** a block of live objects only is the image of its values *)
Lemma all_live b : Forall is_Some b -> Some <$> live b = b.
Proof.
  unfold live. induction 1 as [|s b [x ->] _ IH]; simpl; [done|].
  f_equal. exact IH.
Qed.

Lemma elements_live v : well_formed v -> Some <$> contents v = elements v.
Proof.
  intros (Hs & Hc & _ & Hl). unfold contents. apply all_live.
  apply Forall_lookup. intros n s Hn. unfold elements in Hn.
  apply lookup_take_Some in Hn as [Hn Hlt].
  specialize (Hl (Z.of_nat n) ltac:(lia)).
  rewrite at_lookup, Nat2Z.id, Hn in Hl by lia. done.
Qed.

Lemma length_contents v :
  well_formed v -> Z.of_nat (length (contents v)) = size_ v.
Proof.
  intros Hv. pose proof (elements_live v Hv) as H.
  apply (f_equal length) in H. rewrite length_fmap in H. rewrite H.
  destruct Hv as (Hs & Hc & _). unfold elements, Capacity in *.
  rewrite length_take_le; lia.
Qed.

(** the object at a live index is the value at that place of the sequence *)
Lemma contents_at v i :
  well_formed v -> 0 <= i < size_ v ->
  at_ (buffer_ (data_ v)) i = contents v !! Z.to_nat i.
Proof.
  intros Hv Hi. rewrite <- at_fmap_Some by lia.
  rewrite (elements_live v Hv). unfold elements.
  by rewrite at_take by lia.
Qed.

(** a container whose live slots hold the values of [l], in order, has the
    contents [l] *)
Lemma contents_intro v l :
  0 <= size_ v <= Z.of_nat (length (buffer_ (data_ v))) ->
  size_ v = Z.of_nat (length l) ->
  (forall i, 0 <= i < size_ v -> at_ (buffer_ (data_ v)) i = l !! Z.to_nat i) ->
  contents v = l.
Proof.
  intros Hs Hlen Hat. unfold contents. rewrite <- (live_Some l). f_equal.
  unfold elements. apply buffer_eq.
  - rewrite length_take_le, length_fmap; lia.
  - intros i Hi. rewrite length_take_le in Hi by lia.
    rewrite at_take, at_fmap_Some by lia. apply Hat. lia.
Qed.

Lemma well_formed_fits v :
  well_formed v -> 0 <= size_ v <= Z.of_nat (length (buffer_ (data_ v))).
Proof. intros (Hs & Hc & _). unfold Capacity in *. lia. Qed.

(** two well-formed containers with the same objects at the live indices
    have the same contents *)
Lemma contents_eq v v' :
  well_formed v -> well_formed v' -> size_ v' = size_ v ->
  (forall i, 0 <= i < size_ v ->
     at_ (buffer_ (data_ v')) i = at_ (buffer_ (data_ v)) i) ->
  contents v' = contents v.
Proof. intros Hv Hv' Hs Hat. unfold contents. f_equal. by apply elements_eq. Qed.

(** a tight block holds its contents and nothing else *)
Lemma live_tight v :
  well_formed v -> tight v -> live (buffer_ (data_ v)) = contents v.
Proof.
  intros Hv Ht. unfold contents, elements.
  rewrite <- (take_drop (Z.to_nat (size_ v)) (buffer_ (data_ v))) at 1.
  rewrite live_app. rewrite (live_None (drop _ _)); [apply app_nil_r|].
  intros j. destruct (Z.leb_spec 0 j) as [Hj|Hj]; [|by apply at_neg].
  rewrite at_drop by done. apply Ht. destruct (well_formed_fits v Hv). lia.
Qed.

End SequenceFacts.

(** ** Construction, access and destruction *)

Section LifetimeFacts.

Context {T Args Env : Type} `{Elt : !Element T Args Env}.
Implicit Types (b src dst : list (option T)) (i j : Z) (w : @world T Env)
  (v other rhs : @Vector T) (m : @RawMemory T) (l c : list T).

(** [operator[]] on a valid container: an index below [Size()] passes both
    asserts (that of [Vector] and that of [RawMemory]) and refers to a live
    object, the one at that place of the sequence of values; an index from
    [Size()] on stops at the assert. *)
Theorem Vector_index_in_bounds v index :
  valid v -> 0 <= index ->
  (index < Size v ->
     Vector_index v index = Normal index tt /\
     is_Some (element v index) /\
     element v index = contents v !! Z.to_nat index) /\
  (Size v <= index -> Vector_index v index = AssertFail).
Proof.
  intros [Hv _] Hi. assert (Hv' := Hv). destruct Hv' as (Hs & Hc & Hm & Hl).
  unfold Vector_index, RawMemory_index, element, Size, Capacity in *. split.
  - intros Hlt.
    destruct (Z.ltb_spec index (size_ v)); [|lia].
    destruct (Z.ltb_spec index (capacity_ (data_ v))); [|lia].
    split_and!; [done | apply Hl; lia | apply contents_at; [done | lia]].
  - intros Hge. by destruct (Z.ltb_spec index (size_ v)); [lia|].
Qed.

Lemma live_destroy_prefix b (n : nat) :
  (n <= length b)%nat -> live (destroy_n b 0 n) = live (drop n b).
Proof.
  intros Hn.
  assert (Heq : destroy_n b 0 n = replicate n None ++ drop n b).
  { apply buffer_eq.
    - rewrite length_destroy_n, length_app, length_replicate, length_drop. lia.
    - intros i Hi. rewrite at_destroy_n, at_app, length_replicate.
      zcases; try lia.
      + by rewrite at_replicate_None.
      + rewrite at_drop by lia. f_equal. lia. }
  by rewrite Heq, live_app, live_replicate_None.
Qed.

Lemma Vector_destroy_leak v w :
  well_formed v ->
  leaked (Vector_destroy v w) =
  leaked w ++ live (drop (Z.to_nat (size_ v)) (buffer_ (data_ v))).
Proof.
  intros Hv. destruct (well_formed_fits v Hv).
  unfold Vector_destroy, RawMemory_destroy, Deallocate, leak. simpl.
  rewrite live_destroy_prefix by lia. done.
Qed.

Lemma Vector_destroy_tight v w :
  well_formed v -> tight v -> leaked (Vector_destroy v w) = leaked w.
Proof.
  intros Hv Ht. rewrite Vector_destroy_leak by done.
  rewrite live_None; [apply app_nil_r|].
  intros j. destruct (Z.leb_spec 0 j) as [Hj|Hj]; [|by apply at_neg].
  rewrite at_drop by done. apply Ht. destruct (well_formed_fits v Hv). lia.
Qed.

(** [~Vector()] runs the destructor of the [size_] objects of the live
    range and of nothing else: what the block holds past the live range is
    lost when the block is given back, and a tight container loses
    nothing. *)
Theorem Vector_destroy_releases v w :
  valid v ->
  leaked (Vector_destroy v w) =
    leaked w ++ live (drop (Z.to_nat (Size v)) (buffer_ (data_ v))) /\
  (tight v -> leaked (Vector_destroy v w) = leaked w).
Proof.
  intros [Hv _]. split.
  - by apply Vector_destroy_leak.
  - by apply Vector_destroy_tight.
Qed.

Lemma Vector_sized_full (n : Z) w :
  0 <= n -> n * sizeof <= SIZE_MAX ->
  match Vector_sized n w with
  | Normal v' w' =>
      well_formed v' /\ tight v' /\ Size v' = n /\ Capacity v' = n /\
      (forall i, 0 <= i < n -> element v' i = Some value_init) /\
      leaked w' = leaked w
  | Thrown w' => ~ quiet /\ leaked w' = leaked w
  | AssertFail | Undefined => False
  end.
Proof.
  intros Hn Hb. unfold Vector_sized, RawMemory_new, element.
  assert (Hmax : n <= SIZE_MAX) by (by apply count_le_bytes).
  pose proof (Allocate_spec n w Hn Hb) as HA.
  destruct (Allocate n w) as [b w1 | w1 | |]; cbn [andthen id]; try done.
  destruct HA as [-> HA].
  set (d := {| buffer_ := _; capacity_ := n |}).
  assert (Hd : forall j, at_ (buffer_ d) j = None)
    by (intros j; apply at_replicate_None).
  assert (Ld : Z.of_nat (length (buffer_ d)) = n)
    by (simpl; rewrite length_replicate; lia).
  pose proof (value_construct_spec (Z.to_nat n) (buffer_ d) 0 w1) as H.
  rewrite Z2Nat.id in H by lia.
  specialize (H ltac:(lia) ltac:(lia)).
  destruct (uninitialized_value_construct_n _ 0 _ w1)
    as [[] [b' w'] | [b' w'] | |]; cbn [andthen fst snd]; try done.
  - destruct H as (L & Hat & Hleak).
    unfold well_formed, tight, Size, Capacity.
    cbn [size_ data_ set_raw buffer_ capacity_]. rewrite L.
    split_and!; try done; try lia; try (simpl; lia).
    + intros i Hi. rewrite Hat. zcases; eauto; lia.
    + intros i Hi. rewrite Hat, Hd. zdone.
    + intros i Hi. rewrite Hat. zdone.
    + rewrite Hleak; auto.
  - destruct H as (Hq & _ & _ & Hsame).
    destruct (Hsame (fun j _ => Hd j)) as [-> Hleak].
    split; [done|]. rewrite leaked_destroy_None; [congruence | done].
Qed.

(** [Vector(size)], for a [size] whose [size * sizeof(T)] bytes make a
    block that can exist, returns a valid container of [size]
    value-initialised elements with [Capacity() == Size() == size], a block
    of [size] slots and nothing past the elements, or leaves by an
    exception (of [operator new] or of a constructor) after which the
    objects built so far have been destroyed and the block given back: no
    object is lost either way. *)
Theorem Vector_sized_contract (n : Z) w :
  0 <= n -> n * sizeof <= PTRDIFF_MAX ->
  match Vector_sized n w with
  | Normal v' w' =>
      valid v' /\ tight v' /\ Size v' = n /\ Capacity v' = n /\
      Z.of_nat (length (buffer_ (data_ v'))) = n /\
      contents v' = replicate (Z.to_nat n) value_init /\
      leaked w' = leaked w
  | Thrown w' => ~ quiet /\ leaked w' = leaked w
  | AssertFail | Undefined => False
  end.
Proof.
  intros Hn Hb. pose proof PTRDIFF_MAX_le_SIZE_MAX as HM.
  pose proof (Vector_sized_full n w Hn (Z.le_trans _ _ _ Hb HM)) as H.
  destruct (Vector_sized n w) as [v' w' | w' | |]; try done.
  destruct H as (Hv & Ht & Hs & Hc & Hat & Hleak). unfold Size, element in *.
  assert (Hlen := proj1 (proj2 Hv)).
  split_and!; try done; [split; [done | by rewrite Hc] | congruence |].
  apply contents_intro.
  - by apply well_formed_fits.
  - rewrite length_replicate. lia.
  - intros i Hi. rewrite Hat by lia. symmetry.
    apply lookup_replicate_2. lia.
Qed.

(** The copy constructor returns a container with the values of [other],
    in order, and nothing past them, or leaves by an exception after which
    the copies made so far have been destroyed and the block given back. *)
Theorem Vector_copy_contents other w :
  valid other ->
  match Vector_copy other w with
  | Normal v' w' =>
      valid v' /\ tight v' /\ contents v' = contents other /\
      leaked w' = leaked w
  | Thrown w' => ~ quiet /\ leaked w' = leaked w
  | AssertFail | Undefined => False
  end.
Proof.
  intros Hval. assert (Hv := proj1 Hval).
  pose proof PTRDIFF_MAX_le_SIZE_MAX as HM.
  assert (Hb := valid_size_bytes other Hval).
  pose proof (Vector_copy_spec other w Hv (Z.le_trans _ _ _ Hb HM)) as H.
  destruct (Vector_copy other w) as [v' w' | w' | |]; try done.
  destruct H as (Hv' & Ht & Hc & Hs & Hat & Hleak).
  split_and!; try done.
  - by apply (valid_capacity_size other).
  - unfold Size in *. by apply contents_eq.
Qed.

End LifetimeFacts.

(** ** Appending *)

Section AppendFacts.

Context {T Args Env : Type} `{Elt : !Element T Args Env}.
Implicit Types (b src dst : list (option T)) (i j : Z) (w : @world T Env)
  (v other rhs : @Vector T) (m : @RawMemory T) (l c : list T).

Lemma EmplaceBack_room_full args v w :
  well_formed v -> size_ v < Capacity v ->
  match EmplaceBack args v w with
  | Normal r (v', w') =>
      well_formed v' /\ Size v' = Size v + 1 /\ Capacity v' = Capacity v /\
      r = Size v /\
      (forall i, element v' i =
         if i =? size_ v then Some (make args) else element v i) /\
      leaked w' = leaked w ++ option_list (element v (size_ v))
  | Thrown (v', w') => ~ quiet /\ v' = v /\ leaked w' = leaked w
  | AssertFail | Undefined => False
  end.
Proof.
  intros Hv Hlt. unfold EmplaceBack, element, Size.
  assert (Hv' := Hv). destruct Hv' as (Hs & Hc & Hm & Hl).
  destruct (Z.eqb_spec (size_ v) (Capacity v)); [lia|].
  destruct (Z.ltb_spec (size_ v) (Capacity v)); [|lia].
  unfold construct_at, ask.
  destruct (throws (Construct args) (env w)) eqn:Et; cbn [andthen fst snd id].
  { rewrite set_buffer_same. split_and!; try done.
    intros Hq. by rewrite Hq in Et. }
  rewrite place_inside by lia. cbn [andthen fst snd id].
  unfold return_slot, RawMemory_index.
  cbn [size_ data_ set_size set_buffer set_raw buffer_ capacity_].
  rewrite (wrap_small (size_ v + 1)) by lia.
  replace (size_ v + 1 - 1) with (size_ v) by lia.
  rewrite (wrap_small (size_ v)) by lia. unfold Capacity in *.
  destruct (Z.ltb_spec (size_ v) (capacity_ (data_ v))); [|lia].
  cbn [andthen].
  assert (Hb1 : forall j,
    at_ (store (buffer_ (data_ v)) (size_ v) (Some (make args))) j =
    if j =? size_ v then Some (make args) else at_ (buffer_ (data_ v)) j).
  { intros j. rewrite at_store, (proj2 (inside_true _ _)) by lia. zdone. }
  unfold well_formed, Capacity.
  cbn [size_ data_ set_size set_buffer set_raw buffer_ capacity_].
  rewrite length_store. split_and!; try done; try lia.
  intros i Hi. rewrite Hb1. zcases; eauto. apply Hl. lia.
Qed.

Lemma lookup_snoc_Z c (x : T) i :
  0 <= i <= Z.of_nat (length c) ->
  (c ++ [x]) !! Z.to_nat i =
  if i =? Z.of_nat (length c) then Some x else c !! Z.to_nat i.
Proof.
  intros Hi. destruct (Z.eqb_spec i (Z.of_nat (length c))) as [->|Hne].
  - rewrite Nat2Z.id. rewrite lookup_app_r by lia.
    by rewrite Nat.sub_diag.
  - rewrite lookup_app_l; [done | lia].
Qed.

Lemma contents_snoc v v' (x : T) :
  well_formed v -> well_formed v' -> size_ v' = size_ v + 1 ->
  at_ (buffer_ (data_ v')) (size_ v) = Some x ->
  (forall i, 0 <= i < size_ v ->
     at_ (buffer_ (data_ v')) i = at_ (buffer_ (data_ v)) i) ->
  contents v' = contents v ++ [x].
Proof.
  intros Hv Hv' Hs' Hnew Hold.
  assert (Hfit := well_formed_fits v Hv). assert (Hlen := length_contents v Hv).
  apply contents_intro.
  - by apply well_formed_fits.
  - rewrite length_app. simpl. lia.
  - intros i Hi. rewrite lookup_snoc_Z by lia. rewrite Hlen.
    destruct (Z.eqb_spec i (size_ v)) as [->|Hne]; [done|].
    rewrite Hold by lia. apply contents_at; [done | lia].
Qed.

Lemma EmplaceBack_any args v w :
  well_formed v -> Z.max 1 (Capacity v * 2) * sizeof <= SIZE_MAX ->
  match EmplaceBack args v w with
  | Normal r (v', w') =>
      well_formed v' /\ Size v' = Size v + 1 /\ r = Size v /\
      element v' (Size v) = Some (make args) /\
      (forall i, 0 <= i < Size v -> element v' i = element v i) /\
      Capacity v' =
        (if Size v <? Capacity v then Capacity v
         else Z.max 1 (Capacity v * 2)) /\
      (tight v -> tight v' /\ leaked w' = leaked w)
  | Thrown (v', w') =>
      ~ quiet /\ well_formed v' /\ Size v' = Size v /\ Capacity v' = Capacity v /\
      (Size v < Capacity v \/ copy_constructible = true -> v' = v) /\
      (Size v < Capacity v -> leaked w' = leaked w)
  | AssertFail | Undefined => False
  end.
Proof.
  intros Hv Hd. unfold element.
  destruct (Z.eq_dec (size_ v) (Capacity v)) as [He|Hne].
  - pose proof (EmplaceBack_full args v w Hv He Hd) as H.
    unfold Size in *.
    destruct (Z.ltb_spec (size_ v) (Capacity v)); [lia|].
    destruct (EmplaceBack args v w) as [r [v' w'] | [v' w'] | |]; try done.
    + destruct H as (Hv' & Ht' & Hc' & Hs' & -> & Hnew & Hold & Hleak).
      split_and!; try done; auto.
    + destruct H as (Hq & Hv' & Hs' & Hc' & Hsame & _).
      split_and!; try done; [|lia]. intros [?|?]; [lia | auto].
  - assert (Hlt : size_ v < Capacity v) by (destruct Hv as ((? & ?) & _); lia).
    pose proof (EmplaceBack_room_full args v w Hv Hlt) as H.
    unfold Size, element in *.
    destruct (Z.ltb_spec (size_ v) (Capacity v)); [|lia].
    destruct (EmplaceBack args v w) as [r [v' w'] | [v' w'] | |]; try done.
    + destruct H as (Hv' & Hs' & Hc' & -> & Hat & Hleak).
      split_and!; try done.
      * rewrite Hat. by rewrite Z.eqb_refl.
      * intros i Hi. rewrite Hat. zdone.
      * intros Ht. split.
        -- intros i Hi. rewrite Hat. rewrite Hs' in Hi. zcases; [lia|].
           apply Ht. lia.
        -- rewrite Hleak, Ht by lia. apply app_nil_r.
    + destruct H as (Hq & -> & Hleak). by split_and!.
Qed.

(** [EmplaceBack(args...)] appends [T(args...)] to the sequence of values
    and returns a reference to its slot.  With spare capacity the capacity
    stays and a throwing constructor leaves the container exactly as it
    was, whatever the element type; at capacity the block grows to
    [max(1, 2 * capacity)], the doubled block being one that can exist.
    From a tight container no object is lost on return. *)
Theorem EmplaceBack_appends args v w :
  valid v -> Size v * 2 * sizeof <= PTRDIFF_MAX ->
  match EmplaceBack args v w with
  | Normal r (v', w') =>
      valid v' /\ Size v' = Size v + 1 /\ r = Size v /\
      contents v' = contents v ++ [make args] /\
      Capacity v' =
        (if Size v <? Capacity v then Capacity v
         else Z.max 1 (Capacity v * 2)) /\
      (tight v -> tight v' /\ leaked w' = leaked w)
  | Thrown (v', w') =>
      ~ quiet /\ valid v' /\ Size v' = Size v /\ Capacity v' = Capacity v /\
      (Size v < Capacity v \/ copy_constructible = true -> v' = v) /\
      (Size v < Capacity v -> leaked w' = leaked w)
  | AssertFail | Undefined => False
  end.
Proof.
  intros Hval Hd. assert (Hv := proj1 Hval).
  pose proof (EmplaceBack_any args v w Hv (valid_doubling v Hval)) as H.
  destruct (EmplaceBack args v w) as [r [v' w'] | [v' w'] | |]; try done.
  - destruct H as (Hv' & Hs' & -> & Hnew & Hold & Hcap & Hclean).
    split_and!; try done.
    + by apply (valid_grown v).
    + by apply contents_snoc.
  - destruct H as (Hq & Hv' & Hs' & Hc' & Hrest).
    split_and!; try done; try apply Hrest. by apply (valid_capacity v).
Qed.

Lemma Vector_eq v v' :
  buffer_ (data_ v') = buffer_ (data_ v) ->
  capacity_ (data_ v') = capacity_ (data_ v) ->
  size_ v' = size_ v -> v' = v.
Proof. destruct v as [[] ?], v' as [[] ?]. simpl. by intros -> -> ->. Qed.

(** [PushBack(value)] followed by [PopBack()] gives back the sequence of
    values and the size the container had; when the append found spare
    capacity in a tight container, the container is exactly the one from
    before. *)
Theorem PushBack_then_PopBack value v w :
  valid v -> Size v * 2 * sizeof <= PTRDIFF_MAX ->
  match PushBack value v w with
  | Normal _ (v1, w1) =>
      exists v2,
        PopBack v1 w1 = Normal tt (v2, w1) /\
        valid v2 /\ contents v2 = contents v /\ Size v2 = Size v /\
        Capacity v2 = Capacity v1 /\
        (tight v -> Size v < Capacity v -> v2 = v)
  | Thrown _ => ~ quiet
  | AssertFail | Undefined => False
  end.
Proof.
  intros Hval Hd. assert (Hv := proj1 Hval). unfold PushBack.
  assert (Hfit := well_formed_fits v Hv).
  pose proof (EmplaceBack_any value v w Hv (valid_doubling v Hval)) as H.
  destruct (Z.ltb_spec (Size v) (Capacity v)) as [Hlt|Hge].
  - (* spare capacity: the pointwise facts *)
    clear H. pose proof (EmplaceBack_room_full value v w Hv Hlt) as H.
    destruct (EmplaceBack value v w) as [r [v1 w1] | [v1 w1] | |];
      cbn [andthen id]; try done; [|by destruct H].
    destruct H as (Hv1 & Hs1 & Hc1 & -> & Hat1 & _). unfold Size, element in *.
    destruct (PopBack_spec v1 w1 Hv1 ltac:(lia))
      as (v2 & HP & Hv2 & Hs2 & Hc2 & Hlast & Hat2).
    unfold Size, element in *.
    exists v2. split_and!; try done; try lia.
    + apply (valid_capacity v); [done | done | congruence].
    + apply contents_eq; [done | done | lia |].
      intros i Hi. rewrite Hat2 by lia. rewrite Hat1. zdone.
    + intros Ht _.
      destruct Hv as (_ & HcL & _), Hv2 as (_ & HcL2 & _). unfold Capacity in *.
      apply Vector_eq; [|lia|lia].
      apply buffer_eq; [lia|]. intros i _.
      destruct (Z.eq_dec i (size_ v)) as [->|Hne].
      * replace (size_ v) with (size_ v1 - 1) at 1 by lia.
        rewrite Hlast. symmetry. apply Ht. lia.
      * rewrite Hat2 by lia. rewrite Hat1. zdone.
  - destruct (EmplaceBack value v w) as [r [v1 w1] | [v1 w1] | |];
      cbn [andthen id]; try done; [|by destruct H].
    destruct H as (Hv1 & Hs1 & -> & _ & Hold & Hcap1 & _).
    assert (Hval1 : valid v1).
    { apply (valid_grown v); [done | done | done |].
      by destruct (Z.ltb_spec (Size v) (Capacity v)); [lia|]. }
    unfold Size, element in *.
    destruct (PopBack_spec v1 w1 Hv1 ltac:(lia))
      as (v2 & HP & Hv2 & Hs2 & Hc2 & Hlast & Hat2).
    unfold Size, element in *.
    exists v2. split_and!; try done; try lia.
    + by apply (valid_capacity v1).
    + apply contents_eq; [done | done | lia |].
      intros i Hi. rewrite Hat2 by lia. by apply Hold.
Qed.

(** [PushBack] called for each value of a list, in turn: on return the
    values stand behind the old ones in the order of the list; as long as
    the capacity is not exceeded the block is never replaced (so pushing
    after [Reserve] does not reallocate); and once it was replaced the
    capacity is below twice the size.  From a tight container no object is
    lost.  When one of the calls leaves by an exception, a
    copy-constructible element type has the values pushed before it in
    place and nothing of the failed one.  The block for twice the final
    size is one that can exist. *)
Theorem push_all_appends (values : list Args) : forall v w,
  valid v ->
  (Size v + Z.of_nat (length values)) * 2 * sizeof <= PTRDIFF_MAX ->
  match push_all values v w with
  | Normal _ (v', w') =>
      valid v' /\
      contents v' = contents v ++ (make <$> values) /\
      Size v' = Size v + Z.of_nat (length values) /\
      (Size v' <= Capacity v -> Capacity v' = Capacity v) /\
      (Capacity v' = Capacity v \/ Capacity v' < 2 * Size v') /\
      (tight v -> tight v' /\ leaked w' = leaked w)
  | Thrown (v', w') =>
      ~ quiet /\ valid v' /\
      (copy_constructible = true ->
       exists k : nat,
         (k < length values)%nat /\
         contents v' = contents v ++ (make <$> take k values))
  | AssertFail | Undefined => False
  end.
Proof.
  induction values as [|value rest IH]; intros v w Hval Hd; cbn [push_all].
  - rewrite app_nil_r. simpl. split_and!; auto; lia.
  - unfold PushBack. cbn [length] in Hd. assert (Hv := proj1 Hval).
    assert (H0 : 0 <= Size v) by (destruct Hv as ((? & ?) & _); done).
    assert (Hd1 : Size v * 2 * sizeof <= PTRDIFF_MAX).
    { apply (bytes_mono _ ((Size v + Z.of_nat (S (length rest))) * 2));
        [lia | done]. }
    pose proof (EmplaceBack_any value v w Hv (valid_doubling v Hval)) as H.
    destruct (EmplaceBack value v w) as [r [v1 w1] | [v1 w1] | |];
      cbn [andthen id fst snd]; try done.
    2:{ destruct H as (Hq & Hv1 & _ & Hc1 & Hsame & _). split_and!; try done.
        - by apply (valid_capacity v).
        - intros Hcc. exists O. split; [simpl; lia|].
          rewrite Hsame by auto. simpl. by rewrite app_nil_r. }
    destruct H as (Hv1 & Hs1 & _ & Hnew & Hold & Hcap1 & Ht1).
    assert (Hval1 : valid v1) by (by apply (valid_grown v)).
    assert (Hc1 : contents v1 = contents v ++ [make value])
      by (by apply contents_snoc).
    specialize (IH v1 w1 Hval1).
    rewrite Hs1 in IH.
    replace (Size v + 1 + Z.of_nat (length rest))
      with (Size v + Z.of_nat (S (length rest))) in IH by lia.
    specialize (IH Hd).
    replace (Size v + Z.of_nat (S (length rest)))
      with (Size v1 + Z.of_nat (length rest)) in IH by lia.
    destruct (push_all rest v1 w1) as [[] [v' w'] | [v' w'] | |]; try done.
    2:{ destruct IH as (Hq & Hv' & Hk). split_and!; try done.
        intros Hcc. destruct (Hk Hcc) as (k & Hlt & Hc').
        exists (S k). split; [simpl; lia|].
        rewrite Hc', Hc1, <- app_assoc. done. }
    destruct IH as (Hv' & Hc' & Hs' & Hsame & Hbound & Ht').
    assert (H1 : 0 <= Capacity v) by (destruct Hv as ((? & ?) & _); lia).
    split_and!; try done.
    + rewrite Hc', Hc1, <- app_assoc. done.
    + cbn [length]. lia.
    + intros Hle. destruct (Z.ltb_spec (Size v) (Capacity v)); [|lia].
      rewrite Hsame; lia.
    + destruct (Z.ltb_spec (Size v) (Capacity v)).
      * destruct Hbound; [left | right]; lia.
      * right. destruct Hbound; lia.
    + intros Ht. destruct (Ht1 Ht) as [Htv1 Hl1].
      destruct (Ht' Htv1) as [? ?]. split; [done | congruence].
Qed.

End AppendFacts.

(** ** Insertion, slot by slot and as a sequence *)

Section InsertionFacts.

Context {T Args Env : Type} `{Elt : !Element T Args Env}.
Implicit Types (b src dst : list (option T)) (i j : Z) (w : @world T Env)
  (v other rhs : @Vector T) (m : @RawMemory T) (l c : list T).

Lemma Emplace_grow_full pos args v w :
  well_formed v -> 0 <= pos <= size_ v -> size_ v = Capacity v ->
  Z.max 1 (Capacity v * 2) * sizeof <= SIZE_MAX ->
  match Emplace pos args v w with
  | Normal r (v', w') =>
      well_formed v' /\ Size v' = Size v + 1 /\ r = pos /\
      (forall j, at_ (buffer_ (data_ v')) j =
         if j <? pos then at_ (buffer_ (data_ v)) j
         else if j =? pos then Some (make args)
              else if j <? size_ v + 1 then at_ (buffer_ (data_ v)) (j - 1)
                   else None) /\
      (tight v -> leaked w' = leaked w)
  | Thrown (v', w') => ~ quiet
  | AssertFail | Undefined => False
  end.
Proof.
  intros Hv Hp He Hd. unfold Emplace, Size.
  rewrite Emplace_asserts_position by done. cbv iota.
  assert (Hv' := Hv). destruct Hv' as (Hs & Hc & Hm & Hl).
  rewrite doubled_capacity by done.
  set (N := Z.max 1 (Capacity v * 2)) in *.
  assert (HN : size_ v < N <= SIZE_MAX).
  { split; [lia|]. apply count_le_bytes; [lia | done]. }
  destruct (Z.eqb_spec (size_ v) (Capacity v)); [|lia].
  unfold begin_. replace (pos - 0) with pos by lia.
  unfold RawMemory_new.
  pose proof (Allocate_spec N w ltac:(lia) Hd) as HA.
  destruct (Allocate N w) as [b w1 | w1 | |]; cbn [andthen id]; try done.
  2:{ by destruct HA as [Hq HA]. }
  destruct HA as [-> HA].
  set (nd := {| buffer_ := _; capacity_ := N |}).
  unfold construct_at, ask.
  destruct (throws (Construct args) (env w1)) eqn:Et; cbn [andthen fst snd].
  { intros Hq. by rewrite Hq in Et. }
  set (w2 := Build_world _ _).
  assert (Hlen : Z.of_nat (length (buffer_ nd)) = N)
    by (simpl; rewrite length_replicate; lia).
  assert (Hnd : forall j, at_ (buffer_ nd) j = None)
    by (intros j; apply at_replicate_None).
  rewrite place_inside by lia. cbn [andthen fst snd].
  rewrite Hnd. cbn [option_list].
  set (b1 := store (buffer_ nd) pos (Some (make args))).
  assert (Hb1 : forall j, at_ b1 j =
            if j =? pos then Some (make args) else None).
  { intros j. subst b1. rewrite at_store, (proj2 (inside_true _ _)) by lia.
    simpl andb. rewrite Hnd. zdone. }
  set (w3 := leak _ w2).
  pose proof (CopyOrMovePartData_spec (set_raw nd b1) pos v w3 Hv Hp) as HC.
  specialize (HC ltac:(simpl; unfold b1; rewrite length_store; lia)).
  destruct (CopyOrMovePartData (set_raw nd b1) pos v w3)
    as [[] [[v' nd'] w'] | [[v' nd'] w'] | |]; cbn [andthen]; try done.
  2:{ by destruct HC as (Hq & _). }
  destruct HC as (Hsz & Hcap & Hlen' & Hat & Hold & Hleak).
  simpl in Hcap, Hlen', Hat. unfold b1 in Hlen'. rewrite length_store in Hlen'.
  unfold return_slot, RawMemory_index. cbn [set_size size_ data_].
  rewrite Hsz. rewrite (wrap_small (size_ v + 1)) by lia.
  unfold Capacity in Hcap. rewrite Hcap.
  destruct (Z.ltb_spec pos N); [|lia]. cbn [andthen].
  assert (Hall : forall j, at_ (buffer_ (data_ v')) j =
            if j <? pos then at_ (buffer_ (data_ v)) j
            else if j =? pos then Some (make args)
                 else if j <? size_ v + 1 then at_ (buffer_ (data_ v)) (j - 1)
                      else None).
  { intros j. rewrite Hat, Hb1. zdone. symmetry. by apply at_neg. }
  unfold well_formed, Capacity.
  cbn [size_ data_ set_size set_buffer set_raw buffer_ capacity_].
  split_and!; try done; try lia.
  - intros i Hi. rewrite Hall. zdone; apply Hl; lia.
  - intros Ht. rewrite leaked_destroy_None.
    + rewrite Hleak; [subst w3 w2; simpl; by rewrite app_nil_r|].
      intros j Hj Hne. simpl. rewrite Hb1. zdone.
    + intros j. rewrite Hold. zdone; first [by apply at_neg | apply Ht; lia].
Qed.

Lemma Emplace_room_full pos args v w :
  well_formed v -> 0 <= pos <= size_ v -> size_ v < Capacity v ->
  match Emplace pos args v w with
  | Normal r (v', w') =>
      well_formed v' /\ Size v' = Size v + 1 /\ r = pos /\
      (forall j, at_ (buffer_ (data_ v')) j =
         if j <? pos then at_ (buffer_ (data_ v)) j
         else if j =? pos then Some (make args)
              else if j <? size_ v + 1 then at_ (buffer_ (data_ v)) (j - 1)
                   else at_ (buffer_ (data_ v)) j) /\
      (tight v -> leaked w' = leaked w)
  | Thrown (v', w') => ~ quiet
  | AssertFail | Undefined => False
  end.
Proof.
  intros Hv Hp Hlt. unfold Emplace, Size.
  rewrite Emplace_asserts_position by done. cbv iota.
  assert (Hv' := Hv). destruct Hv' as (Hs & Hc & Hm & Hl).
  destruct (Z.eqb_spec (size_ v) (Capacity v)); [lia|].
  destruct (Z.ltb_spec (size_ v) (Capacity v)); [|lia].
  unfold begin_, end_. replace (pos - 0) with pos by lia.
  rewrite !Z.add_0_l.
  assert (Hret : forall b w',
    length b = length (buffer_ (data_ v)) ->
    return_slot (set_size (set_buffer v b) (wrap (size_ v + 1))) pos w' =
    Normal pos (set_size (set_buffer v b) (size_ v + 1), w')).
  { intros b w' Hb. unfold return_slot, RawMemory_index.
    rewrite wrap_small by lia. cbn [set_size set_buffer set_raw data_ capacity_].
    unfold Capacity in *. by destruct (Z.ltb_spec pos (capacity_ (data_ v))); [|lia]. }
  destruct (Z.eqb_spec pos (size_ v)) as [->|Hne].
  - (* at the end *)
    unfold construct_at, ask.
    destruct (throws (Construct args) (env w)) eqn:Et; cbn [andthen fst snd].
    { intros Hq. by rewrite Hq in Et. }
    rewrite place_inside by lia. cbn [andthen fst snd].
    rewrite Hret by apply length_store.
    unfold well_formed, Capacity in *.
    cbn [size_ data_ set_size set_buffer set_raw buffer_ capacity_].
    rewrite length_store.
    assert (Hb1 : forall j, at_ (store (buffer_ (data_ v)) (size_ v) (Some (make args))) j =
              if j =? size_ v then Some (make args) else at_ (buffer_ (data_ v)) j).
    { intros j. rewrite at_store, (proj2 (inside_true _ _)) by lia. zdone. }
    split_and!; try done; try lia.
    + intros i Hi. rewrite Hb1. zdone. apply Hl. lia.
    + intros j. rewrite Hb1. zdone.
    + intros Ht. simpl. rewrite Ht by lia. apply app_nil_r.
  - (* in the middle *)
    unfold ask at 1.
    destruct (throws (Construct args) (env w)) eqn:Et.
    { intros Hq. by rewrite Hq in Et. }
    set (w1 := Build_world _ _).
    destruct (Hl (size_ v - 1) ltac:(lia)) as [x Hx].
    cbn [uninitialized_move_n_within]. rewrite Hx. unfold ask at 1.
    destruct (throws (MoveCtor x) (env w1)) eqn:Et1; cbn [andthen fst snd].
    { intros Hq. by rewrite Hq in Et1. }
    rewrite place_inside by (rewrite length_store; lia).
    cbn [andthen fst snd].
    set (b1 := store (store (buffer_ (data_ v)) (size_ v - 1)
                        (Some (moved_from x))) (size_ v) (Some x)).
    assert (Hb1 : forall j, at_ b1 j =
              if j =? size_ v then Some x
              else if j =? size_ v - 1 then Some (moved_from x)
                   else at_ (buffer_ (data_ v)) j).
    { intros j. subst b1.
      rewrite !at_store, inside_store, !(proj2 (inside_true _ _)) by lia. zdone. }
    assert (Lb1 : length b1 = length (buffer_ (data_ v)))
      by (subst b1; by rewrite !length_store).
    set (w2 := leak _ _).
    assert (Hw2 : tight v -> leaked w2 = leaked w).
    { intros Ht. subst w2 w1. simpl. rewrite at_store_ne by lia.
      rewrite Ht by lia. apply app_nil_r. }
    unfold move_backward.
    set (k := Z.to_nat (size_ v - 1 - pos)).
    pose proof (move_backward_right_spec k b1 (size_ v - 1) w2) as HB.
    replace (size_ v - 1 + 1) with (size_ v) in HB by lia.
    specialize (HB ltac:(intros j Hj; rewrite Hb1; zcases; eauto; apply Hl; lia)).
    destruct (move_backward_n b1 (size_ v - 1) k (size_ v) w2)
      as [[] [b2 w3] | [b2 w3] | |]; cbn [andthen fst snd]; try done.
    2:{ by destruct HB as (Hq & _). }
    destruct HB as (L2 & Hleak2 & Hb2).
    assert (Hpos : is_Some (at_ b2 pos)).
    { rewrite Hb2, !Hb1.
      zcases; rewrite ?fmap_is_Some; eauto; try lia; apply Hl; lia. }
    destruct Hpos as [y Hy]. rewrite Hy. unfold ask.
    destruct (throws (MoveAssign y (make args)) (env w3)) eqn:Et3.
    { intros Hq. by rewrite Hq in Et3. }
    rewrite Hret by (rewrite length_store; congruence).
    assert (Hb3 : forall j, at_ (store b2 pos (Some (make args))) j =
              if j =? pos then Some (make args) else at_ b2 j).
    { intros j. rewrite at_store, (proj2 (inside_true _ _)) by lia. zdone. }
    unfold well_formed, Capacity in *.
    cbn [size_ data_ set_size set_buffer set_raw buffer_ capacity_].
    rewrite length_store, L2, Lb1.
    split_and!; try done; try lia.
    + intros i Hi. rewrite Hb3, Hb2, !Hb1.
      zcases; rewrite ?fmap_is_Some; eauto; try lia; apply Hl; lia.
    + intros j. rewrite Hb3, Hb2, !Hb1. zprune; by use_at Hx.
    + intros Ht. simpl. rewrite Hleak2. auto.
Qed.

Lemma lookup_insert_Z c (x : T) pos i :
  0 <= pos <= Z.of_nat (length c) -> 0 <= i ->
  (take (Z.to_nat pos) c ++ x :: drop (Z.to_nat pos) c) !! Z.to_nat i =
  if i <? pos then c !! Z.to_nat i
  else if i =? pos then Some x else c !! Z.to_nat (i - 1).
Proof.
  intros Hp Hi.
  assert (Ht : length (take (Z.to_nat pos) c) = Z.to_nat pos)
    by (rewrite length_take_le; lia).
  destruct (Z.ltb_spec i pos).
  - rewrite lookup_app_l by lia. apply lookup_take_lt. lia.
  - rewrite lookup_app_r by lia. rewrite Ht.
    destruct (Z.eqb_spec i pos) as [->|Hne].
    + by rewrite Nat.sub_diag.
    + replace (Z.to_nat i - Z.to_nat pos)%nat
        with (S (Z.to_nat (i - 1) - Z.to_nat pos)) by lia.
      rewrite lookup_cons_ne_0 by lia. cbn [Nat.pred].
      rewrite lookup_drop. f_equal. lia.
Qed.

Lemma Emplace_any pos args v w :
  well_formed v -> 0 <= pos <= size_ v ->
  Z.max 1 (Capacity v * 2) * sizeof <= SIZE_MAX ->
  match Emplace pos args v w with
  | Normal r (v', w') =>
      well_formed v' /\ Size v' = Size v + 1 /\ r = pos /\
      (forall j, j < size_ v + 1 ->
         at_ (buffer_ (data_ v')) j =
         if j <? pos then at_ (buffer_ (data_ v)) j
         else if j =? pos then Some (make args)
              else at_ (buffer_ (data_ v)) (j - 1)) /\
      (tight v -> tight v' /\ leaked w' = leaked w)
  | Thrown (v', w') =>
      ~ quiet /\ well_formed v' /\ Size v' = Size v /\ Capacity v' = Capacity v
  | AssertFail | Undefined => False
  end.
Proof.
  intros Hv Hp Hd.
  pose proof (Emplace_spec pos args v w Hv Hp Hd) as HT.
  destruct (Z.eq_dec (size_ v) (Capacity v)) as [He|Hne].
  - pose proof (Emplace_grow_full pos args v w Hv Hp He Hd) as H.
    destruct (Emplace pos args v w) as [r [v' w'] | [v' w'] | |]; try done.
    destruct H as (Hv' & Hs' & -> & Hat & Hleak). unfold Size in *.
    split_and!; try done.
    + intros j Hj. rewrite Hat. zdone.
    + intros Ht. split; [|auto]. intros j Hj. rewrite Hat. zdone.
  - assert (Hlt : size_ v < Capacity v) by (destruct Hv as ((? & ?) & _); lia).
    pose proof (Emplace_room_full pos args v w Hv Hp Hlt) as H.
    destruct (Emplace pos args v w) as [r [v' w'] | [v' w'] | |]; try done.
    destruct H as (Hv' & Hs' & -> & Hat & Hleak). unfold Size in *.
    split_and!; try done.
    + intros j Hj. rewrite Hat. zdone.
    + intros Ht. split; [|auto]. intros j Hj. rewrite Hat. zdone.
      apply Ht. lia.
Qed.

(** [Emplace(pos, args...)] at a position of the container
    ([begin() <= pos <= end()]) puts [T(args...)] in front of the element
    that was at [pos]: the sequence of values is the old one with the new
    value inserted at index [pos - begin()], the returned iterator refers
    to the new element, and from a tight container no object is lost on
    return; the doubled block is one that can exist.  At any other position
    the assert stops the call.  [Insert] is the same call. *)
Theorem Emplace_inserts pos args v w :
  valid v -> Size v * 2 * sizeof <= PTRDIFF_MAX ->
  (0 <= pos <= Size v ->
   match Emplace pos args v w with
   | Normal r (v', w') =>
       valid v' /\ Size v' = Size v + 1 /\ r = pos /\
       element v' r = Some (make args) /\
       contents v' =
         take (Z.to_nat pos) (contents v) ++
         make args :: drop (Z.to_nat pos) (contents v) /\
       (tight v -> tight v' /\ leaked w' = leaked w)
   | Thrown (v', w') =>
       ~ quiet /\ valid v' /\ Size v' = Size v /\ Capacity v' = Capacity v
   | AssertFail | Undefined => False
   end) /\
  (~ 0 <= pos <= Size v -> Emplace pos args v w = AssertFail) /\
  Insert pos args v w = Emplace pos args v w.
Proof.
  intros Hval Hd. assert (Hv := proj1 Hval). unfold element.
  assert (Hfit := well_formed_fits v Hv). assert (Hlen := length_contents v Hv).
  split_and!; [| apply Emplace_outside | done].
  intros Hp.
  pose proof (Emplace_any pos args v w Hv Hp (valid_doubling v Hval)) as H.
  pose proof (Emplace_capacity pos args v w Hv Hp (valid_doubling v Hval))
    as HC.
  destruct (Emplace pos args v w) as [r [v' w'] | [v' w'] | |]; try done.
  2:{ destruct H as (Hq & Hv' & Hs' & Hc'). split_and!; try done.
      by apply (valid_capacity v). }
  destruct H as (Hv' & Hs' & -> & Hat & Hclean).
  assert (Hval' : valid v') by (by apply (valid_grown v)).
  unfold Size in *. split_and!; try done.
  - rewrite Hat by lia. zdone.
  - apply contents_intro.
    + by apply well_formed_fits.
    + rewrite length_app, length_take_le by lia. cbn [length].
      rewrite length_drop. lia.
    + intros i Hi. rewrite lookup_insert_Z by lia. rewrite Hat by lia.
      zcases; try done; apply contents_at; (done || lia).
Qed.

End InsertionFacts.

(** ** What a failed call leaves behind *)

Section UnwindingFacts.

Context {T Args Env : Type} `{Elt : !Element T Args Env}.
Implicit Types (b src dst : list (option T)) (i j : Z) (w : @world T Env)
  (v other rhs : @Vector T) (m : @RawMemory T) (l c : list T).

(** the same slots hold an object, whatever its value *)
Lemma tight_same_slots v v' :
  size_ v' = size_ v ->
  (forall j, is_Some (at_ (buffer_ (data_ v')) j) <->
             is_Some (at_ (buffer_ (data_ v)) j)) ->
  tight v -> tight v'.
Proof.
  intros Hs Hsome Ht j Hj. rewrite Hs in Hj. specialize (Ht j Hj).
  apply eq_None_not_Some. rewrite Hsome, Ht. by intros [? ?].
Qed.

Lemma CopyOrMoveData_thrown_slots new_data v w :
  well_formed v -> size_ v <= Z.of_nat (length (buffer_ new_data)) ->
  match CopyOrMoveData new_data v w with
  | Thrown (v', _, _) =>
      size_ v' = size_ v /\
      forall j, is_Some (at_ (buffer_ (data_ v')) j) <->
                is_Some (at_ (buffer_ (data_ v)) j)
  | _ => True
  end.
Proof.
  intros Hv Hfit. unfold CopyOrMoveData. rewrite transfer_n_choice.
  assert (Hs : 0 <= size_ v) by (destruct Hv as ((? & ?) & _); lia).
  pose proof (transfer_spec moves_elements (Z.to_nat (size_ v))
                (buffer_ (data_ v)) 0 (buffer_ new_data) 0 w) as H.
  rewrite Z2Nat.id in H by done.
  specialize (H (fun i Hi => well_formed_live v (0 + i) Hv ltac:(lia)) ltac:(lia) ltac:(lia)).
  destruct (uninitialized_transfer _ _ _ _ _ _ _)
    as [[] [[src dst] w'] | [[src dst] w'] | |]; simpl; try done.
  by destruct H as (_ & _ & _ & _ & Hsome & _).
Qed.

Lemma Reserve_thrown_tight new_capacity v w :
  well_formed v -> Capacity v < new_capacity ->
  new_capacity * sizeof <= SIZE_MAX -> tight v ->
  match Reserve new_capacity v w with
  | Thrown (v', _) => tight v'
  | _ => True
  end.
Proof.
  intros Hv Hn Hb Ht. unfold Reserve.
  assert (Hv' := Hv). destruct Hv' as (Hs & Hc & Hm & Hl).
  unfold Capacity in *.
  destruct (Z.leb_spec new_capacity (capacity_ (data_ v))); [lia|].
  unfold RawMemory_new.
  pose proof (Allocate_spec new_capacity w ltac:(lia) Hb) as HA.
  destruct (Allocate new_capacity w) as [b w1 | w1 | |];
    cbn [andthen id]; try done.
  destruct HA as [-> HA].
  set (nd := {| buffer_ := _; capacity_ := new_capacity |}).
  pose proof (CopyOrMoveData_thrown_slots nd v w1 Hv) as HC.
  specialize (HC ltac:(simpl; rewrite length_replicate; lia)).
  destruct (CopyOrMoveData nd v w1)
    as [[] [[v' nd'] w'] | [[v' nd'] w'] | |]; cbn [andthen]; try done.
  destruct HC as [Hsz Hsome]. by apply (tight_same_slots v).
Qed.

(** [Reserve] as [Resize] calls it: any [new_capacity] whose bytes are a
    [size_t] *)
Lemma Reserve_any new_capacity v w :
  well_formed v -> 0 <= new_capacity -> new_capacity * sizeof <= SIZE_MAX ->
  match Reserve new_capacity v w with
  | Normal _ (v', w') =>
      well_formed v' /\ Size v' = Size v /\
      Capacity v' = Z.max new_capacity (Capacity v) /\
      (forall i, 0 <= i < Size v ->
         at_ (buffer_ (data_ v')) i = at_ (buffer_ (data_ v)) i) /\
      (tight v -> tight v' /\ leaked w' = leaked w)
  | Thrown (v', w') =>
      ~ quiet /\ well_formed v' /\ Size v' = Size v /\ Capacity v' = Capacity v /\
      (copy_constructible = true -> v' = v) /\ leaked w' = leaked w /\
      (tight v -> tight v')
  | AssertFail | Undefined => False
  end.
Proof.
  intros Hv Hn Hb.
  destruct (Z.le_gt_cases new_capacity (Capacity v)) as [Hle|Hgt].
  - unfold Reserve. fold (Capacity v).
    destruct (Z.leb_spec new_capacity (Capacity v)); [|lia].
    split_and!; try done; try lia; auto.
  - pose proof (Reserve_grow new_capacity v w Hv ltac:(lia) Hb) as HG.
    pose proof (Reserve_thrown_tight new_capacity v w Hv ltac:(lia) Hb) as HT.
    destruct (Reserve new_capacity v w) as [[] [v1 w1] | [v1 w1] | |]; try done.
    + destruct HG as (? & ? & ? & ? & ? & ?). split_and!; try done; try lia; auto.
    + destruct HG as (? & ? & ? & ? & ? & ?). by split_and!.
Qed.

Lemma Resize_grow_full new_size v w :
  well_formed v -> size_ v < new_size -> new_size * sizeof <= SIZE_MAX ->
  match Resize new_size v w with
  | Normal _ (v', w') => tight v -> tight v' /\ leaked w' = leaked w
  | Thrown (v', w') =>
      (Capacity v' = Capacity v \/ Capacity v' = new_size) /\
      (copy_constructible = true -> contents v' = contents v) /\
      (tight v -> tight v' /\ leaked w' = leaked w)
  | AssertFail | Undefined => True
  end.
Proof.
  intros Hv Hn Hb. assert (Hv' := Hv). destruct Hv' as (Hs & Hc & Hm & Hl).
  assert (Hmax : new_size <= SIZE_MAX)
    by (apply count_le_bytes; [lia | done]).
  unfold Resize.
  destruct (Z.eqb_spec new_size (size_ v)); [lia|].
  destruct (Z.ltb_spec new_size (size_ v)); [lia|].
  pose proof (Reserve_any new_size v w Hv ltac:(lia) Hb) as HR.
  destruct (Reserve new_size v w) as [[] [v1 w1] | [v1 w1] | |];
    cbn [andthen id]; try done.
  2:{ destruct HR as (_ & _ & _ & Hcap & Hsame & Hleak & Ht).
      split_and!; [by left | intros Hcc; by rewrite (Hsame Hcc) | auto]. }
  destruct HR as (Hv1 & Hsz1 & Hcap1 & Hat1 & Hclean1). unfold Size in *.
  assert (Hv1' := Hv1). destruct Hv1' as (Hs1 & Hc1 & Hm1 & Hl1).
  rewrite Hsz1. rewrite wrap_small by lia.
  set (k := Z.to_nat (new_size - size_ v)).
  pose proof (value_construct_spec k (buffer_ (data_ v1)) (size_ v) w1) as HV.
  specialize (HV ltac:(lia) ltac:(lia)).
  destruct (uninitialized_value_construct_n _ _ k w1)
    as [[] [b' w'] | [b' w'] | |]; cbn [andthen fst snd]; try done.
  - destruct HV as (L & Hat & Hleak). intros Ht.
    destruct (Hclean1 Ht) as [Ht1 Hl1']. split.
    + intros j Hj. cbn [size_ data_ set_size set_buffer set_raw buffer_] in *.
      rewrite Hat. zcases; try lia; apply Ht1; lia.
    + rewrite Hleak; [done|]. intros j Hj. apply Ht1. lia.
  - destruct HV as (Hq & L & Hat & Hsame).
    assert (Hv2 : well_formed (set_buffer v1 b')).
    { apply well_formed_set_buffer; [done..|].
      intros j Hj. rewrite Hat by lia. apply Hl1. lia. }
    split_and!.
    + unfold Capacity in *. cbn [data_ set_buffer set_raw capacity_]. lia.
    + intros _. transitivity (contents v1).
      * apply contents_eq; [done | done | done |].
        intros i Hi. apply Hat. lia.
      * apply contents_eq; [done | done | done |].
        intros i Hi. apply Hat1. lia.
    + intros Ht. destruct (Hclean1 Ht) as [Ht1 Hl1'].
      destruct Hsame as [-> ->]; [intros j Hj; apply Ht1; lia|].
      by rewrite set_buffer_same.
Qed.

(** [Resize(new_size)] on the sequence of values: it returns with the
    first [new_size] values followed by value-initialised ones up to
    [new_size] (none when shrinking).  When it leaves by an exception the
    size is the old one, the values are the old ones for a
    copy-constructible element type, and the capacity is the old one (the
    reallocation failed) or already [new_size] (a constructor failed after
    it).  From a tight container no object is lost on either way out.
    The [new_size * sizeof(T)] bytes make a block that can exist. *)
Theorem Resize_on_values new_size v w :
  valid v -> 0 <= new_size -> new_size * sizeof <= PTRDIFF_MAX ->
  match Resize new_size v w with
  | Normal _ (v', w') =>
      valid v' /\ Size v' = new_size /\
      contents v' =
        take (Z.to_nat new_size) (contents v) ++
        replicate (Z.to_nat (new_size - Size v)) value_init /\
      (tight v -> tight v' /\ leaked w' = leaked w)
  | Thrown (v', w') =>
      ~ quiet /\ valid v' /\ Size v < new_size /\ Size v' = Size v /\
      (Capacity v' = Capacity v \/ Capacity v' = new_size) /\
      (copy_constructible = true -> contents v' = contents v) /\
      (tight v -> tight v' /\ leaked w' = leaked w)
  | AssertFail | Undefined => False
  end.
Proof.
  intros Hval Hn Hb. assert (Hv := proj1 Hval). unfold Size.
  pose proof PTRDIFF_MAX_le_SIZE_MAX as HM.
  assert (Hb' := Z.le_trans _ _ _ Hb HM).
  assert (Hfit := well_formed_fits v Hv). assert (Hlen := length_contents v Hv).
  destruct (Z.lt_trichotomy new_size (size_ v)) as [Hlt|[->|Hgt]].
  - destruct (Resize_shrink new_size v w Hv ltac:(lia))
      as (v' & -> & Hv' & Hs' & Hc' & Hat). unfold Size in *.
    replace (Z.to_nat (new_size - size_ v)) with O by lia.
    rewrite app_nil_r. split_and!; try done.
    + by apply (valid_capacity v).
    + apply contents_intro; [by apply well_formed_fits | |].
      * rewrite length_take_le; lia.
      * intros i Hi. rewrite Hat.
        zcases; try lia; rewrite lookup_take_lt by lia;
          apply contents_at; (done || lia).
    + intros Ht. split; [|done]. intros j Hj. rewrite Hat.
      zcases; try done; apply Ht; lia.
  - rewrite Resize_same. rewrite Z.sub_diag. simpl. rewrite app_nil_r.
    rewrite take_ge by lia. by split_and!.
  - pose proof (Resize_grow new_size v w Hv Hgt Hb') as H.
    pose proof (Resize_grow_full new_size v w Hv Hgt Hb') as HF.
    destruct (Resize new_size v w) as [[] [v' w'] | [v' w'] | |]; try done.
    + destruct H as (Hv' & Hs' & _ & Hc' & Hat). unfold Size in *.
      split_and!; try done.
      { apply valid_intro; [done|]. rewrite Hc'.
        destruct (Z.max_spec new_size (Capacity v)) as [[_ ->]|[_ ->]];
          [apply Hval | done]. }
      rewrite take_ge by lia. apply contents_intro.
      * by apply well_formed_fits.
      * rewrite length_app, length_replicate. lia.
      * intros i Hi. rewrite Hat by lia.
        destruct (Z.ltb_spec i (size_ v)).
        -- rewrite lookup_app_l by lia. apply contents_at; [done | lia].
        -- rewrite lookup_app_r by lia. symmetry.
           apply lookup_replicate_2. lia.
    + destruct H as (Hq & Hv' & Hs' & _).
      destruct HF as (Hcap & Hsame & Hclean).
      split_and!; try done. apply valid_intro; [done|].
      destruct Hcap as [-> | ->]; [apply Hval | done].
Qed.

Lemma Erase_thrown_tight pos v w :
  well_formed v -> 0 <= pos < size_ v -> tight v ->
  match Erase pos v w with
  | Thrown (v', _) => tight v'
  | _ => True
  end.
Proof.
  intros Hv Hp Ht. unfold Erase, std_move, end_.
  assert (Hv' := Hv). destruct Hv' as (Hs & Hc & Hm & Hl).
  set (n := Z.to_nat (0 + size_ v - (pos + 1))).
  pose proof (move_n_left_spec n (buffer_ (data_ v)) (pos + 1) w) as H.
  replace (pos + 1 - 1) with pos in H by lia.
  specialize (H ltac:(intros j Hj; apply Hl; lia)).
  destruct (move_n (buffer_ (data_ v)) (pos + 1) n pos w)
    as [[] [b' w'] | [b' w'] | |]; cbn [andthen fst snd]; try done.
  - by destruct (_ =? 0).
  - destruct H as (_ & _ & _ & Hsome). by apply (tight_same_slots v).
Qed.

Lemma copy_assign_clean rhs v w :
  well_formed v -> well_formed rhs -> Size rhs * sizeof <= SIZE_MAX ->
  tight v ->
  match copy_assign rhs v w with
  | Normal _ (v', w') | Thrown (v', w') => tight v' /\ leaked w' = leaked w
  | AssertFail | Undefined => True
  end.
Proof.
  intros Hv Hr Hb Ht. unfold copy_assign, Size.
  assert (Hv' := Hv). destruct Hv' as (Hs & Hc & Hm & Hl).
  assert (Hr' := Hr). destruct Hr' as (Hsr & Hcr & Hmr & Hlr).
  destruct (Z.ltb_spec (Capacity v) (size_ rhs)) as [Hlt|Hge].
  - (* copy and swap *)
    pose proof (Vector_copy_spec rhs w Hr Hb) as HC.
    destruct (Vector_copy rhs w) as [c w1 | w1 | |]; cbn [andthen]; try done.
    + destruct HC as (Hvc & Htc & _ & _ & _ & Hleak).
      unfold Swap, RawMemory_Swap. cbv beta iota zeta. split.
      * intros j Hj. apply Htc. exact Hj.
      * rewrite Vector_destroy_tight; [done | by apply well_formed_eta | done].
    + by destruct HC as [_ ?].
  - destruct (Z.ltb_spec (size_ rhs) (size_ v)) as [Hshrink|Hgrow].
    + (* fewer elements than before *)
      pose proof (copy_n_spec (Z.to_nat (size_ rhs)) (buffer_ (data_ rhs)) 0
                    (buffer_ (data_ v)) 0 w) as H.
      rewrite Z2Nat.id in H by lia.
      specialize (H ltac:(intros i Hi; apply Hlr; lia)
                    ltac:(intros i Hi; apply Hl; lia)).
      destruct (copy_n _ 0 _ _ 0 w) as [[] [b' w'] | [b' w'] | |];
        cbn [andthen id fst snd]; try done.
      * destruct H as (L & Hleak & Hat).
        rewrite wrap_small by lia. split; [|done].
        intros j Hj. cbn [size_ data_ set_size set_buffer set_raw buffer_] in *.
        rewrite at_destroy_n, Hat. zcases; try done; try lia; apply Ht; lia.
      * destruct H as (Hq & L & Hleak & Hsome).
        split; [|done]. by apply (tight_same_slots v).
    + (* at least as many elements as before *)
      pose proof (copy_n_spec (Z.to_nat (size_ v)) (buffer_ (data_ rhs)) 0
                    (buffer_ (data_ v)) 0 w) as H.
      rewrite Z2Nat.id in H by lia.
      specialize (H ltac:(intros i Hi; apply Hlr; lia)
                    ltac:(intros i Hi; apply Hl; lia)).
      destruct (copy_n _ 0 _ _ 0 w) as [[] [b' w'] | [b' w'] | |];
        cbn [andthen id fst snd]; try done.
      2:{ destruct H as (Hq & L & Hleak & Hsome).
          split; [|done]. by apply (tight_same_slots v). }
      destruct H as (L & Hleak & Hat).
      rewrite wrap_small by lia. unfold uninitialized_copy_n.
      set (k := Z.to_nat (size_ rhs - size_ v)).
      pose proof (transfer_spec false k (buffer_ (data_ rhs)) (0 + size_ v)
                    b' (0 + size_ v) w') as H2.
      unfold Capacity in *.
      specialize (H2 ltac:(intros i Hi; apply Hlr; lia) ltac:(lia) ltac:(lia)).
      assert (Hfree : forall j, size_ v <= j -> at_ b' j = None).
      { intros j Hj. rewrite Hat. zcases; try lia; by apply Ht. }
      destruct (uninitialized_transfer false _ _ k b' _ w')
        as [[] [[src2 dst2] w2] | [[src2 dst2] w2] | |];
        cbn [andthen id fst snd]; try done.
      * destruct H2 as (_ & L2 & Hat2 & _ & Hleak2). split.
        -- intros j Hj.
           cbn [size_ data_ set_size set_buffer set_raw buffer_] in *.
           rewrite Hat2. zcases; try lia; apply Hfree; lia.
        -- rewrite Hleak2; [done|]. intros j Hj. apply Hfree. lia.
      * destruct H2 as (Hq & _ & L2 & Hout & _ & _ & _ & Hsame).
        destruct Hsame as [-> ->]; [intros j Hj; apply Hfree; lia|].
        split; [|done]. intros j Hj. apply Hfree.
        cbn [size_ set_buffer] in Hj. lia.
Qed.

End UnwindingFacts.

(** ** No object is lost *)

Section ResourceFacts.

Context {T Args Env : Type} `{Elt : !Element T Args Env}.
Implicit Types (b src dst : list (option T)) (i j : Z) (w : @world T Env)
  (v other rhs : @Vector T) (m : @RawMemory T) (l c : list T).

Lemma tight_empty : tight (@Vector_default T).
Proof. intros j _. simpl. apply at_outside. unfold inside. simpl. zdone. Qed.

Lemma tight_moved_from :
  tight {| data_ := {| buffer_ := @nil (option T); capacity_ := 0 |};
           size_ := 0 |}.
Proof. apply tight_empty. Qed.

Lemma tight_eta v :
  tight v ->
  tight {| data_ := {| buffer_ := buffer_ (data_ v);
                       capacity_ := capacity_ (data_ v) |};
           size_ := size_ v |}.
Proof. by destruct v as [[] ?]. Qed.

Lemma live_empty v :
  well_formed v -> tight v -> size_ v = 0 -> live (buffer_ (data_ v)) = [].
Proof.
  intros Hv Ht Hs. rewrite live_tight by done.
  pose proof (length_contents v Hv) as Hlen.
  destruct (contents v); [done | simpl in Hlen; lia].
Qed.

Lemma only_this_clean {R} (o : outcome R (@Vector T * @world T Env)) w
    (P : Prop) :
  match o with
  | Normal _ (v', w') | Thrown (v', w') => tight v' /\ leaked w' = leaked w
  | AssertFail => True
  | Undefined => False
  end ->
  match only_this o with
  | Normal _ (vs, w') => Forall tight vs /\ leaked w' = leaked w
  | Thrown (vs, w') => P -> Forall tight vs /\ leaked w' = leaked w
  | AssertFail => True
  | Undefined => False
  end.
Proof.
  unfold only_this. destruct o as [r [v' w'] | [v' w'] | |]; simpl; try done.
  - intros [? ?]. split; [by repeat constructor | done].
  - intros [? ?] _. split; [by repeat constructor | done].
Qed.

Lemma only_this_clean_return {R} (o : outcome R (@Vector T * @world T Env)) w :
  match o with
  | Normal _ (v', w') => tight v' /\ leaked w' = leaked w
  | Thrown _ | AssertFail => True
  | Undefined => False
  end ->
  match only_this o with
  | Normal _ (vs, w') => Forall tight vs /\ leaked w' = leaked w
  | Thrown (vs, w') => true = false -> Forall tight vs /\ leaked w' = leaked w
  | AssertFail => True
  | Undefined => False
  end.
Proof.
  unfold only_this. destruct o as [r [v' w'] | [v' w'] | |]; simpl; try done.
  intros [? ?]. split; [by repeat constructor | done].
Qed.

Lemma EmplaceBack_clean args v w :
  well_formed v -> tight v ->
  Z.max 1 (Capacity v * 2) * sizeof <= SIZE_MAX ->
  match EmplaceBack args v w with
  | Normal _ (v', w') => tight v' /\ leaked w' = leaked w
  | Thrown _ | AssertFail => True
  | Undefined => False
  end.
Proof.
  intros Hv Ht Hd. pose proof (EmplaceBack_any args v w Hv Hd) as H.
  destruct (EmplaceBack args v w) as [r [v' w'] | [v' w'] | |]; try done.
  destruct H as (_ & _ & _ & _ & _ & _ & Hclean). auto.
Qed.

Lemma Emplace_clean pos args v w :
  well_formed v -> tight v ->
  Z.max 1 (Capacity v * 2) * sizeof <= SIZE_MAX ->
  match Emplace pos args v w with
  | Normal _ (v', w') => tight v' /\ leaked w' = leaked w
  | Thrown _ | AssertFail => True
  | Undefined => False
  end.
Proof.
  intros Hv Ht Hd.
  destruct (decide (0 <= pos <= size_ v)) as [Hp|Hp].
  - pose proof (Emplace_any pos args v w Hv Hp Hd) as H.
    destruct (Emplace pos args v w) as [r [v' w'] | [v' w'] | |]; try done.
    destruct H as (_ & _ & _ & _ & Hclean). auto.
  - by rewrite Emplace_outside.
Qed.

Lemma Reserve_clean n v w :
  well_formed v -> tight v -> 0 <= n -> n * sizeof <= SIZE_MAX ->
  match Reserve n v w with
  | Normal _ (v', w') | Thrown (v', w') => tight v' /\ leaked w' = leaked w
  | AssertFail => True
  | Undefined => False
  end.
Proof.
  intros Hv Ht Hn Hb. pose proof (Reserve_any n v w Hv Hn Hb) as H.
  destruct (Reserve n v w) as [[] [v' w'] | [v' w'] | |]; try done.
  - destruct H as (_ & _ & _ & _ & Hclean). auto.
  - destruct H as (_ & _ & _ & _ & _ & Hleak & Htight). auto.
Qed.

Lemma Resize_clean n v w :
  well_formed v -> tight v -> 0 <= n -> n * sizeof <= SIZE_MAX ->
  match Resize n v w with
  | Normal _ (v', w') | Thrown (v', w') => tight v' /\ leaked w' = leaked w
  | AssertFail => True
  | Undefined => False
  end.
Proof.
  intros Hv Ht Hn Hb.
  destruct (Z.lt_trichotomy n (size_ v)) as [Hlt|[->|Hgt]].
  - destruct (Resize_shrink n v w Hv ltac:(lia))
      as (v' & -> & _ & Hs' & _ & Hat).
    unfold Size in *. split; [|done]. intros j Hj. rewrite Hat.
    zcases; try done; apply Ht; lia.
  - by rewrite Resize_same.
  - pose proof (Resize_grow n v w Hv Hgt Hb) as H.
    pose proof (Resize_grow_full n v w Hv Hgt Hb) as HF.
    destruct (Resize n v w) as [[] [v' w'] | [v' w'] | |]; try done.
    + auto.
    + destruct HF as (_ & _ & Hclean). auto.
Qed.

Lemma PopBack_clean v w :
  well_formed v -> tight v ->
  match PopBack v w with
  | Normal _ (v', w') | Thrown (v', w') => tight v' /\ leaked w' = leaked w
  | AssertFail => True
  | Undefined => False
  end.
Proof.
  intros Hv Ht. destruct (decide (0 < size_ v)) as [Hpos|Hpos].
  - destruct (PopBack_spec v w Hv Hpos) as (v' & -> & _ & Hs & _ & Hlast & Hat).
    unfold Size, element in *. split; [|done]. intros j Hj.
    destruct (Z.eq_dec j (size_ v - 1)) as [->|Hne]; [done|].
    rewrite Hat by done. apply Ht. lia.
  - unfold PopBack. by destruct (Z.ltb_spec 0 (size_ v)); [lia|].
Qed.

Lemma Erase_clean pos v w :
  well_formed v -> tight v -> 0 <= pos < size_ v ->
  match Erase pos v w with
  | Normal _ (v', w') | Thrown (v', w') => tight v' /\ leaked w' = leaked w
  | AssertFail => True
  | Undefined => False
  end.
Proof.
  intros Hv Ht Hp. pose proof (Erase_spec pos v w Hv Hp) as H.
  pose proof (Erase_thrown_tight pos v w Hv Hp Ht) as HT.
  destruct (Erase pos v w) as [r [v' w'] | [v' w'] | |]; try done.
  - destruct H as (_ & Hs & _ & _ & Hleak & Hat). unfold Size in *.
    split; [|done]. intros j Hj. rewrite Hat.
    zcases; try done; try lia; apply Ht; lia.
  - destruct H as (_ & _ & _ & _ & Hleak). auto.
Qed.

(** Started on a valid, tight container (nothing in the block past the
    live range), with operands of the same kind, [Erase] at the position of
    an element and move assignment onto an empty target, every public
    operation that returns leaves tight containers behind and has lost no
    object: whatever it took out of a block it destroyed or handed on.
    The same holds when the call leaves by an exception, for every
    operation except the four that build a new element ([PushBack],
    [EmplaceBack], [Insert], [Emplace]). *)
Theorem no_object_lost op v w :
  valid v -> tight v -> operands_valid op -> operands_tight op ->
  in_contract op v -> target_empty op v ->
  match perform op v w with
  | Normal _ (vs, w') => Forall tight vs /\ leaked w' = leaked w
  | Thrown (vs, w') =>
      builds_element op = false -> Forall tight vs /\ leaked w' = leaked w
  | AssertFail => True
  | Undefined => False
  end.
Proof.
  intros Hval Ht Hop Hopt Hin Hemp. assert (Hv := proj1 Hval).
  assert (Hd := valid_doubling v Hval).
  pose proof PTRDIFF_MAX_le_SIZE_MAX as HM. unfold Size in *.
  destruct op;
    cbn [perform operands_valid operands_tight in_contract target_empty
         builds_element] in *.
  - split; [|done]. repeat constructor; [apply tight_empty | done].
  - destruct Hop as [Hn Hb].
    pose proof (Vector_sized_full size w Hn (Z.le_trans _ _ _ Hb HM)) as H.
    destruct (Vector_sized size w) as [v' w' | w' | |]; cbn [andthen];
      try done.
    + destruct H as (_ & Ht' & _ & _ & _ & Hleak).
      split; [by repeat constructor | done].
    + destruct H as (_ & Hleak). intros _.
      split; [by repeat constructor | done].
  - pose proof (Vector_copy_spec v w Hv
                 (Z.le_trans _ _ _ (valid_size_bytes v Hval) HM)) as H.
    destruct (Vector_copy v w) as [v' w' | w' | |]; cbn [andthen]; try done.
    + destruct H as (_ & Ht' & _ & _ & _ & Hleak).
      split; [by repeat constructor | done].
    + destruct H as (_ & Hleak). intros _.
      split; [by repeat constructor | done].
  - unfold Vector_move, RawMemory_move_assign. cbv beta iota zeta. split.
    + repeat constructor; [by apply tight_eta | apply tight_moved_from].
    + simpl. apply app_nil_r.
  - assert (Hb := Z.le_trans _ _ _ (valid_size_bytes rhs Hop) HM).
    pose proof (copy_assign_clean rhs v w Hv (proj1 Hop) Hb Ht) as H.
    pose proof (copy_assign_spec rhs v w Hv (proj1 Hop) Hb) as HS.
    destruct (copy_assign rhs v w) as [[] [v' w'] | [v' w'] | |];
      cbn [andthen fst snd]; try done.
    + destruct H. split; [by repeat constructor | done].
    + destruct H. intros _. split; [by repeat constructor | done].
  - apply only_this_clean. by unfold copy_assign_self.
  - unfold move_assign, RawMemory_move_assign. cbv beta iota zeta. split.
    + repeat constructor; [by apply tight_eta | apply tight_moved_from].
    + simpl. rewrite live_empty by done. apply app_nil_r.
  - unfold move_assign_self. split; [by repeat constructor | done].
  - unfold Swap, RawMemory_Swap. cbv beta iota zeta. split; [|done].
    repeat constructor; by apply tight_eta.
  - destruct Hop as [Hn Hb]. apply only_this_clean.
    apply Reserve_clean; [done | done | done | lia].
  - destruct Hop as [Hn Hb]. apply only_this_clean.
    apply Resize_clean; [done | done | done | lia].
  - apply only_this_clean_return. unfold PushBack.
    pose proof (EmplaceBack_clean value v w Hv Ht Hd) as H.
    by destruct (EmplaceBack value v w) as [r [v' w'] | [v' w'] | |].
  - apply only_this_clean_return. by apply EmplaceBack_clean.
  - apply only_this_clean. by apply PopBack_clean.
  - apply only_this_clean_return. by apply Emplace_clean.
  - apply only_this_clean_return. by apply Emplace_clean.
  - apply only_this_clean. by apply Erase_clean.
Qed.

End ResourceFacts.

(** ** Removal as a sequence, and a failed insertion *)

Section RemovalFacts.

Context {T Args Env : Type} `{Elt : !Element T Args Env}.
Implicit Types (b src dst : list (option T)) (i j : Z) (w : @world T Env)
  (v other rhs : @Vector T) (m : @RawMemory T) (l c : list T).

Lemma Erase_last v w :
  well_formed v -> 0 < size_ v ->
  Erase (size_ v - 1) v w =
  andthen (PopBack v w) id (fun _ s => Normal (size_ v - 1) s).
Proof.
  intros Hv Hpos. assert (Hfit := well_formed_fits v Hv).
  assert (Hm : size_ v <= SIZE_MAX) by (destruct Hv as (? & ? & ? & _); lia).
  unfold Erase, PopBack, std_move, end_.
  destruct (Z.ltb_spec 0 (size_ v)); [|lia].
  replace (Z.to_nat (0 + size_ v - (size_ v - 1 + 1))) with O by lia.
  cbn [move_n andthen fst snd id size_ set_size].
  rewrite wrap_small by lia.
  replace (0 + size_ v - 1) with (size_ v - 1) by lia.
  destruct (Z.eqb_spec (size_ v - 1) 0) as [E|E]; [|done].
  unfold end_. cbn [size_ set_size]. by rewrite Z.add_0_l.
Qed.

(** [PopBack()] on a non-empty container destroys the last element and
    nothing else: the sequence of values loses its last value, the
    capacity stays, a tight container stays tight; [Erase(end() - 1)] ends
    in the same state.  On an empty container the assert stops the call. *)
Theorem PopBack_removes_last v w :
  valid v ->
  (0 < Size v ->
     exists v',
       PopBack v w = Normal tt (v', w) /\
       valid v' /\ Size v' = Size v - 1 /\ Capacity v' = Capacity v /\
       contents v' = take (Z.to_nat (Size v - 1)) (contents v) /\
       (tight v -> tight v') /\
       Erase (Size v - 1) v w = Normal (Size v - 1) (v', w)) /\
  (Size v = 0 -> PopBack v w = AssertFail).
Proof.
  intros Hval. assert (Hv := proj1 Hval). unfold Size. split.
  - intros Hpos. assert (Hlen := length_contents v Hv).
    pose proof (Erase_last v w Hv Hpos) as HE.
    destruct (PopBack_spec v w Hv Hpos)
      as (v' & HP & Hv' & Hs' & Hc' & Hlast & Hat).
    unfold Size, element in *. rewrite HP in HE. cbn [andthen id] in HE.
    exists v'. split_and!; try done.
    + by apply (valid_capacity v).
    + apply contents_intro; [by apply well_formed_fits | |].
      * rewrite length_take_le; lia.
      * intros i Hi. rewrite Hat by lia.
        rewrite lookup_take_lt by lia. apply contents_at; [done | lia].
    + intros Ht j Hj. destruct (Z.eq_dec j (size_ v - 1)) as [->|Hne]; [done|].
      rewrite Hat by done. apply Ht. lia.
  - intros H0. unfold PopBack. by destruct (Z.ltb_spec 0 (size_ v)); [lia|].
Qed.

(** [Erase(pos)] at the position of an element takes that value out of
    the sequence and keeps the others in order; no object is lost, a tight
    container stays tight.  When a move assignment throws, the size is the
    old one and still nothing is lost. *)
Theorem Erase_removes pos v w :
  valid v -> 0 <= pos < Size v ->
  match Erase pos v w with
  | Normal r (v', w') =>
      valid v' /\ r = pos /\ Size v' = Size v - 1 /\
      contents v' = delete (Z.to_nat pos) (contents v) /\
      leaked w' = leaked w /\ (tight v -> tight v')
  | Thrown (v', w') =>
      ~ quiet /\ valid v' /\ Size v' = Size v /\
      leaked w' = leaked w /\ (tight v -> tight v')
  | AssertFail | Undefined => False
  end.
Proof.
  intros Hval Hp. assert (Hv := proj1 Hval).
  unfold Size in *. assert (Hlen := length_contents v Hv).
  pose proof (Erase_spec pos v w Hv Hp) as H.
  pose proof (Erase_thrown_tight pos v w Hv Hp) as HT.
  destruct (Erase pos v w) as [r [v' w'] | [v' w'] | |]; try done.
  - destruct H as (Hv' & Hs' & Hc' & -> & Hleak & Hat). unfold Size in *.
    split_and!; try done.
    + by apply (valid_capacity v).
    + apply contents_intro; [by apply well_formed_fits | |].
      * rewrite length_delete by (apply lookup_lt_is_Some_2; lia). lia.
      * intros i Hi. rewrite Hat.
        destruct (Z.leb_spec pos i); destruct (Z.ltb_spec i (size_ v - 1));
          simpl andb; cbv iota; try lia.
        -- rewrite list_lookup_delete_ge by lia.
           rewrite contents_at by (done || lia). f_equal. lia.
        -- destruct (Z.eqb_spec i (size_ v - 1)); [lia|].
           rewrite list_lookup_delete_lt by lia.
           apply contents_at; [done | lia].
    + intros Ht j Hj. rewrite Hat.
      zcases; try done; try lia; apply Ht; lia.
  - destruct H as (Hq & Hv' & Hs' & Hc' & Hleak). split_and!; try done.
    by apply (valid_capacity v).
Qed.

Lemma live_drop_Some b (n : nat) (y : T) :
  b !! n = Some (Some y) -> live (drop n b) <> [].
Proof. intros Hn. by rewrite (drop_S _ _ _ Hn). Qed.

(** [Emplace] in front of an element, with spare capacity, for an element
    type whose move constructor is [noexcept]: when the constructor of the
    new value does not throw and the call still leaves by an exception (a
    move assignment threw), the object that was move-constructed at [end()]
    is still in the block, past the live range of the container the
    exception leaves behind.  No destructor is run for it: destroying the
    container loses it. *)
Theorem Emplace_failure_strands_object pos args v w :
  valid v -> tight v -> 0 <= pos < Size v -> Size v < Capacity v ->
  nothrow_move_constructible = true ->
  throws (Construct args) (env w) = false ->
  match Emplace pos args v w with
  | Thrown (v', w') =>
      valid v' /\ Size v' = Size v /\
      is_Some (element v' (Size v')) /\ ~ tight v' /\
      leaked w' = leaked w /\
      leaked (Vector_destroy v' w') <> leaked w'
  | _ => True
  end.
Proof.
  intros Hval Ht Hp Hlt Hnm Hct. assert (Hv := proj1 Hval).
  unfold Emplace, Size, element in *.
  rewrite Emplace_asserts_position by lia. cbv iota.
  assert (Hv' := Hv). destruct Hv' as (Hs & Hc & Hm & Hl).
  destruct (Z.eqb_spec (size_ v) (Capacity v)); [lia|].
  destruct (Z.ltb_spec (size_ v) (Capacity v)); [|lia].
  unfold begin_, end_. replace (pos - 0) with pos by lia.
  rewrite !Z.add_0_l.
  destruct (Z.eqb_spec pos (size_ v)) as [->|Hne]; [lia|].
  unfold ask at 1. rewrite Hct.
  set (w1 := Build_world _ _).
  destruct (Hl (size_ v - 1) ltac:(lia)) as [x Hx].
  cbn [uninitialized_move_n_within]. rewrite Hx. unfold ask at 1.
  rewrite (nothrow_move_sound Hnm). cbn [andthen fst snd].
  unfold Capacity in *.
  rewrite place_inside by (rewrite length_store; lia).
  cbn [andthen fst snd].
  set (b1 := store (store (buffer_ (data_ v)) (size_ v - 1)
                      (Some (moved_from x))) (size_ v) (Some x)).
  assert (Hb1 : forall j, at_ b1 j =
            if j =? size_ v then Some x
            else if j =? size_ v - 1 then Some (moved_from x)
                 else at_ (buffer_ (data_ v)) j).
  { intros j. subst b1.
    rewrite !at_store, inside_store, !(proj2 (inside_true _ _)) by lia. zdone. }
  assert (Lb1 : length b1 = length (buffer_ (data_ v)))
    by (subst b1; by rewrite !length_store).
  set (w2 := leak _ _).
  assert (Hw2 : leaked w2 = leaked w).
  { subst w2 w1. simpl. rewrite at_store_ne by lia.
    rewrite Ht by lia. apply app_nil_r. }
  assert (Hstranded : forall b' w',
    length b' = length b1 ->
    (forall j, is_Some (at_ b1 j) -> is_Some (at_ b' j)) ->
    leaked w' = leaked w ->
    valid (set_buffer v b') /\ size_ (set_buffer v b') = size_ v /\
    is_Some (at_ (buffer_ (data_ (set_buffer v b'))) (size_ (set_buffer v b'))) /\
    ~ tight (set_buffer v b') /\
    leaked w' = leaked w /\
    leaked (Vector_destroy (set_buffer v b') w') <> leaked w').
  { intros b' w' Lb' Hsome Hleak.
    assert (Hend : is_Some (at_ b' (size_ v))).
    { apply Hsome. rewrite Hb1, Z.eqb_refl. eauto. }
    assert (Hv2 : well_formed (set_buffer v b')).
    { apply well_formed_set_buffer; [done | congruence |].
      intros j Hj. apply Hsome. rewrite Hb1. zcases; eauto. }
    cbn [size_ data_ set_buffer set_raw buffer_].
    split_and!; try done.
    - by apply (valid_capacity v).
    - intros Ht'. specialize (Ht' (size_ v) ltac:(simpl; lia)).
      cbn [size_ data_ set_buffer set_raw buffer_] in Ht'.
      rewrite Ht' in Hend. by destruct Hend.
    - rewrite Vector_destroy_leak by done.
      cbn [size_ data_ set_buffer set_raw buffer_].
      destruct Hend as [y Hy]. rewrite at_lookup in Hy by lia.
      destruct (b' !! Z.to_nat (size_ v)) as [[y'|]|] eqn:E; try done.
      pose proof (live_drop_Some b' _ y' E) as Hlive.
      intros Heq. apply Hlive.
      apply (f_equal length) in Heq. rewrite length_app in Heq.
      destruct (live (drop _ b')); [done | simpl in Heq; lia]. }
  unfold move_backward.
  set (k := Z.to_nat (size_ v - 1 - pos)).
  pose proof (move_backward_right_spec k b1 (size_ v - 1) w2) as HB.
  replace (size_ v - 1 + 1) with (size_ v) in HB by lia.
  specialize (HB ltac:(intros j Hj; rewrite Hb1; zcases; eauto; apply Hl; lia)).
  destruct (move_backward_n b1 (size_ v - 1) k (size_ v) w2)
    as [[] [b2 w3] | [b2 w3] | |]; cbn [andthen fst snd]; try done.
  2:{ destruct HB as (Hq & L & Hleak & Hsome).
      apply Hstranded; [done | | congruence]. intros j. apply Hsome. }
  destruct HB as (L2 & Hleak2 & Hb2).
  assert (Hkeep : forall j, is_Some (at_ b1 j) -> is_Some (at_ b2 j)).
  { intros j Hj. rewrite Hb2. rewrite !Hb1 in *.
    zcases; rewrite ?fmap_is_Some; eauto; try lia; apply Hl; lia. }
  destruct (Hkeep pos) as [y Hy].
  { rewrite Hb1. zcases; eauto; try (apply Hl; lia). }
  rewrite Hy. unfold ask.
  destruct (throws (MoveAssign y (make args)) (env w3)) eqn:Et3.
  - apply Hstranded; [done | done | simpl; congruence].
  - unfold return_slot, RawMemory_index.
    cbn [size_ data_ set_size set_buffer set_raw buffer_ capacity_].
    by destruct (pos <? capacity_ (data_ v)).
Qed.

End RemovalFacts.

(** ** Growth for an element type with a [noexcept] move constructor *)

Section NoexceptMoveFacts.

Context {T Args Env : Type} `{Elt : !Element T Args Env}.
Implicit Types (b src dst : list (option T)) (i j : Z) (w : @world T Env)
  (v other rhs : @Vector T) (m : @RawMemory T) (l c : list T).

Hypothesis noexcept_move : nothrow_move_constructible = true.

Lemma moves_when_noexcept : moves_elements = true.
Proof. unfold moves_elements. by rewrite noexcept_move. Qed.

Lemma CopyOrMoveData_returns new_data v w :
  well_formed v -> size_ v <= Z.of_nat (length (buffer_ new_data)) ->
  match CopyOrMoveData new_data v w with
  | Normal _ _ => True
  | _ => False
  end.
Proof.
  intros Hv Hfit. unfold CopyOrMoveData. rewrite transfer_n_choice.
  assert (Hs : 0 <= size_ v) by (destruct Hv as ((? & ?) & _); lia).
  pose proof (transfer_spec moves_elements (Z.to_nat (size_ v))
                (buffer_ (data_ v)) 0 (buffer_ new_data) 0 w) as HT.
  rewrite Z2Nat.id in HT by done.
  specialize (HT (fun i Hi => well_formed_live v (0 + i) Hv ltac:(lia))
                ltac:(lia) ltac:(lia)).
  destruct (uninitialized_transfer _ _ _ _ _ _ _)
    as [[] [[src dst] w'] | [[src dst] w'] | |]; simpl; try done.
  destruct HT as (_ & _ & _ & _ & _ & _ & Hmove & _).
  specialize (Hmove moves_when_noexcept). congruence.
Qed.

Lemma CopyOrMovePartData_returns new_data pos v w :
  well_formed v -> 0 <= pos <= size_ v ->
  size_ v + 1 <= Z.of_nat (length (buffer_ new_data)) ->
  match CopyOrMovePartData new_data pos v w with
  | Normal _ _ => True
  | _ => False
  end.
Proof.
  intros Hv Hp Hfit. unfold CopyOrMovePartData.
  rewrite transfer_range_choice. unfold begin_, end_.
  assert (Hv' := Hv). destruct Hv' as (Hs & Hc & Hm & Hl).
  replace (0 + (pos - 0) + 1) with (pos + 1) by lia.
  set (n1 := Z.to_nat (pos - 0)). set (n2 := Z.to_nat (0 + size_ v - pos)).
  pose proof (transfer_spec moves_elements n1
                (buffer_ (data_ v)) 0 (buffer_ new_data) 0 w) as H1.
  specialize (H1 ltac:(intros i Hi; apply Hl; lia) ltac:(lia) ltac:(lia)).
  destruct (uninitialized_transfer moves_elements _ 0 n1 _ 0 w)
    as [[] [[src1 dst1] w1] | [[src1 dst1] w1] | |]; cbn [andthen]; try done.
  2:{ destruct H1 as (_ & _ & _ & _ & _ & _ & Hmove & _).
      specialize (Hmove moves_when_noexcept). congruence. }
  destruct H1 as (L1 & L2 & Hdst1 & Hsrc1 & Hleak1).
  pose proof (transfer_spec moves_elements n2 src1 pos dst1 (pos + 1) w1) as H2.
  assert (Hsome1 : forall j, is_Some (at_ (buffer_ (data_ v)) j) ->
                             is_Some (at_ src1 j)).
  { intros j [x Hx]. rewrite Hsrc1, Hx. destruct (_ && _); simpl; eauto. }
  specialize (H2 ltac:(intros i Hi; apply Hsome1, Hl; lia) ltac:(lia) ltac:(lia)).
  rewrite transfer_range_choice. fold n2.
  destruct (uninitialized_transfer moves_elements src1 pos n2 dst1 (pos + 1) w1)
    as [[] [[src2 dst2] w2] | [[src2 dst2] w2] | |]; cbn [andthen]; try done.
  destruct H2 as (_ & _ & _ & _ & _ & _ & Hmove & _).
  specialize (Hmove moves_when_noexcept). congruence.
Qed.

Lemma Reserve_noexcept new_capacity v w :
  well_formed v ->
  match Reserve new_capacity v w with
  | Thrown (v', w') => v' = v /\ leaked w' = leaked w
  | _ => True
  end.
Proof.
  intros Hv. pose proof (Reserve_thrown new_capacity v w Hv) as H.
  destruct (Reserve new_capacity v w) as [[] [v' w'] | [v' w'] | |];
    try done.
  destruct H as (_ & _ & _ & _ & _ & Hsame & Hleak). auto.
Qed.

Lemma EmplaceBack_noexcept args v w :
  well_formed v -> size_ v = Capacity v ->
  Z.max 1 (Capacity v * 2) * sizeof <= SIZE_MAX ->
  match EmplaceBack args v w with
  | Thrown (v', w') => v' = v /\ leaked w' = leaked w
  | _ => True
  end.
Proof.
  intros Hv He Hd. unfold EmplaceBack.
  assert (Hv' := Hv). destruct Hv' as (Hs & Hc & Hm & Hl).
  rewrite doubled_capacity by done.
  set (N := Z.max 1 (Capacity v * 2)) in *.
  assert (HN : size_ v < N <= SIZE_MAX).
  { split; [lia|]. apply count_le_bytes; [lia | done]. }
  rewrite He, Z.eqb_refl, <- He.
  unfold RawMemory_new.
  pose proof (Allocate_spec N w ltac:(lia) Hd) as HA.
  destruct (Allocate N w) as [b w1 | w1 | |]; cbn [andthen id]; try done.
  2:{ by destruct HA. }
  destruct HA as [-> HA].
  set (nd := {| buffer_ := _; capacity_ := N |}).
  unfold construct_at, ask.
  destruct (throws (Construct args) (env w1)) eqn:Et; cbn [andthen fst snd].
  { split; [done|]. rewrite leaked_destroy_None; [done|].
    intros j. apply at_replicate_None. }
  assert (Hlen : Z.of_nat (length (buffer_ nd)) = N)
    by (simpl; rewrite length_replicate; lia).
  rewrite place_inside by lia. cbn [andthen fst snd].
  set (b1 := store (buffer_ nd) (size_ v) (Some (make args))).
  set (w2 := leak _ _).
  pose proof (CopyOrMoveData_returns (set_raw nd b1) v w2 Hv) as HC.
  specialize (HC ltac:(simpl; subst b1; rewrite length_store; lia)).
  destruct (CopyOrMoveData (set_raw nd b1) v w2)
    as [[] [[v' nd'] w'] | [[v' nd'] w'] | |]; cbn [andthen]; try done.
  unfold return_slot, RawMemory_index.
  by destruct (_ <? _).
Qed.

Lemma Emplace_noexcept pos args v w :
  well_formed v -> 0 <= pos <= size_ v -> size_ v = Capacity v ->
  Z.max 1 (Capacity v * 2) * sizeof <= SIZE_MAX ->
  match Emplace pos args v w with
  | Thrown (v', w') => v' = v /\ leaked w' = leaked w
  | _ => True
  end.
Proof.
  intros Hv Hp He Hd. unfold Emplace.
  rewrite Emplace_asserts_position by done. cbv iota.
  assert (Hv' := Hv). destruct Hv' as (Hs & Hc & Hm & Hl).
  rewrite doubled_capacity by done.
  set (N := Z.max 1 (Capacity v * 2)) in *.
  assert (HN : size_ v < N <= SIZE_MAX).
  { split; [lia|]. apply count_le_bytes; [lia | done]. }
  destruct (Z.eqb_spec (size_ v) (Capacity v)); [|lia].
  unfold begin_. replace (pos - 0) with pos by lia.
  unfold RawMemory_new.
  pose proof (Allocate_spec N w ltac:(lia) Hd) as HA.
  destruct (Allocate N w) as [b w1 | w1 | |]; cbn [andthen id]; try done.
  2:{ by destruct HA. }
  destruct HA as [-> HA].
  set (nd := {| buffer_ := _; capacity_ := N |}).
  unfold construct_at, ask.
  destruct (throws (Construct args) (env w1)) eqn:Et; cbn [andthen fst snd].
  { split; [done|]. rewrite leaked_destroy_None; [done|].
    intros j. apply at_replicate_None. }
  assert (Hlen : Z.of_nat (length (buffer_ nd)) = N)
    by (simpl; rewrite length_replicate; lia).
  rewrite place_inside by lia. cbn [andthen fst snd].
  set (b1 := store (buffer_ nd) pos (Some (make args))).
  set (w2 := leak _ _).
  pose proof (CopyOrMovePartData_returns (set_raw nd b1) pos v w2 Hv Hp) as HC.
  specialize (HC ltac:(simpl; unfold b1; rewrite length_store; lia)).
  destruct (CopyOrMovePartData (set_raw nd b1) pos v w2)
    as [[] [[v' nd'] w'] | [[v' nd'] w'] | |]; cbn [andthen]; try done.
  unfold return_slot, RawMemory_index.
  by destruct (_ <? _).
Qed.

(** For an element type whose move constructor is [noexcept],
    [CopyOrMoveData] and [CopyOrMovePartData] move and cannot fail: when
    [Reserve], [EmplaceBack] at capacity or [Emplace] at capacity leaves by
    an exception, it was thrown by [operator new] or by the constructor of
    the new element, the container is exactly the one from before the call
    and no object is lost, copy-constructible element type or not. *)
Theorem noexcept_move_growth_is_safe v w :
  valid v ->
  (forall new_capacity, Capacity v < new_capacity <= SIZE_MAX ->
     match Reserve new_capacity v w with
     | Thrown (v', w') => v' = v /\ leaked w' = leaked w
     | _ => True
     end) /\
  (forall args, Size v = Capacity v -> Size v * 2 <= SIZE_MAX ->
     match EmplaceBack args v w with
     | Thrown (v', w') => v' = v /\ leaked w' = leaked w
     | _ => True
     end) /\
  (forall pos args,
     0 <= pos <= Size v -> Size v = Capacity v -> Size v * 2 <= SIZE_MAX ->
     match Emplace pos args v w with
     | Thrown (v', w') => v' = v /\ leaked w' = leaked w
     | _ => True
     end).
Proof.
  intros Hval. assert (Hv := proj1 Hval).
  assert (Hd := valid_doubling v Hval). unfold Size. split_and!.
  - intros n _. by apply Reserve_noexcept.
  - intros args He _. by apply EmplaceBack_noexcept.
  - intros pos args Hp He _. by apply Emplace_noexcept.
Qed.

End NoexceptMoveFacts.

(** ** Copy assignment and the block of the target *)

Section AssignmentFacts.

Context {T Args Env : Type} `{Elt : !Element T Args Env}.
Implicit Types (b src dst : list (option T)) (i j : Z) (w : @world T Env)
  (v other rhs : @Vector T) (m : @RawMemory T) (l c : list T).

(** Copy assignment replaces the block of the target only when [rhs] does
    not fit its capacity, and then the new capacity is [rhs.Size()], not
    [rhs.Capacity()]; when [rhs] fits, the capacity is the old one.  When
    the call leaves by an exception, size and capacity are the old ones,
    and on the replacing path the target is exactly the one from before
    (on the other path elements may already have been assigned to). *)
Theorem copy_assign_reuses_block rhs v w :
  valid v -> valid rhs ->
  match copy_assign rhs v w with
  | Normal _ (v', _) =>
      contents v' = contents rhs /\
      Capacity v' =
        (if Capacity v <? Size rhs then Size rhs else Capacity v)
  | Thrown (v', _) =>
      ~ quiet /\ Size v' = Size v /\ Capacity v' = Capacity v /\
      (Capacity v < Size rhs -> v' = v)
  | AssertFail | Undefined => False
  end.
Proof.
  intros Hv Hr. pose proof (valid_copy_assign rhs v w Hv Hr) as HS.
  pose proof (copy_assign_fields rhs v w) as HF.
  destruct (copy_assign rhs v w) as [[] [v' w'] | [v' w'] | |]; try done.
  - destruct HS as (Hv' & Hs' & Hat). split; [|done].
    apply contents_eq; [apply Hr | apply Hv' | done | done].
  - destruct HS as [Hq _]. by destruct HF as (? & ? & ?).
Qed.

(** Move assignment takes the block of [rhs] and leaves [rhs] empty; the
    block the target held is neither destroyed nor given back, so the
    objects in it are lost: for a valid, tight target these are exactly
    its elements.  With a valid [rhs] both containers are valid
    afterwards. *)
Theorem move_assign_drops_target rhs v w :
  let '(v', rhs', w') := move_assign rhs v w in
  elements v' = elements rhs /\ Size v' = Size rhs /\
  Capacity v' = Capacity rhs /\
  Size rhs' = 0 /\ Capacity rhs' = 0 /\
  leaked w' = leaked w ++ live (buffer_ (data_ v)) /\
  (valid v -> tight v -> leaked w' = leaked w ++ contents v) /\
  (valid rhs -> valid v' /\ valid rhs').
Proof.
  unfold move_assign, RawMemory_move_assign. cbv beta iota zeta.
  split_and!; try done.
  - intros [Hv _] Ht. simpl. by rewrite live_tight.
  - intros Hr. split; [by apply valid_eta | apply valid_moved_from].
Qed.

End AssignmentFacts.

(** ** A request whose bytes are not a [size_t] *)

Section OverflowFacts.

Context {T Args Env : Type} `{Elt : !Element T Args Env}.
Implicit Types (b src dst : list (option T)) (i j : Z) (w : @world T Env)
  (v other rhs : @Vector T) (m : @RawMemory T) (l c : list T).

(** the transfer of more objects than the destination block has room for
    runs past the block *)
Lemma transfer_overrun mv n : forall src first dst d w,
  quiet ->
  (forall i, 0 <= i < Z.of_nat n -> is_Some (at_ src (first + i))) ->
  0 <= d <= Z.of_nat (length dst) ->
  Z.of_nat (length dst) < d + Z.of_nat n ->
  uninitialized_transfer mv src first n dst d w = Undefined.
Proof.
  induction n as [|n IH]; intros src first dst d w Hq Hsrc Hd Hlen; [lia|].
  cbn [uninitialized_transfer].
  destruct (Hsrc 0 ltac:(lia)) as [x Hx]. rewrite Z.add_0_r in Hx. rewrite Hx.
  unfold ask. rewrite Hq. unfold place.
  destruct (inside dst d) eqn:Hin; [|done].
  apply inside_true in Hin.
  set (src1 := if mv then store src first (Some (moved_from x)) else src).
  rewrite (IH src1); [done | done | | rewrite length_store; lia
                     | rewrite length_store; lia].
  intros i Hi. replace (first + 1 + i) with (first + (i + 1)) by lia.
  subst src1. destruct mv; [|apply Hsrc; lia].
  rewrite at_store_ne by lia. apply Hsrc. lia.
Qed.

Lemma Allocate_quiet n w :
  quiet -> n <> 0 ->
  exists w1,
    Allocate n w =
      Normal (replicate (Z.to_nat (wrap (n * sizeof) / sizeof)) None) w1 /\
    leaked w1 = leaked w.
Proof.
  intros Hq Hn. unfold Allocate, ask.
  destruct (Z.eqb_spec n 0); [done|]. rewrite Hq. by eexists.
Qed.

(** the slots of a block whose bytes wrapped are fewer than asked for *)
Lemma wrapped_slots n :
  SIZE_MAX < n * sizeof -> 0 <= wrap (n * sizeof) / sizeof < n.
Proof.
  intros Hb. pose proof sizeof_pos as Hs.
  assert (Hw : 0 <= wrap (n * sizeof) <= SIZE_MAX).
  { unfold wrap, SIZE_MAX.
    pose proof (Z.mod_pos_bound (n * sizeof) (2 ^ 64) ltac:(lia)). lia. }
  split.
  - apply Z.div_pos; lia.
  - apply Z.div_lt_upper_bound; lia.
Qed.

(** [Reserve(new_capacity)] where [new_capacity * sizeof(T)] is not a
    [size_t]: the product wraps, and [operator new] is asked for the bytes
    of fewer than [new_capacity] objects.  When nothing throws, the call
    writes past the new block if the elements do not fit it (undefined
    behaviour); if they fit, it returns a container whose [capacity_] is
    [new_capacity] over a block of fewer slots, so the class invariant is
    lost. *)
Theorem Reserve_wrapped_request new_capacity v w :
  valid v -> quiet -> Capacity v < new_capacity <= SIZE_MAX ->
  SIZE_MAX < new_capacity * sizeof ->
  let slots := wrap (new_capacity * sizeof) / sizeof in
  0 <= slots < new_capacity /\
  (slots < Size v -> Reserve new_capacity v w = Undefined) /\
  (Size v <= slots ->
   match Reserve new_capacity v w with
   | Normal _ (v', _) =>
       Capacity v' = new_capacity /\ Size v' = Size v /\
       Z.of_nat (length (buffer_ (data_ v'))) = slots /\
       ~ valid v'
   | _ => False
   end).
Proof.
  intros [Hv _] Hq Hn Hb slots.
  assert (Hslots := wrapped_slots new_capacity Hb). fold slots in Hslots.
  assert (Hv' := Hv). destruct Hv' as (Hs & Hc & Hm & Hl).
  destruct (Allocate_quiet new_capacity w Hq ltac:(lia)) as (w1 & HA & Hw1).
  fold slots in HA.
  assert (HR : Reserve new_capacity v w =
    andthen (CopyOrMoveData
               {| buffer_ := replicate (Z.to_nat slots) None;
                  capacity_ := new_capacity |} v w1)
      (fun '(v1, nd, w2) => (v1, RawMemory_destroy nd w2))
      (fun _ '(v1, nd, w2) => Normal tt (v1, RawMemory_destroy nd w2))).
  { unfold Reserve, Capacity in *.
    destruct (Z.leb_spec new_capacity (capacity_ (data_ v))); [lia|].
    unfold RawMemory_new. by rewrite HA. }
  set (nd := {| buffer_ := _; capacity_ := new_capacity |}) in HR.
  assert (Lnd : Z.of_nat (length (buffer_ nd)) = slots)
    by (simpl; rewrite length_replicate; lia).
  split; [done|]. unfold Size. split.
  - intros Hlt. rewrite HR. unfold CopyOrMoveData.
    rewrite transfer_n_choice, transfer_overrun; try done; try lia.
    intros i Hi. apply Hl. lia.
  - intros Hfit. rewrite HR.
    pose proof (CopyOrMoveData_spec nd v w1 Hv ltac:(lia)) as HC.
    destruct (CopyOrMoveData nd v w1)
      as [[] [[v' nd'] w'] | [[v' nd'] w'] | |]; cbn [andthen]; try done.
    + destruct HC as (Hsz & Hcap & Hlen & _). simpl in Hcap.
      split_and!; try done; [lia|].
      intros [(_ & Hc' & _) _]. lia.
    + by destruct HC as (Hnq & _).
Qed.

End OverflowFacts.

(** ** The contracts at concrete containers *)

Lemma at_filled (xs : list Z) (i : Z) :
  0 <= i < Z.of_nat (length xs) -> is_Some (at_ (Some <$> xs) i).
Proof.
  intros Hi. unfold at_. destruct (Z.leb_spec 0 i); [|lia].
  rewrite list_lookup_fmap.
  destruct (lookup_lt_is_Some_2 xs (Z.to_nat i) ltac:(lia)) as [x ->].
  simpl. eauto.
Qed.

Lemma well_formed_filled (xs : list Z) :
  Z.of_nat (length xs) <= SIZE_MAX -> well_formed (filled xs).
Proof.
  intros Hlen. unfold well_formed, filled, Capacity. simpl.
  rewrite length_fmap. split_and!; try lia. apply at_filled.
Qed.

Lemma valid_filled {Args Env : Type} {Elt : Element Z Args Env}
    (xs : list Z) :
  Z.of_nat (length xs) * sizeof <= PTRDIFF_MAX -> valid (filled xs).
Proof.
  intros Hb. split; [|done]. apply well_formed_filled.
  pose proof PTRDIFF_MAX_le_SIZE_MAX.
  apply (count_le_bytes (Elt := Elt)); lia.
Qed.

Lemma EmplaceBack_when_full_witness :
  valid (filled [1; 2]) /\
  Size (filled [1; 2]) = Capacity (filled [1; 2]) /\
  Size (filled [1; 2]) * 2 <= SIZE_MAX /\
  match EmplaceBack 3 (filled [1; 2]) calm with
  | Normal r (v', w') =>
      Capacity v' = Z.max 1 (Capacity (filled [1; 2]) * 2) /\
      Size v' = Size (filled [1; 2]) + 1 /\
      element v' (Size (filled [1; 2])) = Some (make 3) /\
      (forall i, 0 <= i < Size (filled [1; 2]) ->
         element v' i =
         element (filled [1; 2]) i) /\
      r = Size (filled [1; 2]) /\
      PushBack 3 (filled [1; 2]) calm = Normal tt (v', w')
  | Thrown s => ~ quiet /\ PushBack 3 (filled [1; 2]) calm = Thrown s
  | AssertFail | Undefined => False
  end.
Proof.
  assert (Hv : valid (filled [1; 2]))
    by (apply valid_filled; vm_compute; discriminate).
  assert (Hd : Size (filled [1; 2]) * 2 <= SIZE_MAX) by (vm_compute; discriminate).
  refine (conj Hv (conj eq_refl (conj Hd _))).
  exact (EmplaceBack_when_full 3 (filled [1; 2]) calm Hv eq_refl Hd).
Defined.






Lemma Erase_contract_witness :
  valid (filled [1; 2; 3]) /\ 0 <= 1 < Size (filled [1; 2; 3]) /\
  match Erase 1 (filled [1; 2; 3]) calm with
  | Normal r (v', w') =>
      (forall i, 1 < i < Size (filled [1; 2; 3]) ->
         element v' (i - 1) =
         element (filled [1; 2; 3]) i) /\
      (forall i, 0 <= i < 1 ->
         element v' i =
         element (filled [1; 2; 3]) i) /\
      element v' (Size (filled [1; 2; 3]) - 1) = None /\
      Size v' = Size (filled [1; 2; 3]) - 1 /\
      r = 1 /\
      (1 < Size (filled [1; 2; 3]) - 1 ->
         element v' r =
         element (filled [1; 2; 3]) (1 + 1)) /\
      (1 = Size (filled [1; 2; 3]) - 1 -> r = end_ v')
  | Thrown (v', w') => ~ quiet
  | AssertFail | Undefined => False
  end.
Proof.
  assert (Hv : valid (filled [1; 2; 3]))
    by (apply valid_filled; vm_compute; discriminate).
  assert (Hp : 0 <= 1 < Size (filled [1; 2; 3])) by (vm_compute; split; [discriminate | reflexivity]).
  refine (conj Hv (conj Hp _)).
  exact (Erase_contract 1 (filled [1; 2; 3]) calm Hv Hp).
Defined.

Lemma well_formed_roomy : well_formed roomy.
Proof.
  unfold well_formed, roomy, Capacity, SIZE_MAX. simpl. split_and!; try lia.
  intros i Hi. replace i with 0 by lia. simpl. eauto.
Qed.

Lemma valid_roomy : valid roomy.
Proof. split; [apply well_formed_roomy | vm_compute; discriminate]. Qed.

Lemma Vector_copy_capacity_witness :
  valid roomy /\
  match Vector_copy roomy calm with
  | Normal v' w' =>
      valid v' /\
      Z.of_nat (length (buffer_ (data_ v'))) = Size roomy /\
      Capacity v' = Size roomy /\ Size v' = Size roomy /\
      Capacity v' = Size v' /\
      contents v' = contents roomy
  | Thrown w' => ~ quiet
  | AssertFail | Undefined => False
  end.
Proof.
  split; [exact valid_roomy |].
  exact (Vector_copy_capacity roomy calm valid_roomy).
Defined.

Lemma shrinking_keeps_capacity_witness :
  1 < Size (filled [1; 2; 3]) /\
  match Resize 1 (filled [1; 2; 3]) calm with
  | Normal _ (v', _) | Thrown (v', _) =>
      Capacity v' = Capacity (filled [1; 2; 3])
  | AssertFail | Undefined => True
  end.
Proof.
  assert (Hlt : 1 < Size (filled [1; 2; 3])) by reflexivity.
  split; [exact Hlt |].
  exact (proj2 (proj2 (shrinking_keeps_capacity (filled [1; 2; 3]) calm)) 1 Hlt).
Defined.

Lemma invariant_kept_witness :
  size_within_capacity roomy /\ Capacity roomy <= SIZE_MAX /\
  Size roomy * 2 <= SIZE_MAX /\
  operands_fit (OpEmplace 0 5 : @operation Z Z) /\
  kept (perform (OpEmplace 0 5) roomy calm).
Proof.
  assert (Hs : size_within_capacity roomy) by (vm_compute; split; discriminate).
  assert (Hm : Capacity roomy <= SIZE_MAX) by (vm_compute; discriminate).
  assert (Hd : Size roomy * 2 <= SIZE_MAX) by (vm_compute; discriminate).
  refine (conj Hs (conj Hm (conj Hd (conj I _)))).
  refine (invariant_kept (OpEmplace 0 5) roomy calm Hs Hm Hd I _).
  intros pos H. discriminate H.
Defined.

Lemma growth_failure_keeps_container_witness :
  valid (Elt := budgeted_element) (filled [10]) /\
  copy_constructible (Element := budgeted_element) = true /\
  Size (filled [10]) = Capacity (filled [10]) /\
  Size (filled [10]) * 2 <= SIZE_MAX /\
  match EmplaceBack (Elt := budgeted_element) 20 (filled [10])
          {| env := 0%nat; leaked := [] |} with
  | Thrown (v', _) => v' = filled [10]
  | _ => True
  end.
Proof.
  assert (Hv : valid (Elt := budgeted_element) (filled [10]))
    by (apply valid_filled; vm_compute; discriminate).
  assert (Hd : Size (filled [10]) * 2 <= SIZE_MAX) by (vm_compute; discriminate).
  refine (conj Hv (conj eq_refl (conj eq_refl (conj Hd _)))).
  exact (proj1 (proj2 (growth_failure_keeps_container (Elt := budgeted_element)
                         (filled [10]) {| env := 0%nat; leaked := [] |}
                         Hv eq_refl)) 20 eq_refl Hd).
Defined.

Lemma class_invariant_kept_witness :
  valid (filled [1; 2; 3]) /\
  operands_valid (OpReserve 5 : @operation Z Z) /\
  in_contract (OpReserve 5 : @operation Z Z) (filled [1; 2; 3]) /\
  Size (filled [1; 2; 3]) * 2 * sizeof <= PTRDIFF_MAX /\
  sound (perform (OpReserve 5) (filled [1; 2; 3]) calm).
Proof.
  assert (Hv : valid (filled [1; 2; 3]))
    by (apply valid_filled; vm_compute; discriminate).
  assert (Hop : operands_valid (OpReserve 5 : @operation Z Z))
    by (vm_compute; split; discriminate).
  assert (Hd : Size (filled [1; 2; 3]) * 2 * sizeof <= PTRDIFF_MAX)
    by (vm_compute; discriminate).
  refine (conj Hv (conj Hop (conj I (conj Hd _)))).
  exact (class_invariant_kept (OpReserve 5) (filled [1; 2; 3]) calm
           Hv Hop I Hd).
Defined.

Lemma copy_assign_contract_witness :
  valid roomy /\ valid (filled [1; 2]) /\
  match copy_assign (filled [1; 2]) roomy calm with
  | Normal _ (v', w') =>
      Size v' = Size (filled [1; 2]) /\
      contents v' = contents (filled [1; 2]) /\ valid v'
  | Thrown (v', w') => ~ quiet /\ valid v'
  | AssertFail | Undefined => False
  end.
Proof.
  assert (Hr : valid (filled [1; 2]))
    by (apply valid_filled; vm_compute; discriminate).
  refine (conj valid_roomy (conj Hr _)).
  exact (copy_assign_contract (filled [1; 2]) roomy calm valid_roomy Hr).
Defined.

(** ** The further contracts at concrete containers *)

Lemma tight_filled (xs : list Z) : tight (filled xs).
Proof.
  intros i Hi. unfold filled in *. cbn [size_ data_ buffer_] in *.
  rewrite at_fmap_Some by lia. apply lookup_ge_None_2. lia.
Qed.

Lemma tight_roomy : tight roomy.
Proof.
  intros i Hi. unfold roomy in *. cbn [size_ data_ buffer_] in *.
  rewrite at_lookup by lia.
  destruct (Z.to_nat i) as [|[|[|n]]] eqn:E; try done. lia.
Qed.

Lemma well_formed_snug : well_formed snug.
Proof.
  unfold well_formed, snug, Capacity, SIZE_MAX. simpl. split_and!; try lia.
  intros i Hi. assert (Hi' : i = 0 \/ i = 1) by lia.
  destruct Hi' as [-> | ->]; simpl; eauto.
Qed.

Lemma valid_snug {Args Env : Type} {Elt : Element Z Args Env} :
  3 * sizeof <= PTRDIFF_MAX -> valid snug.
Proof. intros Hb. split; [apply well_formed_snug | done]. Qed.

Lemma tight_snug : tight snug.
Proof.
  intros i Hi. unfold snug in *. cbn [size_ data_ buffer_] in *.
  rewrite at_lookup by lia.
  destruct (Z.to_nat i) as [|[|[|n]]] eqn:E; try done; lia.
Qed.

Lemma Vector_index_in_bounds_witness :
  valid (filled [1; 2; 3]) /\ 0 <= 1 /\ 1 < Size (filled [1; 2; 3]) /\
  Vector_index (filled [1; 2; 3]) 1 = Normal 1 tt /\
  is_Some (element (filled [1; 2; 3]) 1) /\
  element (filled [1; 2; 3]) 1 = contents (filled [1; 2; 3]) !! Z.to_nat 1.
Proof.
  assert (Hv : valid (filled [1; 2; 3]))
    by (apply valid_filled; vm_compute; discriminate).
  assert (Hi : 0 <= 1) by (vm_compute; discriminate).
  assert (Hlt : 1 < Size (filled [1; 2; 3])) by reflexivity.
  refine (conj Hv (conj Hi (conj Hlt _))).
  exact (proj1 (Vector_index_in_bounds (filled [1; 2; 3]) 1 Hv Hi) Hlt).
Defined.

Lemma Vector_destroy_releases_witness :
  valid roomy /\ tight roomy /\
  leaked (Vector_destroy roomy calm) = leaked calm.
Proof.
  refine (conj valid_roomy (conj tight_roomy _)).
  exact (proj2 (Vector_destroy_releases roomy calm valid_roomy) tight_roomy).
Defined.

Lemma Vector_sized_contract_witness :
  0 <= 3 /\ 3 * sizeof <= PTRDIFF_MAX /\
  match Vector_sized 3 calm with
  | Normal v' w' =>
      valid v' /\ tight v' /\ Size v' = 3 /\ Capacity v' = 3 /\
      Z.of_nat (length (buffer_ (data_ v'))) = 3 /\
      contents v' = replicate (Z.to_nat 3) value_init /\
      leaked w' = leaked calm
  | Thrown w' => ~ quiet /\ leaked w' = leaked calm
  | AssertFail | Undefined => False
  end.
Proof.
  assert (Hn : 0 <= 3) by (vm_compute; discriminate).
  assert (Hb : 3 * sizeof <= PTRDIFF_MAX) by (vm_compute; discriminate).
  refine (conj Hn (conj Hb _)).
  exact (Vector_sized_contract 3 calm Hn Hb).
Defined.

Lemma Vector_copy_contents_witness :
  valid roomy /\
  match Vector_copy roomy calm with
  | Normal v' w' =>
      valid v' /\ tight v' /\ contents v' = contents roomy /\
      leaked w' = leaked calm
  | Thrown w' => ~ quiet /\ leaked w' = leaked calm
  | AssertFail | Undefined => False
  end.
Proof.
  refine (conj valid_roomy _).
  exact (Vector_copy_contents roomy calm valid_roomy).
Defined.

Lemma EmplaceBack_appends_witness :
  valid roomy /\ Size roomy * 2 * sizeof <= PTRDIFF_MAX /\
  match EmplaceBack 9 roomy calm with
  | Normal r (v', w') =>
      valid v' /\ Size v' = Size roomy + 1 /\ r = Size roomy /\
      contents v' = contents roomy ++ [make 9] /\
      Capacity v' =
        (if Size roomy <? Capacity roomy then Capacity roomy
         else Z.max 1 (Capacity roomy * 2)) /\
      (tight roomy -> tight v' /\ leaked w' = leaked calm)
  | Thrown (v', w') =>
      ~ quiet /\ valid v' /\ Size v' = Size roomy /\
      Capacity v' = Capacity roomy /\
      (Size roomy < Capacity roomy \/ copy_constructible = true -> v' = roomy) /\
      (Size roomy < Capacity roomy -> leaked w' = leaked calm)
  | AssertFail | Undefined => False
  end.
Proof.
  assert (Hd : Size roomy * 2 * sizeof <= PTRDIFF_MAX)
    by (vm_compute; discriminate).
  refine (conj valid_roomy (conj Hd _)).
  exact (EmplaceBack_appends 9 roomy calm valid_roomy Hd).
Defined.

Lemma PushBack_then_PopBack_witness :
  valid roomy /\ Size roomy * 2 * sizeof <= PTRDIFF_MAX /\
  match PushBack 9 roomy calm with
  | Normal _ (v1, w1) =>
      exists v2,
        PopBack v1 w1 = Normal tt (v2, w1) /\
        valid v2 /\ contents v2 = contents roomy /\ Size v2 = Size roomy /\
        Capacity v2 = Capacity v1 /\
        (tight roomy -> Size roomy < Capacity roomy -> v2 = roomy)
  | Thrown _ => ~ quiet
  | AssertFail | Undefined => False
  end.
Proof.
  assert (Hd : Size roomy * 2 * sizeof <= PTRDIFF_MAX)
    by (vm_compute; discriminate).
  refine (conj valid_roomy (conj Hd _)).
  exact (PushBack_then_PopBack 9 roomy calm valid_roomy Hd).
Defined.

Lemma push_all_appends_witness :
  valid roomy /\
  (Size roomy + Z.of_nat (length [1; 2; 3])) * 2 * sizeof <= PTRDIFF_MAX /\
  match push_all [1; 2; 3] roomy calm with
  | Normal _ (v', w') =>
      valid v' /\
      contents v' = contents roomy ++ (make <$> [1; 2; 3]) /\
      Size v' = Size roomy + Z.of_nat (length [1; 2; 3]) /\
      (Size v' <= Capacity roomy -> Capacity v' = Capacity roomy) /\
      (Capacity v' = Capacity roomy \/ Capacity v' < 2 * Size v') /\
      (tight roomy -> tight v' /\ leaked w' = leaked calm)
  | Thrown (v', w') =>
      ~ quiet /\ valid v' /\
      (copy_constructible = true ->
       exists k : nat,
         (k < length [1; 2; 3])%nat /\
         contents v' = contents roomy ++ (make <$> take k [1; 2; 3]))
  | AssertFail | Undefined => False
  end.
Proof.
  assert (Hd : (Size roomy + Z.of_nat (length [1; 2; 3])) * 2 * sizeof
               <= PTRDIFF_MAX)
    by (vm_compute; discriminate).
  split; [exact valid_roomy | split; [exact Hd |]].
  exact (push_all_appends [1; 2; 3] roomy calm valid_roomy Hd).
Defined.

Lemma Emplace_inserts_witness :
  valid snug /\ Size snug * 2 * sizeof <= PTRDIFF_MAX /\
  0 <= 1 <= Size snug /\
  match Emplace 1 9 snug calm with
  | Normal r (v', w') =>
      valid v' /\ Size v' = Size snug + 1 /\ r = 1 /\
      element v' r = Some (make 9) /\
      contents v' =
        take (Z.to_nat 1) (contents snug) ++
        make 9 :: drop (Z.to_nat 1) (contents snug) /\
      (tight snug -> tight v' /\ leaked w' = leaked calm)
  | Thrown (v', w') =>
      ~ quiet /\ valid v' /\ Size v' = Size snug /\
      Capacity v' = Capacity snug
  | AssertFail | Undefined => False
  end.
Proof.
  assert (Hv : valid snug) by (apply valid_snug; vm_compute; discriminate).
  assert (Hd : Size snug * 2 * sizeof <= PTRDIFF_MAX)
    by (vm_compute; discriminate).
  assert (Hp : 0 <= 1 <= Size snug) by (vm_compute; split; discriminate).
  refine (conj Hv (conj Hd (conj Hp _))).
  exact (proj1 (Emplace_inserts 1 9 snug calm Hv Hd) Hp).
Defined.

Lemma Resize_on_values_witness :
  valid (Elt := countdown_element) (filled [7]) /\ 0 <= 3 /\
  3 * sizeof (Element := countdown_element) <= PTRDIFF_MAX /\
  match Resize (Elt := countdown_element) 3 (filled [7])
          {| env := 1%nat; leaked := [] |} with
  | Normal _ (v', w') =>
      valid (Elt := countdown_element) v' /\ Size v' = 3 /\
      contents v' =
        take (Z.to_nat 3) (contents (filled [7])) ++
        replicate (Z.to_nat (3 - Size (filled [7])))
          (value_init (Element := countdown_element)) /\
      (tight (filled [7]) -> tight v' /\ leaked w' = [])
  | Thrown (v', w') =>
      ~ quiet (Elt := countdown_element) /\
      valid (Elt := countdown_element) v' /\
      Size (filled [7]) < 3 /\ Size v' = Size (filled [7]) /\
      (Capacity v' = Capacity (filled [7]) \/ Capacity v' = 3) /\
      (copy_constructible (Element := countdown_element) = true ->
       contents v' = contents (filled [7])) /\
      (tight (filled [7]) -> tight v' /\ leaked w' = [])
  | AssertFail | Undefined => False
  end.
Proof.
  assert (Hv : valid (Elt := countdown_element) (filled [7]))
    by (apply valid_filled; vm_compute; discriminate).
  assert (Hn : 0 <= 3) by (vm_compute; discriminate).
  assert (Hb : 3 * sizeof (Element := countdown_element) <= PTRDIFF_MAX)
    by (vm_compute; discriminate).
  refine (conj Hv (conj Hn (conj Hb _))).
  exact (Resize_on_values (Elt := countdown_element) 3 (filled [7])
           {| env := 1%nat; leaked := [] |} Hv Hn Hb).
Defined.

Lemma no_object_lost_witness :
  valid roomy /\ tight roomy /\
  operands_valid (OpCopyAssign (filled [1; 2]) : @operation Z Z) /\
  operands_tight (OpCopyAssign (filled [1; 2]) : @operation Z Z) /\
  in_contract (OpCopyAssign (filled [1; 2]) : @operation Z Z) roomy /\
  target_empty (OpCopyAssign (filled [1; 2]) : @operation Z Z) roomy /\
  match perform (OpCopyAssign (filled [1; 2])) roomy calm with
  | Normal _ (vs, w') => Forall tight vs /\ leaked w' = leaked calm
  | Thrown (vs, w') =>
      builds_element (OpCopyAssign (filled [1; 2]) : @operation Z Z) = false ->
      Forall tight vs /\ leaked w' = leaked calm
  | AssertFail => True
  | Undefined => False
  end.
Proof.
  assert (Hr : valid (filled [1; 2]))
    by (apply valid_filled; vm_compute; discriminate).
  refine (conj valid_roomy (conj tight_roomy (conj Hr
            (conj (tight_filled [1; 2]) (conj I (conj I _)))))).
  exact (no_object_lost (OpCopyAssign (filled [1; 2])) roomy calm
           valid_roomy tight_roomy Hr (tight_filled [1; 2]) I I).
Defined.

Lemma PopBack_removes_last_witness :
  valid roomy /\ 0 < Size roomy /\
  exists v',
    PopBack roomy calm = Normal tt (v', calm) /\
    valid v' /\ Size v' = Size roomy - 1 /\ Capacity v' = Capacity roomy /\
    contents v' = take (Z.to_nat (Size roomy - 1)) (contents roomy) /\
    (tight roomy -> tight v') /\
    Erase (Size roomy - 1) roomy calm = Normal (Size roomy - 1) (v', calm).
Proof.
  assert (Hpos : 0 < Size roomy) by reflexivity.
  refine (conj valid_roomy (conj Hpos _)).
  exact (proj1 (PopBack_removes_last roomy calm valid_roomy) Hpos).
Defined.

Lemma Erase_removes_witness :
  valid (filled [1; 2; 3]) /\ 0 <= 1 < Size (filled [1; 2; 3]) /\
  match Erase 1 (filled [1; 2; 3]) calm with
  | Normal r (v', w') =>
      valid v' /\ r = 1 /\ Size v' = Size (filled [1; 2; 3]) - 1 /\
      contents v' = delete (Z.to_nat 1) (contents (filled [1; 2; 3])) /\
      leaked w' = leaked calm /\ (tight (filled [1; 2; 3]) -> tight v')
  | Thrown (v', w') =>
      ~ quiet /\ valid v' /\ Size v' = Size (filled [1; 2; 3]) /\
      leaked w' = leaked calm /\ (tight (filled [1; 2; 3]) -> tight v')
  | AssertFail | Undefined => False
  end.
Proof.
  assert (Hv : valid (filled [1; 2; 3]))
    by (apply valid_filled; vm_compute; discriminate).
  assert (Hp : 0 <= 1 < Size (filled [1; 2; 3]))
    by (vm_compute; split; [discriminate | reflexivity]).
  refine (conj Hv (conj Hp _)).
  exact (Erase_removes 1 (filled [1; 2; 3]) calm Hv Hp).
Defined.

Lemma Emplace_failure_strands_object_witness :
  valid (Elt := countdown_element) snug /\ tight snug /\ 0 <= 0 < Size snug /\
  Size snug < Capacity snug /\
  nothrow_move_constructible (Element := countdown_element) = true /\
  throws (Element := countdown_element) (Construct 9) 0%nat = false /\
  match Emplace (Elt := countdown_element) 0 9 snug
          {| env := 0%nat; leaked := [] |} with
  | Thrown (v', w') =>
      valid (Elt := countdown_element) v' /\ Size v' = Size snug /\
      is_Some (element v' (Size v')) /\ ~ tight v' /\
      leaked w' = [] /\
      leaked (Vector_destroy v' w') <> leaked w'
  | _ => True
  end.
Proof.
  assert (Hp : 0 <= 0 < Size snug)
    by (vm_compute; split; [discriminate | reflexivity]).
  assert (Hlt : Size snug < Capacity snug) by reflexivity.
  assert (Hv : valid (Elt := countdown_element) snug)
    by (apply valid_snug; vm_compute; discriminate).
  refine (conj Hv (conj tight_snug (conj Hp (conj Hlt
            (conj eq_refl (conj eq_refl _)))))).
  exact (Emplace_failure_strands_object (Elt := countdown_element) 0 9 snug
           {| env := 0%nat; leaked := [] |}
           Hv tight_snug Hp Hlt eq_refl eq_refl).
Defined.

Lemma noexcept_move_growth_is_safe_witness :
  nothrow_move_constructible (Element := countdown_element) = true /\
  valid (Elt := countdown_element) (filled [7]) /\
  Size (filled [7]) = Capacity (filled [7]) /\
  Size (filled [7]) * 2 <= SIZE_MAX /\
  match EmplaceBack (Elt := countdown_element) 8 (filled [7])
          {| env := 0%nat; leaked := [] |} with
  | Thrown (v', w') => v' = filled [7] /\ leaked w' = []
  | _ => True
  end.
Proof.
  assert (Hv : valid (Elt := countdown_element) (filled [7]))
    by (apply valid_filled; vm_compute; discriminate).
  assert (Hd : Size (filled [7]) * 2 <= SIZE_MAX)
    by (vm_compute; discriminate).
  refine (conj eq_refl (conj Hv (conj eq_refl (conj Hd _)))).
  exact (proj1 (proj2 (noexcept_move_growth_is_safe (Elt := countdown_element)
                         eq_refl (filled [7]) {| env := 0%nat; leaked := [] |}
                         Hv)) 8 eq_refl Hd).
Defined.

Lemma copy_assign_reuses_block_witness :
  valid (filled [1; 2; 3]) /\ valid roomy /\
  match copy_assign roomy (filled [1; 2; 3]) calm with
  | Normal _ (v', _) =>
      contents v' = contents roomy /\
      Capacity v' =
        (if Capacity (filled [1; 2; 3]) <? Size roomy then Size roomy
         else Capacity (filled [1; 2; 3]))
  | Thrown (v', _) =>
      ~ quiet /\ Size v' = Size (filled [1; 2; 3]) /\
      Capacity v' = Capacity (filled [1; 2; 3]) /\
      (Capacity (filled [1; 2; 3]) < Size roomy -> v' = filled [1; 2; 3])
  | AssertFail | Undefined => False
  end.
Proof.
  assert (Hv : valid (filled [1; 2; 3]))
    by (apply valid_filled; vm_compute; discriminate).
  refine (conj Hv (conj valid_roomy _)).
  exact (copy_assign_reuses_block roomy (filled [1; 2; 3]) calm Hv valid_roomy).
Defined.

Lemma Reserve_wrapped_request_witness :
  valid snug /\ quiet (Elt := int_element) /\
  Capacity snug < 4611686018427387905 <= SIZE_MAX /\
  SIZE_MAX < 4611686018427387905 * sizeof /\
  wrap (4611686018427387905 * sizeof) / sizeof < Size snug /\
  Reserve 4611686018427387905 snug calm = Undefined.
Proof.
  assert (Hv : valid snug) by (apply valid_snug; vm_compute; discriminate).
  assert (Hq : quiet (Elt := int_element)) by (intros c e; reflexivity).
  assert (Hn : Capacity snug < 4611686018427387905 <= SIZE_MAX)
    by (vm_compute; split; [reflexivity | discriminate]).
  assert (Hb : SIZE_MAX < 4611686018427387905 * sizeof)
    by (vm_compute; reflexivity).
  assert (Hlt : wrap (4611686018427387905 * sizeof) / sizeof < Size snug)
    by (vm_compute; reflexivity).
  refine (conj Hv (conj Hq (conj Hn (conj Hb (conj Hlt _))))).
  exact (proj1 (proj2 (Reserve_wrapped_request 4611686018427387905 snug calm
                         Hv Hq Hn Hb)) Hlt).
Defined.
